(** * STRF scheduling simulation (streamlit_app.py): model and properties

    The simulation of [streamlit_app.py] (the block run by the
    "Run Simulation" button, lines 22-142) is embedded as Rocq functions
    over explicit state; the chart of lines 151-204 is embedded by the
    coordinates that it hands to the plotting library.

    Modelling conventions.
    - Python numbers (times, durations) are modelled as exact rationals [Q];
      rounding of binary floating point is not modelled.  Every concrete
      input used below is a small integer or dyadic rational, on which
      binary floating point is exact as well.
    - The job identifier ['J{i+1}'] is the index [i] of the job in
      [processes]; the processor name ['CPU{i+1}'] is the index [i].  The
      dictionaries keyed by all jobs (or by all processors) in insertion
      order are lists indexed by that number; the dictionaries that are
      filled during the run ([start_time], [end_time]) are finite maps, and
      the set [busy_jobs] is a finite set.
    - A [while] loop is a function with a fuel argument; running out of
      fuel is an outcome of its own, different from every Python result. *)

From Stdlib Require Import QArith Qabs Qround Qpower Lia Lqa Sorted.
From stdpp Require Import base option list gmap.

Local Open Scope Q_scope.

(** ** Numbers *)

#[global] Instance Q_inhabited : Inhabited Q := populate 0.

(** [x < y] as a boolean. *)
Definition Qlt_bool (x y : Q) : bool := negb (Qle_bool y x).

(** Python's [min(a, b)]: the first argument unless the second is smaller. *)
Definition py_min2 (a b : Q) : Q := if Qlt_bool b a then b else a.

(** Python's [min] of a non-empty list, the list given as head and tail. *)
Definition py_min (x : Q) (xs : list Q) : Q := foldl py_min2 x xs.

(** Rounding to the nearest integer, ties to the even one. *)
Definition round_half_even (x : Q) : Z :=
  let f := Qfloor x in
  match Qcompare (x - inject_Z f) (1 # 2) with
  | Lt => f
  | Gt => (f + 1)%Z
  | Eq => if Z.even f then f else (f + 1)%Z
  end.

(** Python's [round(x, 1)]: one decimal place. *)
Definition round1 (x : Q) : Q := round_half_even (x * 10) # 10.

(** The completion tolerance [0.001] of line 107. *)
Definition tolerance : Q := 1 # 1000.

(** The sum of a list of numbers. *)
Definition sumQ (l : list Q) : Q := foldr Qplus 0 l.

(** Python's [sum]: the elements are added one after the other to [0]. *)
Definition py_sum (l : list Q) : Q := foldl Qplus 0 l.

(** ** Outcomes *)

Inductive error : Set := IndexError | KeyError | ZeroDivisionError.

(** What a piece of the program does: it returns a value, raises, or is
    still running when the fuel is spent. *)
Inductive outcome (A : Type) : Type :=
| Ok (a : A)
| Raised (e : error)
| OutOfFuel.
Arguments Ok {A} a.
Arguments Raised {A} e.
Arguments OutOfFuel {A}.

Definition bind {A B : Type} (m : outcome A) (k : A -> outcome B) : outcome B :=
  match m with
  | Ok a => k a
  | Raised e => Raised e
  | OutOfFuel => OutOfFuel
  end.

Notation "'let*' x := m 'in' k" := (bind m (fun x => k))
  (at level 10, x name, m at level 100, k at level 200).

Fixpoint traverse {A B : Type} (f : A -> outcome B) (l : list A) : outcome (list B) :=
  match l with
  | [] => Ok []
  | x :: l' => let* y := f x in let* ys := traverse f l' in Ok (y :: ys)
  end.

(** ** Input *)

(** One entry of [processes] (line 19); its ['id'] is its position. *)
Record process : Type := {
  p_arrival_time : Q;
  p_burst_time : Q;
}.

Record config : Type := {
  processes : list process;
  num_cpus : nat;
  chunk_unit : Q;
  quantum_time : Q;
}.

(** ** Chunking (lines 30-38) *)

(** The [while remaining > 0] loop for one job. *)
Fixpoint break_into_chunks (fuel : nat) (unit remaining : Q) : outcome (list Q) :=
  if Qlt_bool 0 remaining then
    match fuel with
    | O => OutOfFuel
    | S fuel' =>
        let chunk := py_min2 unit remaining in
        let* chunks := break_into_chunks fuel' unit (remaining - chunk) in
        Ok (chunk :: chunks)
    end
  else Ok [].

(** ** State *)

Record state : Type := {
  remaining_time : list Q;
  start_time : gmap nat Q;
  end_time : gmap nat Q;
  job_chunks : list (list Q);
  busy_until : list Q;
  current_jobs : list (option nat);
  busy_jobs : gset nat;
  gantt_data : list (Q * nat * nat * Q);
  queue_snapshots : list (Q * list (nat * Q));
  current_time : Q;
  jobs_completed : nat;
  next_scheduling_time : Q;
}.

(** ** Sorting by key, as [sorted] and [list.sort] do: stably *)

(** [k1 < k2] on the tuples [(remaining_time, arrival_time)]: the first
    components decide unless they are equal. *)
Definition key_lt (k1 k2 : Q * Q) : bool :=
  if Qeq_bool (fst k1) (fst k2) then Qlt_bool (snd k1) (snd k2)
  else Qlt_bool (fst k1) (fst k2).

Fixpoint insert_by_key (key : nat -> Q * Q) (x : nat) (l : list nat) : list nat :=
  match l with
  | [] => [x]
  | y :: l' =>
      if key_lt (key y) (key x) then y :: insert_by_key key x l'
      else x :: y :: l'
  end.

(** A stable sort: an element goes in front of the later elements whose key
    is not smaller.  The result of a stable sort is determined by the
    input, so this is the list Python's sort returns. *)
Definition py_sorted (key : nat -> Q * Q) (l : list nat) : list nat :=
  foldr (insert_by_key key) [] l.

Section Engine.

Variable cfg : config.

Definition arrival_time : list Q := p_arrival_time <$> processes cfg.
Definition burst_time : list Q := p_burst_time <$> processes cfg.
Definition cpu_names : list nat := seq 0 (num_cpus cfg).
Definition job_ids : list nat := seq 0 (length (processes cfg)).

(** The sort key of lines 56 and 88. *)
Definition strf_key (s : state) (job_id : nat) : Q * Q :=
  (remaining_time s !!! job_id, arrival_time !!! job_id).

(** Lines 54-59. *)
Definition job_info (s : state) (available_jobs : list nat) : list (nat * Q) :=
  let active_jobs :=
    List.filter (fun j => Qlt_bool 0 (remaining_time s !!! j)) available_jobs in
  let queue := py_sorted (strf_key s) active_jobs in
  (fun job => (job, round1 (remaining_time s !!! job))) <$> queue.

Definition capture_queue_state (time : Q) (available_jobs : list nat) (s : state) : state :=
  match job_info s available_jobs with
  | [] => s
  | info =>
      {| remaining_time := remaining_time s; start_time := start_time s;
         end_time := end_time s; job_chunks := job_chunks s;
         busy_until := busy_until s; current_jobs := current_jobs s;
         busy_jobs := busy_jobs s; gantt_data := gantt_data s;
         queue_snapshots := queue_snapshots s ++ [(time, info)];
         current_time := current_time s; jobs_completed := jobs_completed s;
         next_scheduling_time := next_scheduling_time s |}
  end.

(** Lines 23-51 and the initial capture of lines 61-63. *)
Definition setup (chunks : list (list Q)) : state :=
  {| remaining_time := burst_time; start_time := ∅; end_time := ∅;
     job_chunks := chunks;
     busy_until := (fun _ => 0) <$> cpu_names;
     current_jobs := (fun _ => None) <$> cpu_names;
     busy_jobs := ∅; gantt_data := []; queue_snapshots := [];
     current_time := 0; jobs_completed := 0%nat;
     next_scheduling_time := 0 |}.

Definition initial_available_jobs : list nat :=
  List.filter (fun j => Qle_bool (arrival_time !!! j) 0) job_ids.

Definition initial_state (chunks : list (list Q)) : state :=
  capture_queue_state 0 initial_available_jobs (setup chunks).

(** One round of the loop of lines 68-73, for one processor. *)
Definition release_cpu (s : state) (cpu : nat) : state :=
  if Qle_bool (busy_until s !!! cpu) (current_time s) then
    match current_jobs s !!! cpu with
    | Some job_id =>
        {| remaining_time := remaining_time s; start_time := start_time s;
           end_time := end_time s; job_chunks := job_chunks s;
           busy_until := busy_until s;
           current_jobs := <[cpu := None]> (current_jobs s);
           busy_jobs := busy_jobs s ∖ {[job_id]};
           gantt_data := gantt_data s;
           queue_snapshots := queue_snapshots s;
           current_time := current_time s; jobs_completed := jobs_completed s;
           next_scheduling_time := next_scheduling_time s |}
    | None => s
    end
  else s.

Definition release_completed (s : state) : state :=
  foldl release_cpu s cpu_names.

(** Line 77. *)
Definition can_schedule (s : state) : bool :=
  Qle_bool (next_scheduling_time s) (current_time s).

(** Line 79. *)
Definition available_cpus (s : state) : list nat :=
  List.filter
    (fun cpu => Qle_bool (busy_until s !!! cpu) (current_time s)
                && bool_decide (current_jobs s !!! cpu = None))
    cpu_names.

(** Lines 80-81. *)
Definition available_jobs (s : state) : list nat :=
  List.filter
    (fun job_id => Qlt_bool 0 (remaining_time s !!! job_id)
                   && Qle_bool (arrival_time !!! job_id) (current_time s)
                   && bool_decide (job_id ∉ busy_jobs s))
    job_ids.

(** Lines 95-109: one job put on one processor. *)
Definition assign (cpu selected_job : nat) (s : state) : outcome state :=
  let start_time' :=
    match start_time s !! selected_job with
    | None => <[selected_job := current_time s]> (start_time s)
    | Some _ => start_time s
    end in
  match job_chunks s !!! selected_job with
  | [] => Raised IndexError
  | chunk_size :: rest =>
      let remaining := remaining_time s !!! selected_job - chunk_size in
      let completed := Qlt_bool (Qabs remaining) tolerance in
      Ok {| remaining_time := <[selected_job := remaining]> (remaining_time s);
            start_time := start_time';
            end_time :=
              if completed
              then <[selected_job := current_time s + chunk_size]> (end_time s)
              else end_time s;
            job_chunks := <[selected_job := rest]> (job_chunks s);
            busy_until := <[cpu := current_time s + chunk_size]> (busy_until s);
            current_jobs := <[cpu := Some selected_job]> (current_jobs s);
            busy_jobs := busy_jobs s ∪ {[selected_job]};
            gantt_data :=
              gantt_data s ++ [(current_time s, cpu, selected_job, chunk_size)];
            queue_snapshots := queue_snapshots s;
            current_time := current_time s;
            jobs_completed :=
              if completed then S (jobs_completed s) else jobs_completed s;
            next_scheduling_time := next_scheduling_time s |}
  end.

(** Lines 91-109: the loop over the free processors, which stops when the
    sorted job list is used up. *)
Fixpoint assign_jobs (cpus jobs : list nat) (s : state) : outcome state :=
  match cpus, jobs with
  | cpu :: cpus', selected_job :: jobs' =>
      let* s' := assign cpu selected_job s in assign_jobs cpus' jobs' s'
  | _, _ => Ok s
  end.

Definition set_next_scheduling_time (t : Q) (s : state) : state :=
  {| remaining_time := remaining_time s; start_time := start_time s;
     end_time := end_time s; job_chunks := job_chunks s;
     busy_until := busy_until s; current_jobs := current_jobs s;
     busy_jobs := busy_jobs s; gantt_data := gantt_data s;
     queue_snapshots := queue_snapshots s;
     current_time := current_time s; jobs_completed := jobs_completed s;
     next_scheduling_time := t |}.

Definition set_current_time (t : Q) (s : state) : state :=
  {| remaining_time := remaining_time s; start_time := start_time s;
     end_time := end_time s; job_chunks := job_chunks s;
     busy_until := busy_until s; current_jobs := current_jobs s;
     busy_jobs := busy_jobs s; gantt_data := gantt_data s;
     queue_snapshots := queue_snapshots s;
     current_time := t; jobs_completed := jobs_completed s;
     next_scheduling_time := next_scheduling_time s |}.

(** The condition of line 84, on the state after the releases. *)
Definition dispatch_round (s : state) : bool :=
  can_schedule s
  && negb (bool_decide (available_cpus s = []))
  && negb (bool_decide (available_jobs s = [])).

(** Lines 84-112. *)
Definition dispatch (s : state) : outcome state :=
  if dispatch_round s then
    let jobs := available_jobs s in
    let s1 := capture_queue_state (current_time s) jobs s in
    let* s2 := assign_jobs (available_cpus s) (py_sorted (strf_key s1) jobs) s1 in
    Ok (set_next_scheduling_time (current_time s2 + quantum_time cfg) s2)
  else Ok s.

(** Lines 115-125. *)
Definition next_time_events (s : state) : list Q :=
  List.filter (fun t => Qlt_bool (current_time s) t) (busy_until s)
  ++ ((fun j => arrival_time !!! j) <$>
       List.filter
         (fun j => Qlt_bool (current_time s) (arrival_time !!! j)
                   && Qlt_bool 0 (remaining_time s !!! j))
         job_ids)
  ++ (if Qlt_bool (current_time s) (next_scheduling_time s)
      then [next_scheduling_time s] else []).

(** How an iteration of the simulation loop ends: at its last line, or
    with the [break] of line 132. *)
Inductive flow : Set := Continue | Break.

(** Lines 127-132. *)
Definition advance (s : state) : state * flow :=
  match next_time_events s with
  | t :: ts => (set_current_time (py_min t ts) s, Continue)
  | [] => (s, Break)
  end.

(** The body of the simulation loop, lines 67-132. *)
Definition loop_body (s : state) : outcome (state * flow) :=
  let* s' := dispatch (release_completed s) in Ok (advance s').

(** How the simulation loop was left. *)
Inductive loop_exit : Set := AllCompleted | NoMoreEvents.

(** The simulation loop, lines 66-132. *)
Fixpoint simulation_loop (fuel : nat) (s : state) : outcome (state * loop_exit) :=
  if (jobs_completed s <? length (processes cfg))%nat then
    match fuel with
    | O => OutOfFuel
    | S fuel' =>
        let* r := loop_body s in
        match r with
        | (s', Continue) => simulation_loop fuel' s'
        | (s', Break) => Ok (s', NoMoreEvents)
        end
    end
  else Ok (s, AllCompleted).

(** One row of the results table (lines 136-140). *)
Record job_result : Type := {
  r_id : nat;
  r_arrival_time : Q;
  r_burst_time : Q;
  r_start_time : Q;
  r_end_time : Q;
  r_turnaround_time : Q;
}.

Definition lookup_or_raise (m : gmap nat Q) (k : nat) : outcome Q :=
  match m !! k with
  | Some v => Ok v
  | None => Raised KeyError
  end.

Definition job_result_of (s : state) (job_id : nat) : outcome job_result :=
  let* st := lookup_or_raise (start_time s) job_id in
  let* en := lookup_or_raise (end_time s) job_id in
  Ok {| r_id := job_id;
        r_arrival_time := arrival_time !!! job_id;
        r_burst_time := burst_time !!! job_id;
        r_start_time := st;
        r_end_time := en;
        r_turnaround_time := en - arrival_time !!! job_id |}.

(** Lines 135-142. *)
Definition results (s : state) : outcome (list job_result * Q) :=
  let* rs := traverse (job_result_of s) job_ids in
  match rs with
  | [] => Raised ZeroDivisionError
  | _ =>
      Ok (rs, py_sum (r_turnaround_time <$> rs) / inject_Z (Z.of_nat (length rs)))
  end.

(** What the run hands to the presentation code. *)
Record output : Type := {
  o_results : list job_result;
  o_avg_turnaround : Q;
  o_gantt_data : list (Q * nat * nat * Q);
  o_queue_snapshots : list (Q * list (nat * Q));
}.

(** Lines 22-142. *)
Definition simulate (fuel : nat) : outcome output :=
  let* chunks := traverse (break_into_chunks fuel (chunk_unit cfg)) burst_time in
  let* r := simulation_loop fuel (initial_state chunks) in
  let* rs := results (fst r) in
  Ok {| o_results := fst rs; o_avg_turnaround := snd rs;
        o_gantt_data := gantt_data (fst r);
        o_queue_snapshots := queue_snapshots (fst r) |}.

(** The states of a run at the boundaries of the iterations of the
    simulation loop: [reached Continue s] when the loop is at its head in
    state [s] (at first, or after an iteration that ran to its last line),
    [reached Break s] when the loop has just been left by [break] in
    state [s]. *)
Inductive reached : flow -> state -> Prop :=
| reached_initial fuel chunks :
    traverse (break_into_chunks fuel (chunk_unit cfg)) burst_time = Ok chunks ->
    reached Continue (initial_state chunks)
| reached_iteration s s' fl :
    reached Continue s ->
    (jobs_completed s < length (processes cfg))%nat ->
    loop_body s = Ok (s', fl) ->
    reached fl s'.


(** A job that line 81 selects, and a processor that line 79 selects. *)
Definition ready (s : state) (job_id : nat) : Prop :=
  (job_id < length (processes cfg))%nat
  /\ 0 < remaining_time s !!! job_id
  /\ arrival_time !!! job_id <= current_time s
  /\ job_id ∉ busy_jobs s.

Definition free (s : state) (cpu : nat) : Prop :=
  (cpu < num_cpus cfg)%nat
  /\ busy_until s !!! cpu <= current_time s
  /\ current_jobs s !!! cpu = None.

End Engine.

(** The state after [n] iterations of the simulation loop from [s]. *)
Fixpoint iterations (cfg : config) (n : nat) (s : state) : outcome state :=
  match n with
  | O => Ok s
  | S n' => let* r := loop_body cfg s in iterations cfg n' (fst r)
  end.

(** ** Configurations *)

(** Scenario A of the specification. *)
Definition scenario_A : config :=
  {| processes := [ {| p_arrival_time := 0; p_burst_time := 3 |} ];
     num_cpus := 1; chunk_unit := 1; quantum_time := 1 |}.

(** A configuration whose only job has burst time [0]. *)
Definition zero_burst : config :=
  {| processes := [ {| p_arrival_time := 0; p_burst_time := 0 |} ];
     num_cpus := 1; chunk_unit := 1; quantum_time := 1 |}.

(** A configuration with a negative chunk unit. *)
Definition negative_unit : config :=
  {| processes := [ {| p_arrival_time := 0; p_burst_time := 3 |} ];
     num_cpus := 1; chunk_unit := -1; quantum_time := 1 |}.


(** One processor; a job at time 0 and a job that arrives at time 5, long
    after the first one is done and more than a quantum (2) after the only
    earlier dispatch round. *)
Definition late_arrival : config :=
  {| processes := [ {| p_arrival_time := 0; p_burst_time := 1 |};
                    {| p_arrival_time := 5; p_burst_time := 1 |} ];
     num_cpus := 1; chunk_unit := 1; quantum_time := 2 |}.

(** One processor; a job at time 0 and a job that arrives at time 3/2, when
    the processor is idle again but less than a quantum (2) has passed since
    the dispatch round at time 0. *)
Definition early_arrival : config :=
  {| processes := [ {| p_arrival_time := 0; p_burst_time := 1 |};
                    {| p_arrival_time := 3 # 2; p_burst_time := 1 |} ];
     num_cpus := 1; chunk_unit := 1; quantum_time := 2 |}.


(** The same job together with a longer one. *)
Definition tiny_tail_and_other : config :=
  {| processes := [ {| p_arrival_time := 0; p_burst_time := 2049 # 2048 |};
                    {| p_arrival_time := 0; p_burst_time := 3 |} ];
     num_cpus := 1; chunk_unit := 1; quantum_time := 1 |}.



(** ** Predicates on states and records *)

(** [cpu] holds [job_id]. *)
Definition holds (s : state) (cpu job_id : nat) : Prop :=
  current_jobs s !! cpu = Some (Some job_id).

(** No job is on two processors, no processor has two jobs. *)
Definition exclusive (s : state) : Prop :=
  (forall cpu1 cpu2 job_id, holds s cpu1 job_id -> holds s cpu2 job_id -> cpu1 = cpu2)
  /\ (forall cpu job1 job2, holds s cpu job1 -> holds s cpu job2 -> job1 = job2).

(** Every job that a processor holds is in [busy_jobs]. *)
Definition held_are_busy (s : state) : Prop :=
  forall cpu job_id, holds s cpu job_id -> job_id ∈ busy_jobs s.

(** The shape that every state of a run has: one entry per processor in the
    processor tables, and chunks of positive length. *)
Definition well_formed (cfg : config) (s : state) : Prop :=
  length (busy_until s) = num_cpus cfg
  /\ length (current_jobs s) = num_cpus cfg
  /\ Forall (Forall (fun c => 0 < c)) (job_chunks s).

(** The start time, the job, the duration and the end of an execution
    record. *)
Definition record_start (r : Q * nat * nat * Q) : Q := fst (fst (fst r)).
Definition record_job (r : Q * nat * nat * Q) : nat := snd (fst r).
Definition record_duration (r : Q * nat * nat * Q) : Q := snd r.
Definition record_end (r : Q * nat * nat * Q) : Q :=
  record_start r + record_duration r.

(** [r] is the last execution record of [job_id] in [gantt]. *)
Definition last_record_of (job_id : nat) (r : Q * nat * nat * Q)
    (gantt : list (Q * nat * nat * Q)) : Prop :=
  exists g1 g2 : list (Q * nat * nat * Q),
    gantt = g1 ++ r :: g2
    /\ record_job r = job_id
    /\ Forall (fun r' => record_job r' <> job_id) g2.

(** [k1 <= k2] on the tuples [(remaining_time, arrival_time)]. *)
Definition key_le (k1 k2 : Q * Q) : Prop :=
  fst k1 < fst k2 \/ (fst k1 == fst k2 /\ snd k1 <= snd k2).

(** A job sequence in ascending order of the key: every job's key is at
    most the key of every job after it. *)
Definition ascending (key : nat -> Q * Q) (l : list nat) : Prop :=
  StronglySorted (fun a b => key_le (key a) (key b)) l.

(** A job starts no earlier than it arrives and no later than now, and
    ends no earlier than it starts. *)
Definition times_ordered (cfg : config) (s : state) : Prop :=
  (forall j st, start_time s !! j = Some st ->
     arrival_time cfg !!! j <= st /\ st <= current_time s)
  /\ (forall j e, end_time s !! j = Some e ->
        exists st, start_time s !! j = Some st /\ st <= e).

(** The remaining time of a job is what its chunks still to be dispatched
    add up to, unless the job never had any work. *)
Definition in_lockstep (cfg : config) (s : state) : Prop :=
  length (remaining_time s) = length (processes cfg)
  /\ length (job_chunks s) = length (processes cfg)
  /\ forall j, (j < length (processes cfg))%nat ->
       remaining_time s !!! j == sumQ (job_chunks s !!! j)
       \/ (job_chunks s !!! j = [] /\ remaining_time s !!! j <= 0).



(** Scenario B of the specification: two processors, two jobs that arrive
    at time 0 with burst times 2 and 4. *)
Definition scenario_B : config :=
  {| processes := [ {| p_arrival_time := 0; p_burst_time := 2 |};
                    {| p_arrival_time := 0; p_burst_time := 4 |} ];
     num_cpus := 2; chunk_unit := 1; quantum_time := 1 |}.

(** The processor of an execution record. *)
Definition record_cpu (r : Q * nat * nat * Q) : nat := snd (fst (fst r)).

(** What every execution record of a run satisfies. *)
Definition record_ok (cfg : config) (s : state) (r : Q * nat * nat * Q) : Prop :=
  (record_job r < length (processes cfg))%nat
  /\ (record_cpu r < num_cpus cfg)%nat
  /\ arrival_time cfg !!! record_job r <= record_start r
  /\ record_start r <= current_time s
  /\ 0 < record_duration r
  /\ record_duration r <= chunk_unit cfg.

(** An execution record is over, or its processor still holds its job and
    is busy until the record ends or later. *)
Definition over_or_running (s : state) (r : Q * nat * nat * Q) : Prop :=
  record_end r <= current_time s
  \/ (holds s (record_cpu r) (record_job r)
      /\ record_end r <= busy_until s !!! record_cpu r).

(** The execution records are in the order of their start times; two
    records on one processor do not overlap, nor do two records of one
    job. *)
Definition chronological (gantt : list (Q * nat * nat * Q)) : Prop :=
  StronglySorted (fun r1 r2 => record_start r1 <= record_start r2) gantt.
Definition one_at_a_time_per_cpu (gantt : list (Q * nat * nat * Q)) : Prop :=
  StronglySorted
    (fun r1 r2 => record_cpu r1 = record_cpu r2 -> record_end r1 <= record_start r2)
    gantt.
Definition one_at_a_time_per_job (gantt : list (Q * nat * nat * Q)) : Prop :=
  StronglySorted
    (fun r1 r2 => record_job r1 = record_job r2 -> record_end r1 <= record_start r2)
    gantt.

Definition timeline_invariant (cfg : config) (s : state) : Prop :=
  well_formed cfg s
  /\ Forall (Forall (fun c => c <= chunk_unit cfg)) (job_chunks s)
  /\ exclusive s /\ held_are_busy s
  /\ Forall (record_ok cfg s) (gantt_data s)
  /\ Forall (over_or_running s) (gantt_data s)
  /\ chronological (gantt_data s)
  /\ one_at_a_time_per_cpu (gantt_data s)
  /\ one_at_a_time_per_job (gantt_data s).

(** The time for which [job_id] has been dispatched: the sum of the
    durations of its execution records. *)
Definition dispatched_time (job_id : nat) (gantt : list (Q * nat * nat * Q)) : Q :=
  sumQ (record_duration <$> List.filter (fun r => Nat.eqb (record_job r) job_id) gantt).

(** [r] is the first execution record of [job_id] in [gantt]. *)
Definition first_record_of (job_id : nat) (r : Q * nat * nat * Q)
    (gantt : list (Q * nat * nat * Q)) : Prop :=
  exists g1 g2 : list (Q * nat * nat * Q),
    gantt = g1 ++ r :: g2
    /\ record_job r = job_id
    /\ Forall (fun r' => record_job r' <> job_id) g1.

(** The start time of a job is the start of its first execution record, and
    a job without a start time has no execution record. *)
Definition started_at_first_record (s : state) : Prop :=
  forall j : nat,
    match start_time s !! j with
    | Some st =>
        exists r, first_record_of j r (gantt_data s) /\ st = record_start r
    | None => Forall (fun r => record_job r <> j) (gantt_data s)
    end.

(** The end time of a job is the end of its last execution record, and the
    job's remaining time is then within the tolerance of zero. *)
Definition ended_at_last_record (s : state) : Prop :=
  forall (j : nat) (e : Q),
    end_time s !! j = Some e ->
    (exists r, last_record_of j r (gantt_data s) /\ e = record_end r)
    /\ 0 <= remaining_time s !!! j /\ remaining_time s !!! j < tolerance.

(** What is left of a job and what has been dispatched of it make up its
    burst time. *)
Definition work_conserved (cfg : config) (s : state) : Prop :=
  forall j : nat,
    (j < length (processes cfg))%nat ->
    remaining_time s !!! j + dispatched_time j (gantt_data s) == burst_time cfg !!! j.

(** The number of chunks that are still to be dispatched. *)
Definition chunks_left (s : state) : nat := length (concat (job_chunks s)).

(** A bound on the number of iterations that the simulation loop can still
    make from [s]: every iteration either dispatches a chunk or uses up a
    pending event, and there are never more pending events than processors
    and jobs and one. *)
Definition loop_measure (cfg : config) (s : state) : nat :=
  chunks_left s * (num_cpus cfg + length (processes cfg) + 2)
  + length (next_time_events cfg s).

(** [a] comes before [b] in the order of the dispatch policy: its key is
    not larger, and if the keys are equal it has the smaller job number. *)
Definition strf_before (key : nat -> Q * Q) (a b : nat) : Prop :=
  key_le (key a) (key b) /\ (key_le (key b) (key a) -> (a < b)%nat).

(** ** The chart (lines 151-204)

    [draw_gantt_with_queue] is modelled by the coordinates that it hands to
    the plotting library: the bars of the execution records, the vertical
    lines at the quantum marks and at the other whole times, the boxes of
    the queue snapshots and the limits of the axes.  Colours and texts are
    left out. *)

(** Python's [int] of a float: truncation towards zero. *)
Definition py_int (x : Q) : Z := Z.quot (Qnum x) (Zpos (Qden x)).

(** Python's [max] of a non-empty list: the first of its largest elements. *)
Definition py_max (x : Q) (xs : list Q) : Q :=
  foldl (fun m y => if Qlt_bool m y then y else m) x xs.

(** The number of elements of Python's [range(start, stop, step)]. *)
Definition py_range_length (start stop step : Z) : Z :=
  if (0 <? step)%Z then
    if (start <? stop)%Z then ((stop - start - 1) / step + 1)%Z else 0%Z
  else
    if (stop <? start)%Z then ((start - stop - 1) / (- step) + 1)%Z else 0%Z.

(** Python's [range(start, stop, step)] as a list; a step of 0 raises
    [ValueError]. *)
Definition py_range (start stop step : Z) : option (list Z) :=
  if (step =? 0)%Z then None
  else
    Some ((fun i : nat => (start + Z.of_nat i * step)%Z)
            <$> seq 0 (Z.to_nat (py_range_length start stop step))).

Record chart : Type := {
  (** a bar per execution record: row, left end, width (lines 161-164) *)
  c_bars : list (Z * Q * Q);
  (** the quantum marks (lines 169-170) *)
  c_quantum_lines : list Z;
  (** the other whole times (lines 173-175) *)
  c_time_lines : list Z;
  (** line 179 *)
  c_xlim : Q * Q;
  (** a box of side 0.5 per entry of a snapshot: its lower left corner
      (lines 185-190) *)
  c_boxes : list (Q * Q);
  (** line 196, when there is a snapshot *)
  c_ylim : option (Q * Q);
}.

Inductive chart_result : Type :=
| Chart (c : chart)
| ChartValueError
| ChartKeyError.

(** The row of a processor in the chart (line 159). *)
Definition cpu_ypos (cfg : config) (cpu : nat) : Z :=
  (Z.of_nat (num_cpus cfg) - Z.of_nat cpu)%Z.

(** The lower left corners of the boxes of one snapshot (lines 186-189). *)
Definition snapshot_boxes (snap : Q * list (nat * Q)) : list (Q * Q) :=
  imap (fun (i : nat) (_ : nat * Q) =>
          (fst snap - (1 # 4),
           (-1) - inject_Z (Z.of_nat i) * (6 # 10) - (1 # 4)))
       (snd snap).

(** Lines 194-195. *)
Definition chart_min_y (snaps : list (Q * list (nat * Q))) : Q :=
  (-1) - inject_Z (Z.of_nat (foldr Nat.max 0%nat ((fun q => length (snd q)) <$> snaps)))
         * (6 # 10)
  - (1 # 2).

(** Lines 151-204.  [end_times] are the values of the dictionary
    [end_time], in the order in which Python enumerates them. *)
Definition draw_gantt_with_queue (cfg : config) (end_times : list Q)
    (gantt : list (Q * nat * nat * Q)) (snaps : list (Q * list (nat * Q)))
    : chart_result :=
  match end_times with
  | [] => ChartValueError
  | e :: es =>
      let max_time := py_max e es in
      if forallb (fun r => (record_cpu r <? num_cpus cfg)%nat
                           && (record_job r <? length (processes cfg))%nat) gantt
      then
        match py_range 0 (py_int max_time + 1) (py_int (quantum_time cfg)) with
        | None => ChartValueError
        | Some quantum_lines =>
            let whole :=
              (fun i : nat => Z.of_nat i) <$> seq 0 (Z.to_nat (py_int max_time + 1)) in
            let time_lines :=
              List.filter
                (fun t => negb (t mod py_int (quantum_time cfg) =? 0)%Z) whole in
            let c (ylim : option (Q * Q)) :=
              {| c_bars :=
                   (fun r => (cpu_ypos cfg (record_cpu r), record_start r,
                              record_duration r)) <$> gantt;
                 c_quantum_lines := quantum_lines;
                 c_time_lines := time_lines;
                 c_xlim := (0, max_time + (1 # 2));
                 c_boxes := snaps ≫= snapshot_boxes;
                 c_ylim := ylim |} in
            match snaps with
            | [] => Chart (c None)
            | _ :: _ =>
                match num_cpus cfg with
                | O => ChartValueError
                | S _ =>
                    Chart (c (Some (chart_min_y snaps,
                                    inject_Z (Z.of_nat (num_cpus cfg)) + 1)))
                end
            end
        end
      else ChartKeyError
  end.

(** A configuration with a quantum of one half. *)
Definition half_quantum : config :=
  {| processes := [ {| p_arrival_time := 0; p_burst_time := 1 |} ];
     num_cpus := 1; chunk_unit := 1; quantum_time := 1 # 2 |}.

(** ** The program's own arithmetic: binary64

    Python computes with binary64 numbers, and where the claims depend on
    what the rounding of an arithmetic result does (the chunking of lines
    30-38, the completion test of line 107) the program is embedded a
    second time, in [Binary64], with every arithmetic result rounded as
    binary64 rounds it: to the nearest number with a significand of 53 bits
    and an exponent of -1074 or more, ties to the even significand.  A
    binary64 number is here the rational number that it is; results whose
    magnitude reaches [2 ^ 1024], which binary64 turns into an infinity, are
    outside this embedding.

    Comparisons, [min], [abs] and the sort are exact on binary64 numbers,
    so the parts of the program that only compare are shared with the
    embedding above: the releases, the selection of processors and jobs, the
    gate, the events and the advance of the clock. *)
Module Binary64.

(** The integer part of the binary logarithm of a positive number. *)
Definition Qlog2 (x : Q) : Z :=
  let k := (Z.log2 (Qnum x) - Z.log2 (Zpos (Qden x)))%Z in
  if Qle_bool (2 ^ k) x then k else (k - 1)%Z.

(** The exponent of the last bit of the binary64 numbers around [x]. *)
Definition exponent (x : Q) : Z := Z.max (Qlog2 (Qabs x) - 52) (-1074).

(** The binary64 number nearest to [x], ties to even. *)
Definition rnd (x : Q) : Q :=
  if Qeq_bool x 0 then 0
  else Qred (inject_Z (round_half_even (x / 2 ^ exponent x)) * 2 ^ exponent x).

(** [x] is a binary64 number. *)
Definition binary64 (x : Q) : Prop := rnd x == x.

(** What [st.number_input] hands to the program (lines 9-19): the binary64
    numbers nearest to the numbers entered. *)
Definition read (cfg : config) : config :=
  {| processes :=
       (fun p => {| p_arrival_time := rnd (p_arrival_time p);
                    p_burst_time := rnd (p_burst_time p) |}) <$> processes cfg;
     num_cpus := num_cpus cfg;
     chunk_unit := rnd (chunk_unit cfg);
     quantum_time := rnd (quantum_time cfg) |}.

(** The literal [0.001] of line 107. *)
Definition tolerance : Q := rnd (1 # 1000).

(** Python's [round(x, 1)] of a binary64 number: the binary64 number nearest
    to the nearest number of tenths. *)
Definition round1 (x : Q) : Q := rnd (round_half_even (x * 10) # 10).

(** Python's [sum] of binary64 numbers. *)
Definition py_sum (l : list Q) : Q := foldl (fun a x => rnd (a + x)) 0 l.

(** Lines 34-37, for one job. *)
Fixpoint break_into_chunks (fuel : nat) (unit remaining : Q) : outcome (list Q) :=
  if Qlt_bool 0 remaining then
    match fuel with
    | O => OutOfFuel
    | S fuel' =>
        let chunk := py_min2 unit remaining in
        let* chunks := break_into_chunks fuel' unit (rnd (remaining - chunk)) in
        Ok (chunk :: chunks)
    end
  else Ok [].

(** What is left of [remaining] when the chunks have been subtracted from
    it one after the other, as line 103 does. *)
Definition left_after (remaining : Q) (chunks : list Q) : Q :=
  foldl (fun r chunk => rnd (r - chunk)) remaining chunks.

Section Engine.

Variable cfg : config.

(** Lines 54-59. *)
Definition job_info (s : state) (available_jobs : list nat) : list (nat * Q) :=
  let active_jobs :=
    List.filter (fun j => Qlt_bool 0 (remaining_time s !!! j)) available_jobs in
  let queue := py_sorted (strf_key cfg s) active_jobs in
  (fun job => (job, round1 (remaining_time s !!! job))) <$> queue.

Definition capture_queue_state (time : Q) (available_jobs : list nat) (s : state) : state :=
  match job_info s available_jobs with
  | [] => s
  | info =>
      {| remaining_time := remaining_time s; start_time := start_time s;
         end_time := end_time s; job_chunks := job_chunks s;
         busy_until := busy_until s; current_jobs := current_jobs s;
         busy_jobs := busy_jobs s; gantt_data := gantt_data s;
         queue_snapshots := queue_snapshots s ++ [(time, info)];
         current_time := current_time s; jobs_completed := jobs_completed s;
         next_scheduling_time := next_scheduling_time s |}
  end.

Definition initial_state (chunks : list (list Q)) : state :=
  capture_queue_state 0 (initial_available_jobs cfg) (setup cfg chunks).

(** Lines 95-109. *)
Definition assign (cpu selected_job : nat) (s : state) : outcome state :=
  let start_time' :=
    match start_time s !! selected_job with
    | None => <[selected_job := current_time s]> (start_time s)
    | Some _ => start_time s
    end in
  match job_chunks s !!! selected_job with
  | [] => Raised IndexError
  | chunk_size :: rest =>
      let remaining := rnd (remaining_time s !!! selected_job - chunk_size) in
      let completed := Qlt_bool (Qabs remaining) tolerance in
      Ok {| remaining_time := <[selected_job := remaining]> (remaining_time s);
            start_time := start_time';
            end_time :=
              if completed
              then <[selected_job := rnd (current_time s + chunk_size)]> (end_time s)
              else end_time s;
            job_chunks := <[selected_job := rest]> (job_chunks s);
            busy_until := <[cpu := rnd (current_time s + chunk_size)]> (busy_until s);
            current_jobs := <[cpu := Some selected_job]> (current_jobs s);
            busy_jobs := busy_jobs s ∪ {[selected_job]};
            gantt_data :=
              gantt_data s ++ [(current_time s, cpu, selected_job, chunk_size)];
            queue_snapshots := queue_snapshots s;
            current_time := current_time s;
            jobs_completed :=
              if completed then S (jobs_completed s) else jobs_completed s;
            next_scheduling_time := next_scheduling_time s |}
  end.

(** Lines 91-109. *)
Fixpoint assign_jobs (cpus jobs : list nat) (s : state) : outcome state :=
  match cpus, jobs with
  | cpu :: cpus', selected_job :: jobs' =>
      let* s' := assign cpu selected_job s in assign_jobs cpus' jobs' s'
  | _, _ => Ok s
  end.

(** Lines 84-112. *)
Definition dispatch (s : state) : outcome state :=
  if dispatch_round cfg s then
    let jobs := available_jobs cfg s in
    let s1 := capture_queue_state (current_time s) jobs s in
    let* s2 := assign_jobs (available_cpus cfg s) (py_sorted (strf_key cfg s1) jobs) s1 in
    Ok (set_next_scheduling_time (rnd (current_time s2 + quantum_time cfg)) s2)
  else Ok s.

(** The body of the simulation loop, lines 67-132. *)
Definition loop_body (s : state) : outcome (state * flow) :=
  let* s' := dispatch (release_completed cfg s) in Ok (advance cfg s').

(** The simulation loop, lines 66-132. *)
Fixpoint simulation_loop (fuel : nat) (s : state) : outcome (state * loop_exit) :=
  if (jobs_completed s <? length (processes cfg))%nat then
    match fuel with
    | O => OutOfFuel
    | S fuel' =>
        let* r := loop_body s in
        match r with
        | (s', Continue) => simulation_loop fuel' s'
        | (s', Break) => Ok (s', NoMoreEvents)
        end
    end
  else Ok (s, AllCompleted).

(** Lines 136-140. *)
Definition job_result_of (s : state) (job_id : nat) : outcome job_result :=
  let* st := lookup_or_raise (start_time s) job_id in
  let* en := lookup_or_raise (end_time s) job_id in
  Ok {| r_id := job_id;
        r_arrival_time := arrival_time cfg !!! job_id;
        r_burst_time := burst_time cfg !!! job_id;
        r_start_time := st;
        r_end_time := en;
        r_turnaround_time := rnd (en - arrival_time cfg !!! job_id) |}.

(** Lines 135-142. *)
Definition results (s : state) : outcome (list job_result * Q) :=
  let* rs := traverse (job_result_of s) (job_ids cfg) in
  match rs with
  | [] => Raised ZeroDivisionError
  | _ =>
      Ok (rs, rnd (py_sum (r_turnaround_time <$> rs) / inject_Z (Z.of_nat (length rs))))
  end.

(** Lines 22-142, on the numbers that the program has received. *)
Definition run (fuel : nat) : outcome output :=
  let* chunks :=
    traverse (break_into_chunks fuel (chunk_unit cfg)) (burst_time cfg) in
  let* r := simulation_loop fuel (initial_state chunks) in
  let* rs := results (fst r) in
  Ok {| o_results := fst rs; o_avg_turnaround := snd rs;
        o_gantt_data := gantt_data (fst r);
        o_queue_snapshots := queue_snapshots (fst r) |}.

(** The states of a run at the boundaries of the iterations of the
    simulation loop. *)
Inductive reached : flow -> state -> Prop :=
| reached_initial fuel chunks :
    traverse (break_into_chunks fuel (chunk_unit cfg)) (burst_time cfg) = Ok chunks ->
    reached Continue (initial_state chunks)
| reached_iteration s s' fl :
    reached Continue s ->
    (jobs_completed s < length (processes cfg))%nat ->
    loop_body s = Ok (s', fl) ->
    reached fl s'.

End Engine.

(** The program on the numbers entered. *)
Definition simulate (cfg : config) (fuel : nat) : outcome output :=
  run (read cfg) fuel.

(** The end of an execution record, as lines 102 and 108 compute it. *)
Definition record_end (r : Q * nat * nat * Q) : Q :=
  rnd (record_start r + record_duration r).

End Binary64.

(** The inputs of two runs on which rounding shows. *)
Definition tenths : config :=
  {| processes := [ {| p_arrival_time := 0; p_burst_time := 1 |};
                    {| p_arrival_time := 0; p_burst_time := 3 |} ];
     num_cpus := 1; chunk_unit := 1 # 10; quantum_time := 1 |}.

(** * Properties *)

(** ** Comparisons *)

Lemma Qlt_bool_iff (x y : Q) : Qlt_bool x y = true <-> x < y.
Proof.
  unfold Qlt_bool. rewrite negb_true_iff.
  destruct (Qle_bool y x) eqn:E.
  - apply Qle_bool_iff in E. split; [discriminate | lra].
  - split; [intros _ | reflexivity].
    destruct (Qlt_le_dec x y) as [H | H]; [exact H |].
    apply Qle_bool_iff in H. congruence.
Qed.

Lemma Qlt_bool_false (x y : Q) : Qlt_bool x y = false <-> y <= x.
Proof.
  unfold Qlt_bool. rewrite negb_false_iff. apply Qle_bool_iff.
Qed.

Lemma py_min2_cases (a b : Q) :
  (b < a /\ py_min2 a b = b) \/ (a <= b /\ py_min2 a b = a).
Proof.
  unfold py_min2. destruct (Qlt_bool b a) eqn:E.
  - left. apply Qlt_bool_iff in E. auto.
  - right. apply Qlt_bool_false in E. auto.
Qed.

(** ** Chunking *)

Lemma break_into_chunks_done (fuel : nat) (unit remaining : Q) :
  remaining <= 0 -> break_into_chunks fuel unit remaining = Ok [].
Proof.
  intros H. apply Qlt_bool_false in H. destruct fuel; simpl; rewrite H; reflexivity.
Qed.

Lemma sumQ_app (l1 l2 : list Q) : sumQ (l1 ++ l2) == sumQ l1 + sumQ l2.
Proof.
  induction l1 as [| x l1 IH]; simpl; [lra |]. rewrite IH. lra.
Qed.

Lemma sumQ_repeat (x : Q) (k : nat) :
  sumQ (repeat x k) == inject_Z (Z.of_nat k) * x.
Proof.
  induction k as [| k IH].
  - change (0 == 0 * x). lra.
  - rewrite Nat2Z.inj_succ. unfold Z.succ. rewrite inject_Z_plus.
    simpl repeat. simpl sumQ. rewrite IH. change (inject_Z 1) with 1. ring.
Qed.

Lemma break_into_chunks_more_fuel (unit : Q) (fuel fuel' : nat) :
  (fuel <= fuel')%nat ->
  forall (remaining : Q) (chunks : list Q),
    break_into_chunks fuel unit remaining = Ok chunks ->
    break_into_chunks fuel' unit remaining = Ok chunks.
Proof.
  revert fuel'. induction fuel as [| fuel IH]; intros fuel' Hle remaining chunks.
  - destruct fuel'; simpl; destruct (Qlt_bool 0 remaining); congruence.
  - destruct fuel' as [| fuel']; [lia |]. simpl.
    destruct (Qlt_bool 0 remaining); [| congruence].
    destruct (break_into_chunks fuel unit _) as [l | |] eqn:E; simpl; try discriminate.
    intros H. rewrite (IH fuel' ltac:(lia) _ _ E). exact H.
Qed.

(** The loop on a remaining time of at most [n] units: whole units, then the
    remainder. *)
Lemma break_into_chunks_shape (unit : Q) (n : nat) :
  0 < unit ->
  forall (remaining : Q) (fuel : nat),
    0 < remaining -> remaining <= inject_Z (Z.of_nat n) * unit -> (n <= fuel)%nat ->
    exists (k : nat) (last : Q),
      break_into_chunks fuel unit remaining = Ok (repeat unit k ++ [last])
      /\ last == remaining - inject_Z (Z.of_nat k) * unit
      /\ 0 < last /\ last <= unit.
Proof.
  intros Hu. induction n as [| n IH]; intros remaining fuel Hpos Hle Hfuel.
  - change (inject_Z (Z.of_nat 0)) with 0 in Hle. lra.
  - destruct fuel as [| fuel]; [lia |].
    rewrite Nat2Z.inj_succ in Hle. unfold Z.succ in Hle. rewrite inject_Z_plus in Hle.
    change (inject_Z 1) with 1 in Hle.
    simpl. pose proof Hpos as Hb. apply Qlt_bool_iff in Hb. rewrite Hb.
    destruct (py_min2_cases unit remaining) as [[Hlt ->] | [Hge ->]].
    + rewrite break_into_chunks_done by lra.
      exists 0%nat, remaining. change (inject_Z (Z.of_nat 0)) with 0.
      simpl. repeat split; lra.
    + destruct (Qlt_le_dec 0 (remaining - unit)) as [Hmore | Hnone].
      * destruct (IH (remaining - unit) fuel) as (k & last & -> & Hlast & Hl0 & Hl1);
          [lra | lra | lia |].
        exists (S k), last. simpl. split; [reflexivity |].
        rewrite Nat2Z.inj_succ. unfold Z.succ. rewrite inject_Z_plus.
        change (inject_Z 1) with 1.
        repeat split; lra.
      * rewrite break_into_chunks_done by lra.
        exists 0%nat, unit. change (inject_Z (Z.of_nat 0)) with 0.
        simpl. repeat split; lra.
Qed.

Lemma chunk_count_bound (unit burst : Q) :
  0 < unit -> 0 < burst ->
  burst <= inject_Z (Z.of_nat (Z.to_nat (Qceiling (burst / unit)))) * unit.
Proof.
  intros Hu Hb.
  pose proof (Qle_ceiling (burst / unit)) as Hc.
  assert (H0 : 0 <= burst / unit).
  { apply Qle_shift_div_l; lra. }
  assert (Hz : (0 <= Qceiling (burst / unit))%Z).
  { assert (H1 : 0 <= inject_Z (Qceiling (burst / unit))) by lra.
    change 0 with (inject_Z 0) in H1. rewrite <- Zle_Qle in H1. exact H1. }
  rewrite Z2Nat.id by exact Hz.
  apply Qle_trans with (burst / unit * unit).
  - assert (He : burst / unit * unit == burst) by (field; lra). rewrite He. lra.
  - apply Qmult_le_compat_r; lra.
Qed.

(** C8. For every [burst_time > 0] and [chunk_unit > 0] the chunking loop
    returns (with enough fuel, and then the same list with any more): the
    list is not empty, its elements are all [> 0], every element but the
    last is [chunk_unit] itself and the last is the remainder left after
    them, and the elements sum to [burst_time] (exactly, so also within
    [1e-6]). *)
Theorem break_into_chunks_contract (unit burst : Q) :
  0 < burst -> 0 < unit ->
  exists (fuel : nat) (chunks : list Q),
    (forall fuel' : nat, (fuel <= fuel')%nat ->
       break_into_chunks fuel' unit burst = Ok chunks)
    /\ chunks <> []
    /\ Forall (fun c => 0 < c) chunks
    /\ (exists (k : nat) (last : Q),
          chunks = repeat unit k ++ [last]
          /\ last == burst - inject_Z (Z.of_nat k) * unit
          /\ last <= unit)
    /\ sumQ chunks == burst
    /\ Qabs (sumQ chunks - burst) < 1 # 1000000.
Proof.
  intros Hb Hu.
  set (n := Z.to_nat (Qceiling (burst / unit))).
  destruct (break_into_chunks_shape unit n Hu burst n Hb (chunk_count_bound _ _ Hu Hb))
    as (k & last & Hrun & Hlast & Hl0 & Hl1); [lia |].
  exists n, (repeat unit k ++ [last]).
  assert (Hsum : sumQ (repeat unit k ++ [last]) == burst).
  { rewrite sumQ_app, sumQ_repeat. simpl. lra. }
  split; [| split; [| split; [| split; [| split]]]].
  - intros fuel' Hf. exact (break_into_chunks_more_fuel unit n fuel' Hf _ _ Hrun).
  - destruct (repeat unit k); discriminate.
  - apply Forall_app. split.
    + clear - Hu. induction k; simpl; constructor; auto.
    + constructor; [exact Hl0 | constructor].
  - exists k, last. repeat split; [exact Hlast | exact Hl1].
  - exact Hsum.
  - assert (H0 : sumQ (repeat unit k ++ [last]) - burst == 0) by lra.
    rewrite H0. reflexivity.
Qed.

Lemma break_into_chunks_contract_witness :
  exists (fuel : nat) (chunks : list Q),
    (forall fuel' : nat, (fuel <= fuel')%nat ->
       break_into_chunks fuel' 1 (5 # 2) = Ok chunks)
    /\ chunks <> []
    /\ Forall (fun c => 0 < c) chunks
    /\ (exists (k : nat) (last : Q),
          chunks = repeat 1 k ++ [last]
          /\ last == (5 # 2) - inject_Z (Z.of_nat k) * 1
          /\ last <= 1)
    /\ sumQ chunks == 5 # 2
    /\ Qabs (sumQ chunks - (5 # 2)) < 1 # 1000000.
Proof.
  apply (break_into_chunks_contract 1 (5 # 2)); reflexivity.
Defined.

(** The loop never ends on a positive remaining time when the unit is not
    positive: the remaining time does not decrease. *)
Lemma break_into_chunks_never_ends (unit : Q) (fuel : nat) :
  unit <= 0 ->
  forall remaining : Q, 0 < remaining ->
    break_into_chunks fuel unit remaining = OutOfFuel.
Proof.
  intros Hu. induction fuel as [| fuel IH]; intros remaining Hpos; simpl;
    pose proof Hpos as Hb; apply Qlt_bool_iff in Hb; rewrite Hb; [reflexivity |].
  destruct (py_min2_cases unit remaining) as [[Hlt _] | [_ ->]]; [lra |].
  rewrite IH by lra. reflexivity.
Qed.

Lemma break_into_chunks_not_raised (unit : Q) (fuel : nat) (remaining : Q) (e : error) :
  break_into_chunks fuel unit remaining <> Raised e.
Proof.
  revert remaining. induction fuel as [| fuel IH]; intros remaining; simpl;
    destruct (Qlt_bool 0 remaining); try discriminate.
  specialize (IH (remaining - py_min2 unit remaining)).
  destruct (break_into_chunks fuel unit _); simpl; congruence.
Qed.

Lemma traverse_out_of_fuel {A B : Type} (f : A -> outcome B) (l : list A) :
  (forall x e, f x <> Raised e) ->
  Exists (fun x => f x = OutOfFuel) l ->
  traverse f l = OutOfFuel.
Proof.
  intros Hf. induction 1 as [x l Hx | x l _ IH]; simpl.
  - rewrite Hx. reflexivity.
  - rewrite IH. destruct (f x) as [y | e |] eqn:E; simpl; [reflexivity | | reflexivity].
    exfalso. exact (Hf x e E).
Qed.

Lemma traverse_more_fuel {A B : Type} (f g : A -> outcome B) (l : list A) (ys : list B) :
  (forall x y, f x = Ok y -> g x = Ok y) ->
  traverse f l = Ok ys -> traverse g l = Ok ys.
Proof.
  intros Hfg. revert ys. induction l as [| x l IH]; intros ys; simpl; [congruence |].
  destruct (f x) as [y | |] eqn:E; simpl; try discriminate.
  rewrite (Hfg x y E). simpl.
  destruct (traverse f l) as [ys' | |]; simpl; try discriminate.
  rewrite (IH ys' eq_refl). simpl. congruence.
Qed.

Lemma traverse_Forall2 {A B : Type} (f : A -> outcome B) (l : list A) (ys : list B) :
  traverse f l = Ok ys -> Forall2 (fun x y => f x = Ok y) l ys.
Proof.
  revert ys. induction l as [| x l IH]; intros ys; simpl.
  - intros [= <-]. constructor.
  - destruct (f x) as [y | |] eqn:E; simpl; try discriminate.
    destruct (traverse f l) as [ys' | |]; simpl; try discriminate.
    intros [= <-]. constructor; [exact E | apply IH; reflexivity].
Qed.


(** C4, as stated, fails: a burst time of [0] is chunked without any
    failure (into no chunk at all), and the run goes on into the engine: the
    simulation loop runs from the initial state built on that chunk list and
    is left by [break]; only the results table then raises [KeyError]. *)
Lemma zero_burst_is_chunked_and_run :
  traverse (break_into_chunks 1 (chunk_unit zero_burst)) (burst_time zero_burst)
  = Ok [[]]
  /\ (exists s : state,
        simulation_loop zero_burst 1 (initial_state zero_burst [[]])
        = Ok (s, NoMoreEvents))
  /\ simulate zero_burst 1 = Raised KeyError.
Proof.
  split; [reflexivity |]. split; [| vm_compute; reflexivity].
  eexists. vm_compute. reflexivity.
Qed.

(** C4, amended. Nothing rejects an invalid chunking input. A burst time
    [<= 0] is chunked without failure into the empty sequence, whatever the
    chunk unit.  A chunk unit [<= 0] with a burst time [> 0] makes the
    chunking loop run for ever, so that a run with such a job never gets as
    far as the engine or any result. *)
Theorem chunking_of_invalid_input (cfg : config) (fuel : nat) :
  (forall unit burst : Q,
     burst <= 0 -> break_into_chunks fuel unit burst = Ok [])
  /\ (forall unit burst : Q,
        unit <= 0 -> 0 < burst -> break_into_chunks fuel unit burst = OutOfFuel)
  /\ (chunk_unit cfg <= 0 ->
      Exists (fun p => 0 < p_burst_time p) (processes cfg) ->
      simulate cfg fuel = OutOfFuel).
Proof.
  split; [| split].
  - intros unit burst H. apply break_into_chunks_done. exact H.
  - intros unit burst Hu Hb. apply break_into_chunks_never_ends; assumption.
  - intros Hu Hex. unfold simulate.
    rewrite traverse_out_of_fuel; [reflexivity | |].
    + intros x e. apply break_into_chunks_not_raised.
    + unfold burst_time. apply Exists_fmap. 
      eapply Exists_impl; [exact Hex |]. intros p Hp. simpl.
      apply break_into_chunks_never_ends; assumption.
Qed.


Lemma chunking_of_invalid_input_witness :
  break_into_chunks 5 1 0 = Ok []
  /\ break_into_chunks 5 (-1) 3 = OutOfFuel
  /\ simulate negative_unit 5 = OutOfFuel.
Proof.
  destruct (chunking_of_invalid_input negative_unit 5) as (H1 & H2 & H3).
  split; [| split].
  - apply H1. discriminate.
  - apply H2; [discriminate | reflexivity].
  - apply H3; [discriminate |]. constructor. reflexivity.
Defined.

(** ** The pieces of an iteration, field by field *)

Section EngineFacts.

Variable cfg : config.

Lemma assign_inv (cpu job : nat) (s s' : state) :
  assign cpu job s = Ok s' ->
  exists (chunk_size : Q) (rest : list Q),
    job_chunks s !!! job = chunk_size :: rest
    /\ s' =
       {| remaining_time :=
            <[job := remaining_time s !!! job - chunk_size]> (remaining_time s);
          start_time :=
            match start_time s !! job with
            | None => <[job := current_time s]> (start_time s)
            | Some _ => start_time s
            end;
          end_time :=
            if Qlt_bool (Qabs (remaining_time s !!! job - chunk_size)) tolerance
            then <[job := current_time s + chunk_size]> (end_time s)
            else end_time s;
          job_chunks := <[job := rest]> (job_chunks s);
          busy_until := <[cpu := current_time s + chunk_size]> (busy_until s);
          current_jobs := <[cpu := Some job]> (current_jobs s);
          busy_jobs := busy_jobs s ∪ {[job]};
          gantt_data := gantt_data s ++ [(current_time s, cpu, job, chunk_size)];
          queue_snapshots := queue_snapshots s;
          current_time := current_time s;
          jobs_completed :=
            if Qlt_bool (Qabs (remaining_time s !!! job - chunk_size)) tolerance
            then S (jobs_completed s) else jobs_completed s;
          next_scheduling_time := next_scheduling_time s |}.
Proof.
  unfold assign. destruct (job_chunks s !!! job) as [| c rest]; [discriminate |].
  intros [= <-]. exists c, rest. split; reflexivity.
Qed.

Lemma ready_after_assign (cpu job j : nat) (s s' : state) :
  assign cpu job s = Ok s' -> j <> job -> ready cfg s j -> ready cfg s' j.
Proof.
  intros Ha Hne (Hj & Hrem & Harr & Hbusy).
  destruct (assign_inv _ _ _ _ Ha) as (c & rest & _ & ->).
  unfold ready; simpl. rewrite list_lookup_total_insert_ne by congruence.
  repeat split; try assumption.
  rewrite elem_of_union, elem_of_singleton. intros [H | H]; [exact (Hbusy H) | exact (Hne H)].
Qed.

Lemma free_after_assign (cpu job c : nat) (s s' : state) :
  assign cpu job s = Ok s' -> c <> cpu -> free cfg s c -> free cfg s' c.
Proof.
  intros Ha Hne (Hc & Hbusy & Hcur).
  destruct (assign_inv _ _ _ _ Ha) as (ch & rest & _ & ->).
  unfold free; simpl. rewrite !list_lookup_total_insert_ne by congruence.
  repeat split; assumption.
Qed.

Lemma available_jobs_ready (s : state) : Forall (ready cfg s) (available_jobs cfg s).
Proof.
  apply List.Forall_forall. intros j Hj. unfold available_jobs in Hj.
  apply List.filter_In in Hj. destruct Hj as [Hin Hb].
  apply andb_true_iff in Hb. destruct Hb as [Hb Hbusy].
  apply andb_true_iff in Hb. destruct Hb as [Hrem Harr].
  apply List.in_seq in Hin. apply Qlt_bool_iff in Hrem. apply Qle_bool_iff in Harr.
  apply bool_decide_eq_true in Hbusy.
  repeat split; [lia | assumption ..].
Qed.

Lemma available_cpus_free (s : state) : Forall (free cfg s) (available_cpus cfg s).
Proof.
  apply List.Forall_forall. intros c Hc. unfold available_cpus in Hc.
  apply List.filter_In in Hc. destruct Hc as [Hin Hb].
  apply andb_true_iff in Hb. destruct Hb as [Hbusy Hcur].
  apply List.in_seq in Hin. apply Qle_bool_iff in Hbusy.
  apply bool_decide_eq_true in Hcur.
  repeat split; [lia | assumption ..].
Qed.

Lemma available_jobs_NoDup (s : state) : NoDup (available_jobs cfg s).
Proof. apply NoDup_ListNoDup, List.NoDup_filter, seq_NoDup. Qed.

Lemma available_cpus_NoDup (s : state) : NoDup (available_cpus cfg s).
Proof. apply NoDup_ListNoDup, List.NoDup_filter, seq_NoDup. Qed.

End EngineFacts.

(** ** The sort *)

Lemma insert_by_key_Permutation (key : nat -> Q * Q) (x : nat) (l : list nat) :
  insert_by_key key x l ≡ₚ x :: l.
Proof.
  induction l as [| y l IH]; simpl; [reflexivity |].
  destruct (key_lt (key y) (key x)); [| reflexivity].
  rewrite IH. apply Permutation_swap.
Qed.

Lemma py_sorted_Permutation (key : nat -> Q * Q) (l : list nat) :
  py_sorted key l ≡ₚ l.
Proof.
  induction l as [| x l IH]; simpl; [reflexivity |].
  rewrite insert_by_key_Permutation, IH. reflexivity.
Qed.

(** ** The event-time advancer *)

Lemma py_min_In (x : Q) (xs : list Q) : In (py_min x xs) (x :: xs).
Proof.
  unfold py_min. revert x. induction xs as [| y xs IH]; intros x; simpl; [auto |].
  destruct (IH (py_min2 x y)) as [H | H]; [| simpl; auto].
  rewrite <- H. unfold py_min2. destruct (Qlt_bool y x); simpl; auto.
Qed.

Lemma py_min2_le_l (a b : Q) : py_min2 a b <= a.
Proof. destruct (py_min2_cases a b) as [[H ->] | [H ->]]; lra. Qed.

Lemma py_min2_le_r (a b : Q) : py_min2 a b <= b.
Proof. destruct (py_min2_cases a b) as [[H ->] | [H ->]]; lra. Qed.

Lemma py_min_le (x : Q) (xs : list Q) : Forall (fun y => py_min x xs <= y) (x :: xs).
Proof.
  unfold py_min. revert x. induction xs as [| y xs IH]; intros x; simpl.
  - constructor; [lra | constructor].
  - specialize (IH (py_min2 x y)). inversion IH as [| ? ? H1 H2]; subst.
    constructor; [| constructor]; [| | exact H2].
    + pose proof (py_min2_le_l x y). lra.
    + pose proof (py_min2_le_r x y). lra.
Qed.

Section Iteration.

Variable cfg : config.

Lemma next_time_events_later (s : state) :
  Forall (fun t => current_time s < t) (next_time_events cfg s).
Proof.
  unfold next_time_events. rewrite !Forall_app. repeat split.
  - apply List.Forall_forall. intros t Ht. apply List.filter_In in Ht.
    apply Qlt_bool_iff. tauto.
  - apply Forall_fmap. apply List.Forall_forall. intros j Hj.
    apply List.filter_In in Hj. destruct Hj as [_ Hb].
    apply andb_true_iff in Hb. simpl. apply Qlt_bool_iff. tauto.
  - destruct (Qlt_bool (current_time s) (next_scheduling_time s)) eqn:E;
      constructor; [apply Qlt_bool_iff; exact E | constructor].
Qed.

(** What [advance] does: either time moves on to an event that is later
    than the current time, or there is no event and the loop is left. *)
Lemma advance_cases (s : state) :
  (exists t : Q,
     In t (next_time_events cfg s) /\ current_time s < t
     /\ advance cfg s = (set_current_time t s, Continue))
  \/ (next_time_events cfg s = [] /\ advance cfg s = (s, Break)).
Proof.
  unfold advance. pose proof (next_time_events_later s) as Hl.
  destruct (next_time_events cfg s) as [| t ts]; [right; auto |].
  left. exists (py_min t ts). pose proof (py_min_In t ts) as Hin.
  split; [exact Hin |]. split; [| reflexivity].
  rewrite List.Forall_forall in Hl. apply Hl. exact Hin.
Qed.

(** An invariant of the loop body is a property kept by each of its
    pieces: the release of a processor, the capture of the queue, the
    assignment of a ready job to a free processor, the setting of the next
    scheduling time, and the move to a later time. *)
Variable P : state -> Prop.

Hypothesis P_release : forall s cpu, P s -> P (release_cpu s cpu).
Hypothesis P_capture : forall s jobs,
  P s -> P (capture_queue_state cfg (current_time s) jobs s).
Hypothesis P_assign : forall s s' cpu job,
  P s -> ready cfg s job -> free cfg s cpu -> assign cpu job s = Ok s' -> P s'.
Hypothesis P_next : forall s,
  P s -> can_schedule s = true ->
  P (set_next_scheduling_time (current_time s + quantum_time cfg) s).
Hypothesis P_advance : forall s t,
  P s -> current_time s < t -> P (set_current_time t s).

Lemma release_completed_preserves (s : state) : P s -> P (release_completed cfg s).
Proof.
  unfold release_completed. generalize (cpu_names cfg). intros cpus. revert s.
  induction cpus as [| cpu cpus IH]; intros s Hs; simpl; [exact Hs |].
  apply IH, P_release, Hs.
Qed.

Lemma assign_jobs_preserves (cpus jobs : list nat) :
  forall s s' : state,
    NoDup cpus -> NoDup jobs ->
    Forall (ready cfg s) jobs -> Forall (free cfg s) cpus ->
    P s -> assign_jobs cpus jobs s = Ok s' ->
    P s' /\ current_time s' = current_time s
    /\ next_scheduling_time s' = next_scheduling_time s.
Proof.
  revert jobs. induction cpus as [| cpu cpus IH]; intros jobs s s' Hc Hj Hr Hf Hs Hrun.
  - simpl in Hrun. injection Hrun as <-. auto.
  - destruct jobs as [| job jobs]; simpl in Hrun; [injection Hrun as <-; auto |].
    destruct (assign cpu job s) as [s1 | |] eqn:Ha; simpl in Hrun; try discriminate.
    apply NoDup_cons in Hc. destruct Hc as [Hc1 Hc2].
    apply NoDup_cons in Hj. destruct Hj as [Hj1 Hj2].
    apply Forall_cons in Hr. destruct Hr as [Hr1 Hr2].
    apply Forall_cons in Hf. destruct Hf as [Hf1 Hf2].
    assert (Ht : current_time s1 = current_time s
                 /\ next_scheduling_time s1 = next_scheduling_time s).
    { destruct (assign_inv _ _ _ _ Ha) as (c & rest & _ & ->). simpl. auto. }
    destruct (IH jobs s1 s') as (H1 & H2 & H3); try assumption.
    + rewrite List.Forall_forall in *. intros j Hin.
      apply (ready_after_assign cfg cpu job j s s1 Ha); [| auto].
      intros ->. apply Hj1. apply list_elem_of_In. exact Hin.
    + rewrite List.Forall_forall in *. intros c Hin.
      apply (free_after_assign cfg cpu job c s s1 Ha); [| auto].
      intros ->. apply Hc1. apply list_elem_of_In. exact Hin.
    + eapply P_assign; eauto.
    + destruct Ht as [Ht1 Ht2]. rewrite H2, H3. auto.
Qed.

Lemma dispatch_preserves (s s' : state) : P s -> dispatch cfg s = Ok s' -> P s'.
Proof.
  intros Hs. unfold dispatch. destruct (dispatch_round cfg s) eqn:Hround;
    [| intros [= <-]; exact Hs].
  set (s1 := capture_queue_state cfg (current_time s) (available_jobs cfg s) s).
  assert (Hsame : remaining_time s1 = remaining_time s
                  /\ busy_jobs s1 = busy_jobs s /\ busy_until s1 = busy_until s
                  /\ current_jobs s1 = current_jobs s
                  /\ current_time s1 = current_time s
                  /\ next_scheduling_time s1 = next_scheduling_time s).
  { unfold s1, capture_queue_state. destruct (job_info cfg s _); simpl; auto 10. }
  destruct Hsame as (E1 & E2 & E3 & E4 & E5 & E6).
  destruct (assign_jobs _ _ s1) as [s2 | |] eqn:Hrun; simpl; try discriminate.
  intros [= <-].
  apply assign_jobs_preserves in Hrun.
  - destruct Hrun as (H1 & H2 & H3). apply P_next; [exact H1 |].
    unfold can_schedule. rewrite H2, H3, E5, E6.
    unfold dispatch_round in Hround. apply andb_true_iff in Hround.
    destruct Hround as [Hround _]. apply andb_true_iff in Hround. tauto.
  - apply available_cpus_NoDup.
  - rewrite py_sorted_Permutation. apply available_jobs_NoDup.
  - rewrite py_sorted_Permutation.
    eapply Forall_impl; [apply available_jobs_ready |].
    intros j (H1 & H2 & H3 & H4). unfold ready. rewrite E1, E2, E5. auto.
  - eapply Forall_impl; [apply available_cpus_free |].
    intros c (H1 & H2 & H3). unfold free. rewrite E3, E4, E5. auto.
  - apply P_capture. exact Hs.
Qed.

Lemma advance_preserves (s s' : state) (fl : flow) :
  P s -> advance cfg s = (s', fl) -> P s'.
Proof.
  intros Hs. destruct (advance_cases s) as [(t & _ & Hlt & ->) | [_ ->]];
    intros [= <- <-]; [apply P_advance; assumption | exact Hs].
Qed.

Lemma loop_body_preserves (s s' : state) (fl : flow) :
  P s -> loop_body cfg s = Ok (s', fl) -> P s'.
Proof.
  intros Hs. unfold loop_body.
  destruct (dispatch cfg (release_completed cfg s)) as [s1 | |] eqn:Hd; simpl;
    try discriminate.
  intros [= Ha]. eapply advance_preserves; [| exact Ha].
  eapply dispatch_preserves; [| exact Hd].
  apply release_completed_preserves. exact Hs.
Qed.

(** The invariant holds in every state of a run once it holds in the
    initial state. *)
Lemma reached_preserves :
  (forall chunks fuel,
     traverse (break_into_chunks fuel (chunk_unit cfg)) (burst_time cfg) = Ok chunks ->
     P (setup cfg chunks)) ->
  forall fl s, reached cfg fl s -> P s.
Proof.
  intros Hinit fl s. induction 1 as [fuel chunks Hc | s s' fl Hr IH Hlt Hb].
  - unfold initial_state.
    change 0 with (current_time (setup cfg chunks)) at 1.
    apply P_capture. eapply Hinit. exact Hc.
  - eapply loop_body_preserves; eauto.
Qed.

End Iteration.

(** ** Exclusive use of processors and jobs *)

Lemma holds_after_insert (s : state) (cpu c j : nat) (o : option nat) :
  <[cpu := o]> (current_jobs s) !! c = Some (Some j) ->
  (c = cpu /\ o = Some j) \/ (c <> cpu /\ holds s c j).
Proof.
  intros H. apply list_lookup_insert_Some in H.
  destruct H as [(-> & <- & _) | [Hne H]]; [left; auto | right; split; [congruence | exact H]].
Qed.

Lemma lookup_total_Some_holds (s : state) (cpu j : nat) :
  current_jobs s !!! cpu = Some j -> holds s cpu j.
Proof.
  unfold holds. rewrite list_lookup_total_alt.
  destruct (current_jobs s !! cpu) as [o |]; simpl; [congruence | discriminate].
Qed.

Lemma exclusive_release (s : state) (cpu : nat) :
  exclusive s /\ held_are_busy s ->
  exclusive (release_cpu s cpu) /\ held_are_busy (release_cpu s cpu).
Proof.
  intros [[Hex1 Hex2] Hb]. unfold release_cpu.
  destruct (Qle_bool _ _); [| split; [split |]; assumption].
  destruct (current_jobs s !!! cpu) as [job |] eqn:Hc; [| split; [split |]; assumption].
  apply lookup_total_Some_holds in Hc.
  assert (Hinv : forall c j,
            holds {| remaining_time := remaining_time s; start_time := start_time s;
                     end_time := end_time s; job_chunks := job_chunks s;
                     busy_until := busy_until s;
                     current_jobs := <[cpu := None]> (current_jobs s);
                     busy_jobs := busy_jobs s ∖ {[job]};
                     gantt_data := gantt_data s;
                     queue_snapshots := queue_snapshots s;
                     current_time := current_time s;
                     jobs_completed := jobs_completed s;
                     next_scheduling_time := next_scheduling_time s |} c j ->
            c <> cpu /\ holds s c j).
  { intros c j H. unfold holds in H. simpl in H.
    apply holds_after_insert in H.
    destruct H as [[_ H] | H]; [discriminate | exact H]. }
  split; [split |].
  - intros c1 c2 j H1 H2. apply Hinv in H1, H2. apply (Hex1 c1 c2 j); tauto.
  - intros c j1 j2 H1 H2. apply Hinv in H1, H2. apply (Hex2 c j1 j2); tauto.
  - intros c j H. apply Hinv in H. destruct H as [Hne H]. simpl.
    apply elem_of_difference. split; [apply (Hb c j H) |].
    rewrite elem_of_singleton. intros ->. apply Hne. exact (Hex1 c cpu job H Hc).
Qed.

Lemma exclusive_assign (cfg : config) (s s' : state) (cpu job : nat) :
  exclusive s /\ held_are_busy s ->
  ready cfg s job -> assign cpu job s = Ok s' ->
  exclusive s' /\ held_are_busy s'.
Proof.
  intros [[Hex1 Hex2] Hb] (_ & _ & _ & Hfree) Ha.
  destruct (assign_inv _ _ _ _ Ha) as (c0 & rest & _ & ->).
  match goal with |- exclusive ?st /\ _ =>
    assert (Hinv : forall c j, holds st c j ->
                     (c = cpu /\ j = job) \/ (c <> cpu /\ holds s c j))
  end.
  { intros c j H. unfold holds in H. simpl in H.
    apply holds_after_insert in H.
    destruct H as [[-> [= ->]] | H]; [left; auto | right; exact H]. }
  split; [split |].
  - intros c1 c2 j H1 H2. apply Hinv in H1, H2.
    destruct H1 as [[-> ->] | [Hn1 H1]], H2 as [[-> ?] | [Hn2 H2]]; subst.
    + reflexivity.
    + exfalso. apply Hfree. exact (Hb c2 job H2).
    + exfalso. apply Hfree. exact (Hb c1 job H1).
    + exact (Hex1 c1 c2 j H1 H2).
  - intros c j1 j2 H1 H2. apply Hinv in H1, H2.
    destruct H1 as [[-> ->] | [Hn1 H1]], H2 as [[? ->] | [Hn2 H2]];
      [reflexivity | contradiction | contradiction | exact (Hex2 c j1 j2 H1 H2)].
  - intros c j H. apply Hinv in H. simpl. apply elem_of_union.
    destruct H as [[-> ->] | [_ H]]; [right; apply elem_of_singleton; reflexivity |].
    left. exact (Hb c j H).
Qed.

(** C6. In every state of every run (at the head of each iteration of the
    simulation loop and when the loop is left) no job is held by two
    processors and no processor holds two jobs.  [exclusive_release] and
    [exclusive_assign] give the same for the states in between, after each
    single release and each single assignment. *)
Theorem processors_and_jobs_exclusive (cfg : config) (fl : flow) (s : state) :
  reached cfg fl s -> exclusive s.
Proof.
  intros Hr.
  apply (reached_preserves cfg (fun s => exclusive s /\ held_are_busy s)) in Hr;
    [tauto | ..].
  - intros s0 cpu. apply exclusive_release.
  - intros s0 jobs H. unfold capture_queue_state.
    destruct (job_info cfg s0 jobs); exact H.
  - intros s0 s1 cpu job H Hready _ Ha. exact (exclusive_assign cfg s0 s1 cpu job H Hready Ha).
  - intros s0 H _. exact H.
  - intros s0 t H _. exact H.
  - intros chunks fuel _.
    assert (Hno : forall c j, ~ holds (setup cfg chunks) c j).
    { intros c j H. unfold holds in H. simpl in H. rewrite list_lookup_fmap in H.
      destruct (cpu_names cfg !! c); discriminate. }
    split; [split |].
    + intros c1 c2 j H. exfalso. exact (Hno _ _ H).
    + intros c j1 j2 H. exfalso. exact (Hno _ _ H).
    + intros c j H. exfalso. exact (Hno _ _ H).
Qed.

Lemma processors_and_jobs_exclusive_witness :
  exists s : state,
    iterations scenario_A 1 (initial_state scenario_A [[1; 1; 1]]) = Ok s
    /\ holds s 0 0 /\ exclusive s.
Proof.
  destruct (loop_body scenario_A (initial_state scenario_A [[1; 1; 1]]))
    as [[s fl] | |] eqn:Hb; [| vm_compute in Hb; discriminate ..].
  exists s. split; [simpl; rewrite Hb; reflexivity |].
  split; [vm_compute in Hb; injection Hb as <- _; reflexivity |].
  apply (processors_and_jobs_exclusive scenario_A fl).
  eapply reached_iteration; [| | exact Hb].
  - apply (reached_initial scenario_A 3). reflexivity.
  - vm_compute. lia.
Defined.

(** ** Well-formed states *)

Lemma break_into_chunks_positive (unit : Q) (fuel : nat) :
  forall (remaining : Q) (chunks : list Q),
    break_into_chunks fuel unit remaining = Ok chunks ->
    Forall (fun c => 0 < c) chunks.
Proof.
  induction fuel as [| fuel IH]; intros remaining chunks; simpl;
    destruct (Qlt_bool 0 remaining) eqn:Hpos;
    try discriminate; try (intros [= <-]; constructor).
  apply Qlt_bool_iff in Hpos.
  destruct (break_into_chunks fuel unit _) as [l | |] eqn:E; simpl; try discriminate.
  intros [= <-]. constructor; [| exact (IH _ _ E)].
  destruct (py_min2_cases unit remaining) as [[_ Hm] | [Hle Hm]];
    rewrite Hm in *; [exact Hpos |].
  destruct (Qlt_le_dec 0 unit) as [Hu | Hu]; [exact Hu |].
  destruct (Qlt_le_dec 0 (remaining - unit)) as [Hr | Hr].
  - rewrite (break_into_chunks_never_ends unit fuel Hu _ Hr) in E. discriminate.
  - lra.
Qed.

Lemma chunks_positive (cfg : config) (fuel : nat) (chunks : list (list Q)) :
  traverse (break_into_chunks fuel (chunk_unit cfg)) (burst_time cfg) = Ok chunks ->
  Forall (Forall (fun c => 0 < c)) chunks.
Proof.
  intros H. apply traverse_Forall2 in H.
  induction H as [| b l bs ls Hb _ IH]; constructor; [| exact IH].
  exact (break_into_chunks_positive _ _ _ _ Hb).
Qed.

Lemma Forall_tail_of_lookup (P : Q -> Prop) (ll : list (list Q)) (j : nat)
    (c : Q) (rest : list Q) :
  Forall (Forall P) ll -> ll !!! j = c :: rest -> P c /\ Forall P rest.
Proof.
  intros Hall Hj. rewrite list_lookup_total_alt in Hj.
  destruct (ll !! j) as [l |] eqn:E; simpl in Hj; [| discriminate]. subst l.
  pose proof (Forall_lookup_1 _ _ _ _ Hall E) as H.
  apply Forall_cons in H. exact H.
Qed.

Lemma well_formed_reached (cfg : config) (fl : flow) (s : state) :
  reached cfg fl s -> well_formed cfg s.
Proof.
  apply (reached_preserves cfg (well_formed cfg)).
  - intros s0 cpu H. unfold release_cpu.
    destruct (Qle_bool _ _); [| exact H].
    destruct (current_jobs s0 !!! cpu); [| exact H].
    destruct H as (H1 & H2 & H3). unfold well_formed; simpl.
    rewrite length_insert. auto.
  - intros s0 jobs H. unfold capture_queue_state.
    destruct (job_info cfg s0 jobs); exact H.
  - intros s0 s1 cpu job (H1 & H2 & H3) _ _ Ha.
    destruct (assign_inv _ _ _ _ Ha) as (c & rest & Hc & ->).
    unfold well_formed; simpl. rewrite !length_insert.
    split; [exact H1 |]. split; [exact H2 |].
    apply Forall_insert; [exact H3 |].
    exact (proj2 (Forall_tail_of_lookup _ _ _ _ _ H3 Hc)).
  - intros s0 H _. exact H.
  - intros s0 t H _. exact H.
  - intros chunks fuel Hc. unfold well_formed; simpl.
    rewrite !length_fmap. unfold cpu_names. rewrite length_seq.
    split; [reflexivity |]. split; [reflexivity |].
    exact (chunks_positive cfg fuel chunks Hc).
Qed.

(** ** The releases change the processor tables only *)

Lemma release_cpu_fields (s : state) (cpu : nat) :
  remaining_time (release_cpu s cpu) = remaining_time s
  /\ start_time (release_cpu s cpu) = start_time s
  /\ end_time (release_cpu s cpu) = end_time s
  /\ job_chunks (release_cpu s cpu) = job_chunks s
  /\ busy_until (release_cpu s cpu) = busy_until s
  /\ gantt_data (release_cpu s cpu) = gantt_data s
  /\ queue_snapshots (release_cpu s cpu) = queue_snapshots s
  /\ current_time (release_cpu s cpu) = current_time s
  /\ jobs_completed (release_cpu s cpu) = jobs_completed s
  /\ next_scheduling_time (release_cpu s cpu) = next_scheduling_time s.
Proof.
  unfold release_cpu. destruct (Qle_bool _ _); [| auto 12].
  destruct (current_jobs s !!! cpu); simpl; auto 12.
Qed.

Lemma release_completed_fields (cfg : config) (s : state) :
  remaining_time (release_completed cfg s) = remaining_time s
  /\ start_time (release_completed cfg s) = start_time s
  /\ end_time (release_completed cfg s) = end_time s
  /\ job_chunks (release_completed cfg s) = job_chunks s
  /\ busy_until (release_completed cfg s) = busy_until s
  /\ gantt_data (release_completed cfg s) = gantt_data s
  /\ queue_snapshots (release_completed cfg s) = queue_snapshots s
  /\ current_time (release_completed cfg s) = current_time s
  /\ jobs_completed (release_completed cfg s) = jobs_completed s
  /\ next_scheduling_time (release_completed cfg s) = next_scheduling_time s.
Proof.
  apply (release_completed_preserves cfg
           (fun s' => remaining_time s' = remaining_time s
                      /\ start_time s' = start_time s
                      /\ end_time s' = end_time s
                      /\ job_chunks s' = job_chunks s
                      /\ busy_until s' = busy_until s
                      /\ gantt_data s' = gantt_data s
                      /\ queue_snapshots s' = queue_snapshots s
                      /\ current_time s' = current_time s
                      /\ jobs_completed s' = jobs_completed s
                      /\ next_scheduling_time s' = next_scheduling_time s));
    [| auto 12].
  intros s0 cpu (H1 & H2 & H3 & H4 & H5 & H6 & H7 & H8 & H9 & H10).
  destruct (release_cpu_fields s0 cpu)
    as (E1 & E2 & E3 & E4 & E5 & E6 & E7 & E8 & E9 & E10).
  rewrite E1, E2, E3, E4, E5, E6, E7, E8, E9, E10. auto 12.
Qed.


(** ** The last assignment of a dispatch round *)


Lemma capture_queue_state_fields (cfg : config) (t : Q) (jobs : list nat) (s : state) :
  remaining_time (capture_queue_state cfg t jobs s) = remaining_time s
  /\ start_time (capture_queue_state cfg t jobs s) = start_time s
  /\ end_time (capture_queue_state cfg t jobs s) = end_time s
  /\ job_chunks (capture_queue_state cfg t jobs s) = job_chunks s
  /\ busy_until (capture_queue_state cfg t jobs s) = busy_until s
  /\ current_jobs (capture_queue_state cfg t jobs s) = current_jobs s
  /\ busy_jobs (capture_queue_state cfg t jobs s) = busy_jobs s
  /\ gantt_data (capture_queue_state cfg t jobs s) = gantt_data s
  /\ current_time (capture_queue_state cfg t jobs s) = current_time s
  /\ jobs_completed (capture_queue_state cfg t jobs s) = jobs_completed s
  /\ next_scheduling_time (capture_queue_state cfg t jobs s) = next_scheduling_time s.
Proof.
  unfold capture_queue_state. destruct (job_info cfg s jobs); simpl; auto 12.
Qed.

Lemma well_formed_capture (cfg : config) (t : Q) (jobs : list nat) (s : state) :
  well_formed cfg s -> well_formed cfg (capture_queue_state cfg t jobs s).
Proof.
  unfold capture_queue_state. destruct (job_info cfg s jobs); auto.
Qed.

Lemma well_formed_assign (cfg : config) (s s' : state) (cpu job : nat) :
  well_formed cfg s -> assign cpu job s = Ok s' -> well_formed cfg s'.
Proof.
  intros (H1 & H2 & H3) Ha.
  destruct (assign_inv _ _ _ _ Ha) as (c & rest & Hc & ->).
  unfold well_formed; simpl. rewrite !length_insert.
  split; [exact H1 |]. split; [exact H2 |].
  apply Forall_insert; [exact H3 |].
  exact (proj2 (Forall_tail_of_lookup _ _ _ _ _ H3 Hc)).
Qed.

(** What a dispatch round is made of. *)
Lemma dispatch_round_inv (cfg : config) (s s' : state) :
  dispatch_round cfg s = true -> dispatch cfg s = Ok s' ->
  can_schedule s = true
  /\ available_cpus cfg s <> [] /\ available_jobs cfg s <> []
  /\ exists s2 : state,
       assign_jobs (available_cpus cfg s)
         (py_sorted
            (strf_key cfg
               (capture_queue_state cfg (current_time s) (available_jobs cfg s) s))
            (available_jobs cfg s))
         (capture_queue_state cfg (current_time s) (available_jobs cfg s) s)
       = Ok s2
       /\ s' = set_next_scheduling_time (current_time s2 + quantum_time cfg) s2.
Proof.
  intros Hround. unfold dispatch. rewrite Hround.
  unfold dispatch_round in Hround.
  apply andb_true_iff in Hround. destruct Hround as [Hround Hj].
  apply andb_true_iff in Hround. destruct Hround as [Hs Hc].
  apply negb_true_iff, bool_decide_eq_false in Hj, Hc.
  destruct (assign_jobs _ _ _) as [s2 | |]; simpl; try discriminate.
  intros [= <-]. repeat split; try assumption. exists s2. auto.
Qed.


(** ** Leaving the loop by [break] *)

Lemma well_formed_release_completed (cfg : config) (s : state) :
  well_formed cfg s -> well_formed cfg (release_completed cfg s).
Proof.
  apply (release_completed_preserves cfg (well_formed cfg)).
  intros s0 cpu H. unfold release_cpu.
  destruct (Qle_bool _ _); [| exact H].
  destruct (current_jobs s0 !!! cpu); [| exact H].
  destruct H as (H1 & H2 & H3). unfold well_formed; simpl.
  rewrite length_insert. auto.
Qed.






(** The states that the simulation loop goes through are those of
    [reached]. *)
Lemma simulation_loop_reached (cfg : config) (fuel : nat) :
  forall (s s' : state) (e : loop_exit),
    reached cfg Continue s ->
    simulation_loop cfg fuel s = Ok (s', e) ->
    match e with
    | AllCompleted =>
        reached cfg Continue s' /\ (length (processes cfg) <= jobs_completed s')%nat
    | NoMoreEvents =>
        exists s0 : state,
          reached cfg Continue s0
          /\ (jobs_completed s0 < length (processes cfg))%nat
          /\ loop_body cfg s0 = Ok (s', Break)
    end.
Proof.
  induction fuel as [| fuel IH]; intros s s' e Hr; simpl;
    destruct (jobs_completed s <? length (processes cfg))%nat eqn:Hlt;
    try discriminate;
    try (intros [= <- <-]; apply Nat.ltb_ge in Hlt; auto).
  apply Nat.ltb_lt in Hlt.
  destruct (loop_body cfg s) as [[s1 [|]] | |] eqn:Hb; simpl; try discriminate.
  - apply IH. eapply reached_iteration; eauto.
  - intros [= <- <-]. exists s. auto.
Qed.



(** ** More fuel does not change a result *)

Lemma simulation_loop_more_fuel (cfg : config) (fuel fuel' : nat) :
  (fuel <= fuel')%nat ->
  forall (s : state) (r : state * loop_exit),
    simulation_loop cfg fuel s = Ok r -> simulation_loop cfg fuel' s = Ok r.
Proof.
  revert fuel'. induction fuel as [| fuel IH]; intros fuel' Hle s r.
  - destruct fuel'; simpl; destruct (_ <? _)%nat; congruence.
  - destruct fuel' as [| fuel']; [lia |]. simpl.
    destruct (_ <? _)%nat; [| congruence].
    destruct (loop_body cfg s) as [[s1 [|]] | |]; simpl; try congruence.
    apply IH. lia.
Qed.

Lemma simulate_more_fuel (cfg : config) (fuel fuel' : nat) (o : output) :
  (fuel <= fuel')%nat -> simulate cfg fuel = Ok o -> simulate cfg fuel' = Ok o.
Proof.
  intros Hle. unfold simulate.
  destruct (traverse (break_into_chunks fuel _) _) as [chunks | |] eqn:Hc; simpl;
    try discriminate.
  rewrite (traverse_more_fuel _ (break_into_chunks fuel' (chunk_unit cfg)) _ _
             (fun x y => break_into_chunks_more_fuel _ fuel fuel' Hle x y) Hc). simpl.
  destruct (simulation_loop cfg fuel _) as [r | |] eqn:Hl; simpl; try discriminate.
  rewrite (simulation_loop_more_fuel cfg fuel fuel' Hle _ _ Hl). simpl. auto.
Qed.

(** C5. Scenario A (one processor; one job with arrival 0 and burst 3;
    chunk unit 1, quantum 1): the run ends, with exactly three execution
    records, of duration 1 each, starting at times 0, 1 and 2, and the job's
    turnaround time is 3. *)
Theorem scenario_A_timeline (fuel : nat) :
  (3 <= fuel)%nat ->
  exists o : output,
    simulate scenario_A fuel = Ok o
    /\ o_gantt_data o = [(0, 0%nat, 0%nat, 1); (1, 0%nat, 0%nat, 1); (2, 0%nat, 0%nat, 1)]
    /\ r_turnaround_time <$> o_results o = [3]
    /\ o_avg_turnaround o = 3.
Proof.
  intros Hfuel.
  destruct (simulate scenario_A 3) as [o | |] eqn:Hrun;
    [| vm_compute in Hrun; discriminate ..].
  exists o. split; [exact (simulate_more_fuel scenario_A 3 fuel o Hfuel Hrun) |].
  vm_compute in Hrun. injection Hrun as <-. repeat split.
Qed.

Lemma scenario_A_timeline_witness :
  exists o : output,
    simulate scenario_A 5 = Ok o
    /\ o_gantt_data o = [(0, 0%nat, 0%nat, 1); (1, 0%nat, 0%nat, 1); (2, 0%nat, 0%nat, 1)]
    /\ r_turnaround_time <$> o_results o = [3]
    /\ o_avg_turnaround o = 3.
Proof.
  apply (scenario_A_timeline 5). lia.
Defined.

(** ** The quantum gate *)

Lemma loop_body_inv (cfg : config) (s s' : state) (fl : flow) :
  loop_body cfg s = Ok (s', fl) ->
  exists s1 : state,
    dispatch cfg (release_completed cfg s) = Ok s1 /\ advance cfg s1 = (s', fl).
Proof.
  unfold loop_body.
  destruct (dispatch cfg (release_completed cfg s)) as [s1 | |]; simpl;
    try discriminate.
  intros [= H]. exists s1. auto.
Qed.

Lemma advance_fields (cfg : config) (s s' : state) (fl : flow) :
  advance cfg s = (s', fl) ->
  remaining_time s' = remaining_time s
  /\ start_time s' = start_time s
  /\ end_time s' = end_time s
  /\ job_chunks s' = job_chunks s
  /\ busy_until s' = busy_until s
  /\ current_jobs s' = current_jobs s
  /\ busy_jobs s' = busy_jobs s
  /\ gantt_data s' = gantt_data s
  /\ queue_snapshots s' = queue_snapshots s
  /\ jobs_completed s' = jobs_completed s
  /\ next_scheduling_time s' = next_scheduling_time s
  /\ current_time s <= current_time s'.
Proof.
  destruct (advance_cases cfg s) as [(t & _ & Hlt & ->) | [_ ->]];
    intros [= <- <-]; simpl; repeat split; lra.
Qed.


Lemma assign_jobs_fields (cpus jobs : list nat) (s s' : state) :
  assign_jobs cpus jobs s = Ok s' ->
  current_time s' = current_time s
  /\ next_scheduling_time s' = next_scheduling_time s
  /\ queue_snapshots s' = queue_snapshots s.
Proof.
  revert jobs s. induction cpus as [| cpu cpus IH]; intros jobs s Hrun; simpl in Hrun.
  - injection Hrun as <-. auto.
  - destruct jobs as [| job jobs]; [injection Hrun as <-; auto |].
    destruct (assign cpu job s) as [s1 | |] eqn:Ha; simpl in Hrun; try discriminate.
    destruct (IH jobs s1 Hrun) as (E1 & E2 & E3). rewrite E1, E2, E3.
    destruct (assign_inv _ _ _ _ Ha) as (c & rest & _ & ->). auto.
Qed.






(** ** Dispatch on arrival *)

(** C1, as stated, fails. In [late_arrival] the second job arrives at
    time 5; the only earlier dispatch round was at time 0, so more than the
    quantum 2 has elapsed, and the processor has been idle since time 1.
    The job is dispatched at time 5, the instant of its arrival. *)
Lemma late_arrival_dispatched_on_arrival :
  exists o : output,
    simulate late_arrival 5 = Ok o
    /\ o_gantt_data o = [(0, 0%nat, 0%nat, 1); (5, 0%nat, 1%nat, 1)]
    /\ arrival_time late_arrival !!! 1%nat = 5
    /\ 0 + quantum_time late_arrival < 5
    /\ 0 + 1 < 5.
Proof.
  eexists. split; [vm_compute; reflexivity |]. repeat split.
Qed.

Lemma assign_jobs_gantt (cpus jobs : list nat) (s s' : state) :
  assign_jobs cpus jobs s = Ok s' ->
  exists new : list (Q * nat * nat * Q),
    gantt_data s' = gantt_data s ++ new
    /\ Forall (fun r => record_start r = current_time s) new
    /\ (cpus <> [] -> jobs <> [] -> new <> []).
Proof.
  revert jobs s. induction cpus as [| cpu cpus IH]; intros jobs s Hrun; simpl in Hrun.
  - injection Hrun as <-. exists []. rewrite app_nil_r. repeat split; [constructor | congruence].
  - destruct jobs as [| job jobs].
    { injection Hrun as <-. exists []. rewrite app_nil_r.
      repeat split; [constructor | congruence]. }
    destruct (assign cpu job s) as [s1 | |] eqn:Ha; simpl in Hrun; try discriminate.
    destruct (IH jobs s1 Hrun) as (new & E & Hall & _).
    destruct (assign_inv _ _ _ _ Ha) as (c & rest & _ & ->). simpl in *.
    exists ((current_time s, cpu, job, c) :: new). rewrite E, <- app_assoc.
    repeat split; [constructor; [reflexivity | exact Hall] | discriminate].
Qed.

(** C1, amended. What decides whether a job that arrives while a processor
    is idle is dispatched at once is the gate
    [current_time >= next_scheduling_time] alone.  When less than a quantum
    has elapsed since the last dispatch round (the current time is before
    the next scheduling time), the iteration dispatches nothing, whatever
    processors are free and jobs ready, and time moves on, to the next
    scheduling time at the latest.  When a quantum or more has elapsed and
    there are a free processor and a ready job, a dispatch round takes place
    at that very instant. *)
Theorem quantum_gate (cfg : config) (s s' : state) (fl : flow) :
  loop_body cfg s = Ok (s', fl) ->
  (current_time s < next_scheduling_time s ->
   gantt_data s' = gantt_data s
   /\ next_scheduling_time s' = next_scheduling_time s
   /\ fl = Continue
   /\ current_time s < current_time s' <= next_scheduling_time s)
  /\ (next_scheduling_time s <= current_time s ->
      available_cpus cfg (release_completed cfg s) <> [] ->
      available_jobs cfg (release_completed cfg s) <> [] ->
      exists new : list (Q * nat * nat * Q),
        new <> []
        /\ gantt_data s' = gantt_data s ++ new
        /\ Forall (fun r => record_start r = current_time s) new).
Proof.
  intros Hb. destruct (loop_body_inv cfg s s' fl Hb) as (s1 & Hd & Ha).
  destruct (release_completed_fields cfg s)
    as (_ & _ & _ & _ & _ & E6 & _ & E8 & _ & E10).
  set (r := release_completed cfg s) in *.
  split.
  - intros Hlt.
    assert (Hround : dispatch_round cfg r = false).
    { unfold dispatch_round, can_schedule. rewrite E8, E10.
      replace (Qle_bool (next_scheduling_time s) (current_time s)) with false;
        [reflexivity |].
      symmetry. apply Qlt_bool_iff in Hlt. unfold Qlt_bool in Hlt.
      apply negb_true_iff in Hlt. exact Hlt. }
    unfold dispatch in Hd. rewrite Hround in Hd. injection Hd as <-.
    assert (Hev : In (next_scheduling_time r) (next_time_events cfg r)).
    { unfold next_time_events. rewrite !in_app_iff. right. right.
      rewrite E8, E10. apply Qlt_bool_iff in Hlt. rewrite Hlt. left. reflexivity. }
    unfold advance in Ha.
    destruct (next_time_events cfg r) as [| t ts] eqn:Hevents; [destruct Hev |].
    injection Ha as <- <-. simpl. rewrite E6, E10.
    split; [reflexivity |]. split; [reflexivity |]. split; [reflexivity |].
    pose proof (py_min_le t ts) as Hmin. rewrite List.Forall_forall in Hmin.
    specialize (Hmin _ Hev). rewrite E10 in Hmin.
    pose proof (next_time_events_later cfg r) as Hlater. rewrite Hevents in Hlater.
    rewrite List.Forall_forall in Hlater.
    specialize (Hlater _ (py_min_In t ts)). rewrite E8 in Hlater. lra.
  - intros Hle Hc Hj.
    assert (Hround : dispatch_round cfg r = true).
    { unfold dispatch_round, can_schedule. rewrite E8, E10.
      apply Qle_bool_iff in Hle. rewrite Hle. simpl.
      rewrite !bool_decide_eq_false_2 by assumption. reflexivity. }
    destruct (dispatch_round_inv cfg r s1 Hround Hd) as (_ & _ & _ & s2 & Hrun & ->).
    destruct (assign_jobs_gantt _ _ _ _ Hrun) as (new & E & Hall & Hne).
    destruct (capture_queue_state_fields cfg (current_time r) (available_jobs cfg r) r)
      as (_ & _ & _ & _ & _ & _ & _ & G8 & G9 & _ & _).
    rewrite G8, E6 in E. rewrite G9, E8 in Hall.
    destruct (advance_fields cfg _ s' fl Ha)
      as (_ & _ & _ & _ & _ & _ & _ & A8 & _).
    exists new. split; [| split; [| exact Hall]].
    + apply Hne; [exact Hc |]. intros Hnil. apply Hj. apply Permutation_nil.
      rewrite <- Hnil. apply py_sorted_Permutation.
    + rewrite A8. simpl. exact E.
Qed.

(** In [early_arrival], at time 3/2: the second job has just arrived, the
    processor is free, and the next scheduling time is 2.  Nothing is
    dispatched, and the job is dispatched at time 2. *)
Lemma quantum_gate_witness :
  exists s s' : state,
    iterations early_arrival 2 (initial_state early_arrival [[1]; [1]]) = Ok s
    /\ current_time s = 3 # 2
    /\ arrival_time early_arrival !!! 1%nat = 3 # 2
    /\ available_cpus early_arrival (release_completed early_arrival s) = [0%nat]
    /\ available_jobs early_arrival (release_completed early_arrival s) = [1%nat]
    /\ loop_body early_arrival s = Ok (s', Continue)
    /\ gantt_data s' = gantt_data s
    /\ current_time s < current_time s' <= next_scheduling_time s.
Proof.
  destruct (iterations early_arrival 2 (initial_state early_arrival [[1]; [1]]))
    as [s | |] eqn:Hs; [| vm_compute in Hs; discriminate ..].
  destruct (loop_body early_arrival s) as [[s' fl] | |] eqn:Hb;
    [| vm_compute in Hs; injection Hs as <-; vm_compute in Hb; discriminate ..].
  exists s, s'.
  destruct (quantum_gate early_arrival s s' fl Hb) as [Hgate _].
  destruct Hgate as (H1 & H2 & -> & H4).
  { vm_compute in Hs. injection Hs as <-. reflexivity. }
  split; [reflexivity |].
  split; [vm_compute in Hs; injection Hs as <-; reflexivity |].
  split; [reflexivity |].
  split; [vm_compute in Hs; injection Hs as <-; vm_compute; reflexivity |].
  split; [vm_compute in Hs; injection Hs as <-; vm_compute; reflexivity |].
  split; [exact Hb |]. split; [exact H1 | exact H4].
Defined.

(** ** The sort puts the keys in ascending order *)

Lemma key_lt_true (k1 k2 : Q * Q) :
  key_lt k1 k2 = true <-> fst k1 < fst k2 \/ (fst k1 == fst k2 /\ snd k1 < snd k2).
Proof.
  unfold key_lt. destruct (Qeq_bool (fst k1) (fst k2)) eqn:E.
  - apply Qeq_bool_iff in E. rewrite Qlt_bool_iff. split; [auto |].
    intros [H | [_ H]]; [lra | exact H].
  - apply Qeq_bool_neq in E. rewrite Qlt_bool_iff. split; [auto |].
    intros [H | [H _]]; [exact H | contradiction].
Qed.

Lemma key_lt_false (k1 k2 : Q * Q) : key_lt k1 k2 = false <-> key_le k2 k1.
Proof.
  unfold key_le. rewrite <- not_true_iff_false, key_lt_true. split.
  - intros H. destruct (Q_dec (fst k1) (fst k2)) as [[Hlt | Hgt] | Heq].
    + exfalso. auto.
    + left. exact Hgt.
    + right. split; [lra |]. destruct (Qlt_le_dec (snd k1) (snd k2)); [| assumption].
      exfalso. auto.
  - intros [H | [H1 H2]] [H' | [H1' H2']]; lra.
Qed.

Lemma key_le_trans (k1 k2 k3 : Q * Q) : key_le k1 k2 -> key_le k2 k3 -> key_le k1 k3.
Proof.
  unfold key_le. intros [H | [H1 H2]] [H' | [H1' H2']]; [left; lra .. |].
  right. split; lra.
Qed.

Lemma insert_by_key_ascending (key : nat -> Q * Q) (x : nat) (l : list nat) :
  ascending key l -> ascending key (insert_by_key key x l).
Proof.
  unfold ascending. induction 1 as [| y l Hs IH Hall]; simpl.
  - constructor; constructor.
  - destruct (key_lt (key y) (key x)) eqn:E.
    + constructor; [exact IH |].
      rewrite insert_by_key_Permutation. constructor; [| exact Hall].
      apply key_lt_true in E. unfold key_le. destruct E as [E | [E1 E2]]; [auto |].
      right. split; [exact E1 | lra].
    + apply key_lt_false in E. constructor; [constructor; assumption |].
      constructor; [exact E |].
      eapply Forall_impl; [exact Hall |]. intros z Hz. simpl in Hz.
      exact (key_le_trans _ _ _ E Hz).
Qed.

Lemma py_sorted_ascending (key : nat -> Q * Q) (l : list nat) :
  ascending key (py_sorted key l).
Proof.
  induction l as [| x l IH]; simpl; [constructor |].
  apply insert_by_key_ascending. exact IH.
Qed.

(** ** Queue snapshots *)

Lemma job_info_ext (cfg : config) (s s' : state) (jobs : list nat) :
  remaining_time s = remaining_time s' -> job_info cfg s jobs = job_info cfg s' jobs.
Proof.
  intros E. unfold job_info, strf_key. rewrite E. reflexivity.
Qed.

Lemma job_info_jobs (cfg : config) (s : state) (jobs : list nat) :
  fst <$> job_info cfg s jobs
  = py_sorted (strf_key cfg s)
      (List.filter (fun j => Qlt_bool 0 (remaining_time s !!! j)) jobs).
Proof.
  unfold job_info. rewrite <- list_fmap_compose.
  rewrite <- (list_fmap_id (py_sorted _ _)) at 2. reflexivity.
Qed.

Lemma job_info_ascending (cfg : config) (s : state) (jobs : list nat) :
  ascending (strf_key cfg s) (fst <$> job_info cfg s jobs).
Proof. rewrite job_info_jobs. apply py_sorted_ascending. Qed.


Lemma job_info_nonempty (cfg : config) (s : state) :
  available_jobs cfg s <> [] -> job_info cfg s (available_jobs cfg s) <> [].
Proof.
  intros Hne Hnil. apply Hne.
  assert (H : fst <$> job_info cfg s (available_jobs cfg s) = []) by (rewrite Hnil; reflexivity).
  rewrite job_info_jobs in H.
  assert (Hf : List.filter (fun j => Qlt_bool 0 (remaining_time s !!! j))
                 (available_jobs cfg s) = available_jobs cfg s).
  { apply List.forallb_filter_id. apply List.forallb_forall. intros j Hj.
    pose proof (available_jobs_ready cfg s) as Hr. rewrite List.Forall_forall in Hr.
    destruct (Hr j Hj) as (_ & Hpos & _). apply Qlt_bool_iff. exact Hpos. }
  rewrite Hf in H. apply Permutation_nil. rewrite <- H. apply py_sorted_Permutation.
Qed.

Lemma capture_queue_state_snapshots (cfg : config) (t : Q) (jobs : list nat) (s : state) :
  queue_snapshots (capture_queue_state cfg t jobs s)
  = queue_snapshots s
    ++ match job_info cfg s jobs with
       | [] => []
       | info => [(t, info)]
       end.
Proof.
  unfold capture_queue_state. destruct (job_info cfg s jobs); simpl;
    [rewrite app_nil_r |]; reflexivity.
Qed.

(** An iteration records one snapshot if it makes a dispatch round, and
    none otherwise. *)
Lemma loop_body_snapshots (cfg : config) (s s' : state) (fl : flow) :
  loop_body cfg s = Ok (s', fl) ->
  queue_snapshots s'
  = queue_snapshots s
    ++ (if dispatch_round cfg (release_completed cfg s)
        then [(current_time s,
               job_info cfg s (available_jobs cfg (release_completed cfg s)))]
        else [])
  /\ (dispatch_round cfg (release_completed cfg s) = true ->
      job_info cfg s (available_jobs cfg (release_completed cfg s)) <> []).
Proof.
  intros Hb. destruct (loop_body_inv cfg s s' fl Hb) as (s1 & Hd & Ha).
  destruct (advance_fields cfg s1 s' fl Ha)
    as (_ & _ & _ & _ & _ & _ & _ & _ & -> & _).
  destruct (release_completed_fields cfg s)
    as (E1 & _ & _ & _ & _ & _ & E7 & E8 & _ & _).
  set (r := release_completed cfg s) in *.
  rewrite (job_info_ext cfg s r) by congruence.
  destruct (dispatch_round cfg r) eqn:Hround.
  - destruct (dispatch_round_inv cfg r s1 Hround Hd) as (_ & _ & Hj & s2 & Hrun & ->).
    pose proof (job_info_nonempty cfg r Hj) as Hne.
    split; [| intros _; exact Hne]. simpl.
    destruct (assign_jobs_fields _ _ _ _ Hrun) as (_ & _ & ->).
    rewrite capture_queue_state_snapshots, E7, E8.
    destruct (job_info cfg r (available_jobs cfg r)); [congruence | reflexivity].
  - unfold dispatch in Hd. rewrite Hround in Hd. injection Hd as <-.
    rewrite app_nil_r. split; [exact E7 | discriminate].
Qed.

Lemma initial_state_fields (cfg : config) (chunks : list (list Q)) :
  remaining_time (initial_state cfg chunks) = burst_time cfg
  /\ current_time (initial_state cfg chunks) = 0.
Proof.
  unfold initial_state.
  destruct (capture_queue_state_fields cfg 0 (initial_available_jobs cfg) (setup cfg chunks))
    as (E1 & _ & _ & _ & _ & _ & _ & _ & E9 & _ & _).
  rewrite E1, E9. auto.
Qed.

(** Every snapshot of a run was taken from the state at the head of the
    loop at some point of the run. *)
Lemma snapshot_history (cfg : config) (fl : flow) (s : state) :
  reached cfg fl s ->
  forall snap : Q * list (nat * Q),
    snap ∈ queue_snapshots s ->
    exists (s0 : state) (jobs : list nat),
      reached cfg Continue s0 /\ snap = (current_time s0, job_info cfg s0 jobs).
Proof.
  induction 1 as [fuel chunks Hc | s s' fl Hr IH Hlt Hb]; intros snap Hin.
  - unfold initial_state in Hin. rewrite capture_queue_state_snapshots in Hin.
    simpl in Hin.
    destruct (initial_state_fields cfg chunks) as [E1 E2].
    exists (initial_state cfg chunks), (initial_available_jobs cfg).
    split; [exact (reached_initial cfg fuel chunks Hc) |].
    rewrite E2, (job_info_ext cfg _ (setup cfg chunks)) by exact E1.
    destruct (job_info cfg (setup cfg chunks) (initial_available_jobs cfg));
      [inversion Hin |].
    apply list_elem_of_singleton in Hin. exact Hin.
  - destruct (loop_body_snapshots cfg s s' fl Hb) as [E _]. rewrite E in Hin.
    apply elem_of_app in Hin. destruct Hin as [Hin | Hin]; [exact (IH snap Hin) |].
    destruct (dispatch_round cfg (release_completed cfg s)); [| inversion Hin].
    apply list_elem_of_singleton in Hin.
    exists s, (available_jobs cfg (release_completed cfg s)). auto.
Qed.

(** C2, as stated, fails. In scenario A there are three dispatch rounds, at
    times 0, 1 and 2, and four snapshots: the round at time 0 has two, the
    one of the initial capture (line 63) and the one of the round itself
    (line 85). *)
Lemma scenario_A_two_snapshots_at_time_0 :
  exists o : output,
    simulate scenario_A 3 = Ok o
    /\ record_start <$> o_gantt_data o = [0; 1; 2]
    /\ o_queue_snapshots o
       = [(0, [(0%nat, round1 3)]); (0, [(0%nat, round1 3)]);
          (1, [(0%nat, round1 2)]); (2, [(0%nat, round1 1)])].
Proof.
  eexists. split; [vm_compute; reflexivity |]. split; reflexivity.
Qed.

(** C2, amended. The initial capture, before the loop, records one
    snapshot if a job with work to do has arrived by time 0.  After that,
    each iteration of the loop records exactly one snapshot if it makes a
    dispatch round, of the jobs that are ready for it (there is at least
    one), and none if it makes no round.  So a round at time 0 comes after
    the snapshot of the initial capture, and every other round has one
    snapshot.  In each snapshot of a run the jobs are in ascending order of
    [(remaining_time, arrival_time)], as these were when it was taken. *)
Theorem queue_snapshots_per_round (cfg : config) :
  (forall chunks : list (list Q),
     queue_snapshots (initial_state cfg chunks)
     = match job_info cfg (setup cfg chunks) (initial_available_jobs cfg) with
       | [] => []
       | info => [(0, info)]
       end)
  /\ (forall (s s' : state) (fl : flow),
        loop_body cfg s = Ok (s', fl) ->
        queue_snapshots s'
        = queue_snapshots s
          ++ (if dispatch_round cfg (release_completed cfg s)
              then [(current_time s,
                     job_info cfg s (available_jobs cfg (release_completed cfg s)))]
              else [])
        /\ (dispatch_round cfg (release_completed cfg s) = true ->
            job_info cfg s (available_jobs cfg (release_completed cfg s)) <> []))
  /\ (forall (fl : flow) (s : state) (t : Q) (info : list (nat * Q)),
        reached cfg fl s -> (t, info) ∈ queue_snapshots s ->
        exists s0 : state,
          reached cfg Continue s0 /\ t = current_time s0
          /\ ascending (strf_key cfg s0) (fst <$> info)).
Proof.
  split; [| split].
  - intros chunks. unfold initial_state. rewrite capture_queue_state_snapshots.
    reflexivity.
  - apply loop_body_snapshots.
  - intros fl s t info Hr Hin.
    destruct (snapshot_history cfg fl s Hr _ Hin) as (s0 & jobs & Hr0 & [= -> ->]).
    exists s0. split; [exact Hr0 |]. split; [reflexivity |].
    apply job_info_ascending.
Qed.





(** The rounded value is not the exact one: [round(0.25, 1)] is [0.2]. *)
Lemma round1_quarter : round1 (1 # 4) = 2 # 10 /\ ~ round1 (1 # 4) == 1 # 4.
Proof. split; [reflexivity | discriminate]. Qed.

(** ** Start and end times *)


(** With another job to run, the same job stays ready after its end time
    is set (its remaining time is positive): it is dispatched again, its end
    time is written a second time and counted a second time, the loop ends
    with the other job never run, and the results table raises
    [KeyError]. *)
Lemma tiny_tail_and_other_written_twice :
  exists s : state,
    simulation_loop tiny_tail_and_other 3
      (initial_state tiny_tail_and_other [[1; 1 # 2048]; [1; 1; 1]])
    = Ok (s, AllCompleted)
    /\ gantt_data s = [(0, 0%nat, 0%nat, 1); (1, 0%nat, 0%nat, 1 # 2048)]
    /\ jobs_completed s = 2%nat
    /\ size (end_time s) = 1%nat
    /\ start_time s !! 1%nat = None
    /\ simulate tiny_tail_and_other 3 = Raised KeyError.
Proof.
  eexists. split; [vm_compute; reflexivity |]. repeat split.
Qed.

Lemma times_ordered_reached (cfg : config) (fl : flow) (s : state) :
  reached cfg fl s -> times_ordered cfg s.
Proof.
  intros Hr.
  apply (reached_preserves cfg (fun s => well_formed cfg s /\ times_ordered cfg s)) in Hr;
    [tauto | ..].
  - intros s0 cpu [Hwf H]. split.
    + revert Hwf. unfold release_cpu.
      destruct (Qle_bool _ _); [| auto]. destruct (current_jobs s0 !!! cpu); [| auto].
      intros (H1 & H2 & H3). unfold well_formed; simpl. rewrite length_insert. auto.
    + unfold times_ordered.
      destruct (release_cpu_fields s0 cpu)
        as (_ & E2 & E3 & _ & _ & _ & _ & E8 & _ & _). rewrite E2, E3, E8. exact H.
  - intros s0 jobs [Hwf H]. split; [apply well_formed_capture; exact Hwf |].
    unfold times_ordered.
    destruct (capture_queue_state_fields cfg (current_time s0) jobs s0)
      as (_ & E2 & E3 & _ & _ & _ & _ & _ & E9 & _ & _). rewrite E2, E3, E9. exact H.
  - intros s0 s1 cpu job [Hwf [Hst Hen]] (_ & _ & Harr & _) _ Ha.
    split; [exact (well_formed_assign cfg s0 s1 cpu job Hwf Ha) |].
    destruct (assign_inv _ _ _ _ Ha) as (c & rest & Hc & ->).
    destruct Hwf as (_ & _ & Hpos).
    destruct (Forall_tail_of_lookup _ _ _ _ _ Hpos Hc) as [Hc0 _].
    assert (Hst' : forall j st,
              match start_time s0 !! job with
              | Some _ => start_time s0
              | None => <[job := current_time s0]> (start_time s0)
              end !! j = Some st ->
              arrival_time cfg !!! j <= st /\ st <= current_time s0).
    { intros j st. destruct (start_time s0 !! job) eqn:E; [apply Hst |].
      rewrite lookup_insert. destruct (decide (job = j)) as [<- | Hne]; [| apply Hst].
      intros [= <-]. split; [exact Harr | lra]. }
    split; simpl; [exact Hst' |].
    intros j e He.
    assert (Hjob : exists st,
              match start_time s0 !! job with
              | Some _ => start_time s0
              | None => <[job := current_time s0]> (start_time s0)
              end !! job = Some st /\ st <= current_time s0).
    { destruct (start_time s0 !! job) as [st |] eqn:E.
      - exists st. split; [exact E | apply (Hst job st E)].
      - exists (current_time s0). rewrite lookup_insert_eq. split; [reflexivity | lra]. }
    assert (Hold : forall e', end_time s0 !! j = Some e' ->
              exists st,
                match start_time s0 !! job with
                | Some _ => start_time s0
                | None => <[job := current_time s0]> (start_time s0)
                end !! j = Some st /\ st <= e').
    { intros e' He'. destruct (Hen j e' He') as (st & Hs & Hle). exists st.
      split; [| exact Hle]. destruct (start_time s0 !! job) eqn:E; [exact Hs |].
      rewrite lookup_insert_ne; [exact Hs |]. intros <-. congruence. }
    destruct (Qlt_bool _ _); [| exact (Hold e He)].
    rewrite lookup_insert in He. destruct (decide (job = j)) as [<- | Hne];
      [| exact (Hold e He)].
    injection He as <-. destruct Hjob as (st & Hs & Hle). exists st.
    split; [exact Hs | lra].
  - intros s0 [Hwf H] _. split; [exact Hwf | exact H].
  - intros s0 t [Hwf [Hst Hen]] Hlt. split; [exact Hwf |]. split; simpl; [| exact Hen].
    intros j st Hs. destruct (Hst j st Hs). split; lra.
  - intros chunks fuel Hc. split.
    + unfold well_formed; simpl. rewrite !length_fmap. unfold cpu_names.
      rewrite length_seq. repeat split. exact (chunks_positive cfg fuel chunks Hc).
    + split; simpl; intros j x H; rewrite lookup_empty in H; discriminate.
Qed.

(** ** Completion at the last chunk *)

Lemma break_into_chunks_sum (unit : Q) (fuel : nat) :
  forall (burst : Q) (chunks : list Q),
    break_into_chunks fuel unit burst = Ok chunks ->
    sumQ chunks == burst \/ (chunks = [] /\ burst <= 0).
Proof.
  induction fuel as [| fuel IH]; intros burst chunks; simpl;
    destruct (Qlt_bool 0 burst) eqn:Hpos; try discriminate;
    try (intros [= <-]; right; split; [reflexivity | apply Qlt_bool_false; exact Hpos]).
  apply Qlt_bool_iff in Hpos.
  destruct (break_into_chunks fuel unit _) as [l | |] eqn:E; simpl; try discriminate.
  intros [= <-]. left. simpl.
  destruct (IH _ _ E) as [Hsum | [-> Hle]]; [lra |]. simpl.
  destruct (py_min2_cases unit burst) as [[_ Hm] | [Hle' Hm]]; rewrite Hm in *; lra.
Qed.

Lemma traverse_length {A B : Type} (f : A -> outcome B) (l : list A) (ys : list B) :
  traverse f l = Ok ys -> length ys = length l.
Proof.
  intros H. apply traverse_Forall2 in H. symmetry. exact (Forall2_length _ _ _ H).
Qed.




Lemma last_record_of_later (j : nat) (r new : Q * nat * nat * Q)
    (gantt : list (Q * nat * nat * Q)) :
  record_job new <> j -> last_record_of j r gantt -> last_record_of j r (gantt ++ [new]).
Proof.
  intros Hne (g1 & g2 & -> & Hj & Hall). exists g1, (g2 ++ [new]).
  split; [rewrite <- app_assoc; reflexivity |]. split; [exact Hj |].
  apply Forall_app. split; [exact Hall |]. constructor; [exact Hne | constructor].
Qed.







(** * Further properties of the engine *)

(** The run of scenario B, for use in examples. *)
Lemma scenario_B_final :
  exists s : state,
    simulation_loop scenario_B 5 (initial_state scenario_B [[1; 1]; [1; 1; 1; 1]])
    = Ok (s, AllCompleted)
    /\ reached scenario_B Continue s
    /\ gantt_data s
       = [(0, 0%nat, 0%nat, 1); (0, 1%nat, 1%nat, 1);
          (1, 0%nat, 0%nat, 1); (1, 1%nat, 1%nat, 1);
          (2, 0%nat, 1%nat, 1); (3, 0%nat, 1%nat, 1)].
Proof.
  destruct (simulation_loop scenario_B 5
              (initial_state scenario_B [[1; 1]; [1; 1; 1; 1]]))
    as [[s e] | |] eqn:Hloop; [| vm_compute in Hloop; discriminate ..].
  assert (He : e = AllCompleted) by (vm_compute in Hloop; congruence). subst e.
  exists s. split; [reflexivity |].
  assert (Hc : traverse (break_into_chunks 5 (chunk_unit scenario_B))
                 (burst_time scenario_B) = Ok [[1; 1]; [1; 1; 1; 1]]) by reflexivity.
  split.
  - exact (proj1 (simulation_loop_reached scenario_B 5 _ _ _
                    (reached_initial scenario_B 5 _ Hc) Hloop)).
  - vm_compute in Hloop. injection Hloop as <-. reflexivity.
Qed.

(** ** The clock *)

Lemma dispatch_time (cfg : config) (s s' : state) :
  dispatch cfg s = Ok s' -> current_time s' = current_time s.
Proof.
  unfold dispatch. destruct (dispatch_round cfg s); [| congruence].
  destruct (assign_jobs _ _ _) as [s2 | |] eqn:Hrun; simpl; try discriminate.
  intros [= <-]. simpl.
  rewrite (proj1 (assign_jobs_fields _ _ _ _ Hrun)).
  apply (capture_queue_state_fields cfg).
Qed.

(** An iteration moves the clock to the earliest of the pending events
    (the ends of the running chunks, the arrivals of jobs with work left,
    the next scheduling time), which is later than the current time; it
    skips no event.  It leaves the clock alone only when there is no
    pending event, and then the loop is left. *)
Theorem clock_jumps_to_next_event (cfg : config) (s s' : state) (fl : flow) :
  loop_body cfg s = Ok (s', fl) ->
  exists s1 : state,
    dispatch cfg (release_completed cfg s) = Ok s1
    /\ (fl = Continue ->
        current_time s < current_time s'
        /\ In (current_time s') (next_time_events cfg s1)
        /\ Forall (fun t => current_time s' <= t) (next_time_events cfg s1))
    /\ (fl = Break -> next_time_events cfg s1 = [] /\ s' = s1).
Proof.
  intros Hb. destruct (loop_body_inv cfg s s' fl Hb) as (s1 & Hd & Ha).
  exists s1. split; [exact Hd |].
  pose proof (dispatch_time cfg _ _ Hd) as Ht.
  destruct (release_completed_fields cfg s)
    as (_ & _ & _ & _ & _ & _ & _ & E8 & _ & _). rewrite E8 in Ht.
  unfold advance in Ha. pose proof (next_time_events_later cfg s1) as Hl.
  destruct (next_time_events cfg s1) as [| t ts] eqn:He.
  - injection Ha as <- <-. split; [discriminate | auto].
  - injection Ha as <- <-. split; [| discriminate]. intros _. simpl.
    pose proof (py_min_In t ts) as Hin. split; [| split].
    + rewrite List.Forall_forall in Hl. rewrite <- Ht. apply Hl. exact Hin.
    + exact Hin.
    + apply py_min_le.
Qed.

Lemma clock_jumps_to_next_event_witness :
  exists s' s1 : state,
    loop_body early_arrival (initial_state early_arrival [[1]; [1]]) = Ok (s', Continue)
    /\ next_time_events early_arrival s1 = [1; 3 # 2; 2]
    /\ current_time s' = 1.
Proof.
  destruct (loop_body early_arrival (initial_state early_arrival [[1]; [1]]))
    as [[s' fl] | |] eqn:Hb; [| vm_compute in Hb; discriminate ..].
  destruct (clock_jumps_to_next_event early_arrival _ s' fl Hb) as (s1 & Hd & _ & _).
  exists s', s1.
  assert (fl = Continue) as -> by (vm_compute in Hb; congruence).
  split; [reflexivity |].
  split; [vm_compute in Hd; injection Hd as <-; reflexivity |].
  vm_compute in Hb. injection Hb as <-. reflexivity.
Defined.

(** ** The engine never raises *)

Lemma in_lockstep_assign (cfg : config) (s s' : state) (cpu job : nat) :
  in_lockstep cfg s -> ready cfg s job -> assign cpu job s = Ok s' ->
  in_lockstep cfg s'.
Proof.
  intros (Hl1 & Hl2 & Hlock) (Hjob & Hrem & _ & _) Ha.
  destruct (assign_inv _ _ _ _ Ha) as (c & rest & Hc & ->).
  unfold in_lockstep; simpl. rewrite !length_insert.
  split; [exact Hl1 |]. split; [exact Hl2 |]. intros j Hj.
  destruct (decide (j = job)) as [-> | Hne].
  - left. rewrite !list_lookup_total_insert_eq by lia.
    destruct (Hlock job Hjob) as [H | [H _]]; [| congruence].
    rewrite Hc in H. simpl in H. lra.
  - rewrite !list_lookup_total_insert_ne by congruence. exact (Hlock j Hj).
Qed.

Lemma in_lockstep_setup (cfg : config) (fuel : nat) (chunks : list (list Q)) :
  traverse (break_into_chunks fuel (chunk_unit cfg)) (burst_time cfg) = Ok chunks ->
  in_lockstep cfg (setup cfg chunks).
Proof.
  intros Hc. unfold in_lockstep; simpl. unfold burst_time at 1. rewrite length_fmap.
  rewrite (traverse_length _ _ _ Hc). unfold burst_time at 1. rewrite length_fmap.
  split; [reflexivity |]. split; [reflexivity |]. intros j Hj.
  apply traverse_Forall2 in Hc.
  assert (Hb : is_Some (burst_time cfg !! j)).
  { apply lookup_lt_is_Some. unfold burst_time. rewrite length_fmap. exact Hj. }
  destruct Hb as [b Hb].
  destruct (Forall2_lookup_l _ _ _ _ _ Hc Hb) as (l & Hl & Hrun).
  rewrite (list_lookup_total_correct _ _ _ Hb), (list_lookup_total_correct _ _ _ Hl).
  destruct (break_into_chunks_sum _ _ _ _ Hrun) as [H | H]; [left; lra | right; exact H].
Qed.

Lemma in_lockstep_fields (cfg : config) (s s' : state) :
  remaining_time s' = remaining_time s -> job_chunks s' = job_chunks s ->
  in_lockstep cfg s -> in_lockstep cfg s'.
Proof. intros E1 E2. unfold in_lockstep. rewrite E1, E2. auto. Qed.

Lemma in_lockstep_reached (cfg : config) (fl : flow) (s : state) :
  reached cfg fl s -> in_lockstep cfg s.
Proof.
  apply (reached_preserves cfg (in_lockstep cfg)).
  - intros s0 cpu.
    destruct (release_cpu_fields s0 cpu) as (E1 & _ & _ & E4 & _).
    apply in_lockstep_fields; assumption.
  - intros s0 jobs.
    destruct (capture_queue_state_fields cfg (current_time s0) jobs s0)
      as (E1 & _ & _ & E4 & _).
    apply in_lockstep_fields; assumption.
  - intros s0 s1 cpu job H Hready _ Ha.
    exact (in_lockstep_assign cfg s0 s1 cpu job H Hready Ha).
  - intros s0 H _. exact H.
  - intros s0 t H _. exact H.
  - intros chunks fuel Hc. exact (in_lockstep_setup cfg fuel chunks Hc).
Qed.

(** A ready job has a chunk to dispatch. *)
Lemma ready_has_chunk (cfg : config) (s : state) (job : nat) :
  well_formed cfg s -> in_lockstep cfg s -> ready cfg s job ->
  job_chunks s !!! job <> [].
Proof.
  intros _ (_ & _ & Hlock) (Hjob & Hrem & _ & _) Hnil.
  destruct (Hlock job Hjob) as [H | [_ H]]; [| lra].
  rewrite Hnil in H. simpl in H. lra.
Qed.

Lemma assign_jobs_returns (cfg : config) (cpus jobs : list nat) :
  forall s : state,
    NoDup cpus -> NoDup jobs ->
    Forall (ready cfg s) jobs -> Forall (free cfg s) cpus ->
    well_formed cfg s /\ in_lockstep cfg s ->
    exists s' : state, assign_jobs cpus jobs s = Ok s'.
Proof.
  revert jobs. induction cpus as [| cpu cpus IH]; intros jobs s Hc Hj Hr Hf Hs.
  - exists s. reflexivity.
  - destruct jobs as [| job jobs]; [exists s; reflexivity |]. simpl.
    apply NoDup_cons in Hc. destruct Hc as [Hc1 Hc2].
    apply NoDup_cons in Hj. destruct Hj as [Hj1 Hj2].
    apply Forall_cons in Hr. destruct Hr as [Hr1 Hr2].
    apply Forall_cons in Hf. destruct Hf as [Hf1 Hf2].
    destruct Hs as [Hwf Hlock].
    destruct (assign cpu job s) as [s1 | e |] eqn:Ha; simpl.
    + apply IH; try assumption.
      * rewrite List.Forall_forall in *. intros j Hin.
        apply (ready_after_assign cfg cpu job j s s1 Ha); [| auto].
        intros ->. apply Hj1. apply list_elem_of_In. exact Hin.
      * rewrite List.Forall_forall in *. intros c Hin.
        apply (free_after_assign cfg cpu job c s s1 Ha); [| auto].
        intros ->. apply Hc1. apply list_elem_of_In. exact Hin.
      * split; [exact (well_formed_assign cfg s s1 cpu job Hwf Ha) |].
        exact (in_lockstep_assign cfg s s1 cpu job Hlock Hr1 Ha).
    + exfalso. pose proof (ready_has_chunk cfg s job Hwf Hlock Hr1) as Hne.
      unfold assign in Ha. destruct (job_chunks s !!! job); [congruence | discriminate].
    + exfalso. unfold assign in Ha. destruct (job_chunks s !!! job); discriminate.
Qed.

Lemma loop_body_returns (cfg : config) (s : state) :
  reached cfg Continue s ->
  exists (s' : state) (fl : flow), loop_body cfg s = Ok (s', fl).
Proof.
  intros Hr.
  pose proof (well_formed_release_completed cfg s (well_formed_reached cfg _ _ Hr)) as Hwf.
  pose proof (in_lockstep_reached cfg _ _ Hr) as Hlock.
  destruct (release_completed_fields cfg s) as (E1 & _ & _ & E4 & _).
  apply (in_lockstep_fields cfg s (release_completed cfg s)) in Hlock;
    [| assumption ..].
  set (r := release_completed cfg s) in *.
  assert (Hd : exists s1, dispatch cfg r = Ok s1).
  { unfold dispatch. destruct (dispatch_round cfg r); [| eauto].
    set (s1 := capture_queue_state cfg (current_time r) (available_jobs cfg r) r).
    destruct (capture_queue_state_fields cfg (current_time r) (available_jobs cfg r) r)
      as (G1 & _ & _ & G4 & G5 & G6 & G7 & _ & G9 & _ & _). fold s1 in G1, G4, G5, G6, G7, G9.
    destruct (assign_jobs_returns cfg (available_cpus cfg r)
                (py_sorted (strf_key cfg s1) (available_jobs cfg r)) s1) as [s2 ->].
    - apply available_cpus_NoDup.
    - rewrite py_sorted_Permutation. apply available_jobs_NoDup.
    - rewrite py_sorted_Permutation.
      eapply Forall_impl; [apply available_jobs_ready |].
      intros j (H1 & H2 & H3 & H4). unfold ready. rewrite G1, G7, G9. auto.
    - eapply Forall_impl; [apply available_cpus_free |].
      intros c (H1 & H2 & H3). unfold free. rewrite G5, G6, G9. auto.
    - split; [apply well_formed_capture; exact Hwf |].
      apply (in_lockstep_fields cfg r s1); assumption.
    - simpl. eauto. }
  destruct Hd as [s1 Hd]. unfold loop_body. fold r. rewrite Hd. simpl.
  destruct (advance cfg s1) as [s' fl]. eauto.
Qed.

(** In every state of a run, the body of the simulation loop runs to its
    end: line 99 always finds a chunk to pop (no [IndexError]), since a job
    whose remaining time is positive has chunks left. *)
Theorem loop_body_never_raises (cfg : config) (s : state) :
  reached cfg Continue s ->
  exists (s' : state) (fl : flow), loop_body cfg s = Ok (s', fl).
Proof. apply loop_body_returns. Qed.

Lemma loop_body_never_raises_witness :
  exists (s' : state) (fl : flow),
    loop_body scenario_B (initial_state scenario_B [[1; 1]; [1; 1; 1; 1]]) = Ok (s', fl).
Proof.
  apply (loop_body_never_raises scenario_B).
  apply (reached_initial scenario_B 5). reflexivity.
Defined.

(** ** The timeline *)

Lemma break_into_chunks_le_unit (unit : Q) (fuel : nat) :
  forall (remaining : Q) (chunks : list Q),
    break_into_chunks fuel unit remaining = Ok chunks ->
    Forall (fun c => c <= unit) chunks.
Proof.
  induction fuel as [| fuel IH]; intros remaining chunks; simpl;
    destruct (Qlt_bool 0 remaining);
    try discriminate; try (intros [= <-]; constructor).
  destruct (break_into_chunks fuel unit _) as [l | |] eqn:E; simpl; try discriminate.
  intros [= <-]. constructor; [apply py_min2_le_l | exact (IH _ _ E)].
Qed.

Lemma chunks_le_unit (cfg : config) (fuel : nat) (chunks : list (list Q)) :
  traverse (break_into_chunks fuel (chunk_unit cfg)) (burst_time cfg) = Ok chunks ->
  Forall (Forall (fun c => c <= chunk_unit cfg)) chunks.
Proof.
  intros H. apply traverse_Forall2 in H.
  induction H as [| b l bs ls Hb _ IH]; constructor; [| exact IH].
  exact (break_into_chunks_le_unit _ _ _ _ Hb).
Qed.

Lemma StronglySorted_snoc {A : Type} (R : A -> A -> Prop) (l : list A) (x : A) :
  StronglySorted R l -> Forall (fun y => R y x) l -> StronglySorted R (l ++ [x]).
Proof.
  induction 1 as [| y l Hs IH Hall]; intros Hx; simpl.
  - constructor; constructor.
  - apply Forall_cons in Hx. destruct Hx as [Hyx Hx].
    constructor; [exact (IH Hx) |].
    apply Forall_app. split; [exact Hall |]. constructor; [exact Hyx | constructor].
Qed.

Lemma holds_lookup_total (s : state) (cpu job : nat) :
  holds s cpu job -> current_jobs s !!! cpu = Some job.
Proof. unfold holds. intros H. exact (list_lookup_total_correct _ _ _ H). Qed.

Lemma timeline_release (cfg : config) (s : state) (cpu : nat) :
  timeline_invariant cfg s -> timeline_invariant cfg (release_cpu s cpu).
Proof.
  intros (Hwf & Hunit & Hex & Hbusy & Hok & Hrun & H1 & H2 & H3).
  destruct (exclusive_release s cpu (conj Hex Hbusy)) as [Hex' Hbusy'].
  destruct (release_cpu_fields s cpu)
    as (_ & _ & _ & E4 & E5 & E6 & _ & E8 & _ & _).
  unfold timeline_invariant. rewrite E4, E6.
  split.
  { revert Hwf. unfold release_cpu.
    destruct (Qle_bool _ _); [| auto]. destruct (current_jobs s !!! cpu); [| auto].
    intros (W1 & W2 & W3). unfold well_formed; simpl. rewrite length_insert. auto. }
  split; [exact Hunit |]. split; [exact Hex' |]. split; [exact Hbusy' |].
  split.
  { eapply Forall_impl; [exact Hok |]. intros r. unfold record_ok. rewrite E8. auto. }
  split; [| auto].
  eapply Forall_impl; [exact Hrun |]. intros r. unfold over_or_running.
  rewrite E5, E8. intros [Hover | [Hh Hle]]; [left; exact Hover |].
  unfold release_cpu.
  destruct (Qle_bool (busy_until s !!! cpu) (current_time s)) eqn:Hb; [| right; auto].
  destruct (current_jobs s !!! cpu) as [job |] eqn:Hc; [| right; auto].
  destruct (decide (record_cpu r = cpu)) as [Heq | Hne].
  - left. apply Qle_bool_iff in Hb. rewrite Heq in Hle. lra.
  - right. split; [| exact Hle]. unfold holds; simpl.
    rewrite list_lookup_insert_ne by congruence. exact Hh.
Qed.

Lemma timeline_assign (cfg : config) (s s' : state) (cpu job : nat) :
  timeline_invariant cfg s -> ready cfg s job -> free cfg s cpu ->
  assign cpu job s = Ok s' -> timeline_invariant cfg s'.
Proof.
  intros (Hwf & Hunit & Hex & Hbusy & Hok & Hrun & H1 & H2 & H3) Hready Hfree Ha.
  pose proof (well_formed_assign cfg s s' cpu job Hwf Ha) as Hwf'.
  destruct (exclusive_assign cfg s s' cpu job (conj Hex Hbusy) Hready Ha) as [Hex' Hbusy'].
  destruct Hready as (Hjob & Hrem & Harr & Hnotbusy).
  destruct Hfree as (Hcpu & Hfree1 & Hfree2).
  destruct (assign_inv _ _ _ _ Ha) as (c & rest & Hc & ->).
  destruct Hwf as (W1 & W2 & Hpos).
  destruct (Forall_tail_of_lookup _ _ _ _ _ Hpos Hc) as [Hc0 _].
  destruct (Forall_tail_of_lookup _ _ _ _ _ Hunit Hc) as [Hc1 Hrest].
  assert (Hended : Forall (fun r => (record_cpu r = cpu \/ record_job r = job) ->
                              record_end r <= current_time s) (gantt_data s)).
  { eapply Forall_impl; [exact Hrun |]. intros r [Hover | [Hh Hle]] Hsame; [exact Hover |].
    exfalso. destruct Hsame as [Heq | Heq].
    - rewrite Heq in Hh. apply holds_lookup_total in Hh. congruence.
    - rewrite Heq in Hh. exact (Hnotbusy (Hbusy _ _ Hh)). }
  assert (Hstarts : Forall (fun r => record_start r <= current_time s) (gantt_data s)).
  { eapply Forall_impl; [exact Hok |]. intros r H. apply H. }
  split; [exact Hwf' |]. simpl.
  split; [apply Forall_insert; assumption |].
  split; [exact Hex' |]. split; [exact Hbusy' |].
  split.
  { apply Forall_app. split; [exact Hok |]. constructor; [| constructor].
    unfold record_ok, record_job, record_cpu, record_start, record_duration; simpl.
    repeat split; try assumption. lra. }
  split.
  { apply Forall_app. split.
    - rewrite List.Forall_forall in *. intros r Hin.
      destruct (Hrun r Hin) as [Hover | [Hh Hle]]; [left; exact Hover |].
      assert (Hne : record_cpu r <> cpu).
      { intros Heq. rewrite Heq in Hh. apply holds_lookup_total in Hh. congruence. }
      right. unfold holds; simpl.
      rewrite list_lookup_insert_ne by congruence.
      rewrite list_lookup_total_insert_ne by congruence. auto.
    - constructor; [| constructor]. right.
      unfold holds, record_cpu, record_job, record_end, record_start, record_duration;
        simpl.
      rewrite list_lookup_insert_eq by lia.
      rewrite list_lookup_total_insert_eq by lia. split; [reflexivity | lra]. }
  split; [| split].
  - apply StronglySorted_snoc; [exact H1 | exact Hstarts].
  - apply StronglySorted_snoc; [exact H2 |].
    eapply Forall_impl; [exact Hended |]. intros r H Heq. apply H. left. exact Heq.
  - apply StronglySorted_snoc; [exact H3 |].
    eapply Forall_impl; [exact Hended |]. intros r H Heq. apply H. right. exact Heq.
Qed.

Lemma processors_free_at_setup (cfg : config) (chunks : list (list Q)) :
  forall c j, ~ holds (setup cfg chunks) c j.
Proof.
  intros c j H. unfold holds in H. simpl in H. rewrite list_lookup_fmap in H.
  destruct (cpu_names cfg !! c); discriminate.
Qed.

Lemma timeline_reached (cfg : config) (fl : flow) (s : state) :
  reached cfg fl s -> timeline_invariant cfg s.
Proof.
  apply (reached_preserves cfg (timeline_invariant cfg)).
  - intros s0 cpu. apply timeline_release.
  - intros s0 jobs H.
    unfold capture_queue_state. destruct (job_info cfg s0 jobs); exact H.
  - intros s0 s1 cpu job. apply timeline_assign.
  - intros s0 H _. exact H.
  - intros s0 t (Hwf & Hunit & Hex & Hbusy & Hok & Hrun & H1 & H2 & H3) Hlt.
    unfold timeline_invariant; simpl.
    split; [exact Hwf |]. split; [exact Hunit |]. split; [exact Hex |].
    split; [exact Hbusy |]. split; [| split; [| auto]].
    + eapply Forall_impl; [exact Hok |]. intros r (R1 & R2 & R3 & R4 & R5).
      unfold record_ok; simpl. repeat split; try tauto. lra.
    + eapply Forall_impl; [exact Hrun |]. intros r [Hover | Hh].
      * left. simpl. lra.
      * right. exact Hh.
  - intros chunks fuel Hc.
    pose proof (processors_free_at_setup cfg chunks) as Hno.
    unfold timeline_invariant; simpl.
    split.
    { unfold well_formed; simpl. rewrite !length_fmap. unfold cpu_names.
      rewrite length_seq. repeat split. exact (chunks_positive cfg fuel chunks Hc). }
    split; [exact (chunks_le_unit cfg fuel chunks Hc) |].
    split; [split; intros ? ? ? H; exfalso; exact (Hno _ _ H) |].
    split; [intros ? ? H; exfalso; exact (Hno _ _ H) |].
    repeat split; constructor.
Qed.

Lemma StronglySorted_pair {A : Type} (R : A -> A -> Prop) (l1 l2 l3 : list A) (x y : A) :
  StronglySorted R (l1 ++ x :: l2 ++ y :: l3) -> R x y.
Proof.
  induction l1 as [| z l1 IH]; simpl; intros H; apply StronglySorted_inv in H.
  - destruct H as [_ H]. apply Forall_app in H. destruct H as [_ H].
    apply Forall_cons in H. tauto.
  - apply IH. tauto.
Qed.

(** Every execution record of a run is of a job and a processor of the
    configuration; it starts no earlier than its job arrives and no later
    than the current time, and its duration is positive and at most the
    chunk unit. *)
Theorem execution_records_well_formed (cfg : config) (fl : flow) (s : state)
    (r : Q * nat * nat * Q) :
  reached cfg fl s -> In r (gantt_data s) ->
  (record_job r < length (processes cfg))%nat
  /\ (record_cpu r < num_cpus cfg)%nat
  /\ arrival_time cfg !!! record_job r <= record_start r
  /\ record_start r <= current_time s
  /\ 0 < record_duration r
  /\ record_duration r <= chunk_unit cfg.
Proof.
  intros Hr Hin. destruct (timeline_reached cfg fl s Hr) as (_ & _ & _ & _ & Hok & _).
  rewrite List.Forall_forall in Hok. exact (Hok r Hin).
Qed.

Lemma execution_records_well_formed_witness :
  exists (s : state) (r : Q * nat * nat * Q),
    r = (2, 0%nat, 1%nat, 1)
    /\ In r (gantt_data s)
    /\ (record_job r < length (processes scenario_B))%nat
    /\ (record_cpu r < num_cpus scenario_B)%nat
    /\ arrival_time scenario_B !!! record_job r <= record_start r
    /\ record_start r <= current_time s
    /\ 0 < record_duration r
    /\ record_duration r <= chunk_unit scenario_B.
Proof.
  destruct scenario_B_final as (s & _ & Hr & Hg). exists s, (2, 0%nat, 1%nat, 1).
  assert (Hin : In (2, 0%nat, 1%nat, 1) (gantt_data s)).
  { rewrite Hg. simpl. auto 6. }
  split; [reflexivity |]. split; [exact Hin |].
  exact (execution_records_well_formed scenario_B Continue s _ Hr Hin).
Defined.

(** The execution records are appended in the order of time: a record
    starts no earlier than the records before it. *)
Theorem execution_records_chronological (cfg : config) (fl : flow) (s : state)
    (g1 g2 g3 : list (Q * nat * nat * Q)) (r1 r2 : Q * nat * nat * Q) :
  reached cfg fl s ->
  gantt_data s = g1 ++ r1 :: g2 ++ r2 :: g3 ->
  record_start r1 <= record_start r2.
Proof.
  intros Hr Hg.
  destruct (timeline_reached cfg fl s Hr) as (_ & _ & _ & _ & _ & _ & H & _).
  unfold chronological in H. rewrite Hg in H.
  exact (StronglySorted_pair _ _ _ _ _ _ H).
Qed.

Lemma execution_records_chronological_witness :
  record_start (0, 1%nat, 1%nat, 1) <= record_start (2, 0%nat, 1%nat, 1).
Proof.
  destruct scenario_B_final as (s & _ & Hr & Hg).
  exact (execution_records_chronological scenario_B Continue s
           [(0, 0%nat, 0%nat, 1)] [(1, 0%nat, 0%nat, 1); (1, 1%nat, 1%nat, 1)]
           [(3, 0%nat, 1%nat, 1)] _ _ Hr Hg).
Defined.

(** A processor runs one chunk at a time: of two execution records on the
    same processor, the later one starts when the earlier one has ended. *)
Theorem no_overlap_on_a_processor (cfg : config) (fl : flow) (s : state)
    (g1 g2 g3 : list (Q * nat * nat * Q)) (r1 r2 : Q * nat * nat * Q) :
  reached cfg fl s ->
  gantt_data s = g1 ++ r1 :: g2 ++ r2 :: g3 ->
  record_cpu r1 = record_cpu r2 ->
  record_end r1 <= record_start r2.
Proof.
  intros Hr Hg.
  destruct (timeline_reached cfg fl s Hr) as (_ & _ & _ & _ & _ & _ & _ & H & _).
  unfold one_at_a_time_per_cpu in H. rewrite Hg in H.
  exact (StronglySorted_pair _ _ _ _ _ _ H).
Qed.

Lemma no_overlap_on_a_processor_witness :
  record_end (1, 0%nat, 0%nat, 1) <= record_start (2, 0%nat, 1%nat, 1).
Proof.
  destruct scenario_B_final as (s & _ & Hr & Hg).
  exact (no_overlap_on_a_processor scenario_B Continue s
           [(0, 0%nat, 0%nat, 1); (0, 1%nat, 1%nat, 1)] [(1, 1%nat, 1%nat, 1)]
           [(3, 0%nat, 1%nat, 1)] _ _ Hr Hg eq_refl).
Defined.

(** A job runs one chunk at a time: of two execution records of the same
    job, on whatever processors, the later one starts when the earlier one
    has ended. *)
Theorem no_overlap_of_a_job (cfg : config) (fl : flow) (s : state)
    (g1 g2 g3 : list (Q * nat * nat * Q)) (r1 r2 : Q * nat * nat * Q) :
  reached cfg fl s ->
  gantt_data s = g1 ++ r1 :: g2 ++ r2 :: g3 ->
  record_job r1 = record_job r2 ->
  record_end r1 <= record_start r2.
Proof.
  intros Hr Hg.
  destruct (timeline_reached cfg fl s Hr) as (_ & _ & _ & _ & _ & _ & _ & _ & H).
  unfold one_at_a_time_per_job in H. rewrite Hg in H.
  exact (StronglySorted_pair _ _ _ _ _ _ H).
Qed.

Lemma no_overlap_of_a_job_witness :
  record_end (1, 1%nat, 1%nat, 1) <= record_start (2, 0%nat, 1%nat, 1).
Proof.
  destruct scenario_B_final as (s & _ & Hr & Hg).
  exact (no_overlap_of_a_job scenario_B Continue s
           [(0, 0%nat, 0%nat, 1); (0, 1%nat, 1%nat, 1); (1, 0%nat, 0%nat, 1)] []
           [(3, 0%nat, 1%nat, 1)] _ _ Hr Hg eq_refl).
Defined.

(** ** Work done and work left *)

Lemma dispatched_time_snoc (j : nat) (gantt : list (Q * nat * nat * Q))
    (r : Q * nat * nat * Q) :
  dispatched_time j (gantt ++ [r])
  == dispatched_time j gantt + (if Nat.eqb (record_job r) j then record_duration r else 0).
Proof.
  unfold dispatched_time. rewrite List.filter_app, fmap_app, sumQ_app. simpl.
  destruct (Nat.eqb (record_job r) j); simpl; lra.
Qed.

Lemma work_conserved_reached (cfg : config) (fl : flow) (s : state) :
  reached cfg fl s -> work_conserved cfg s.
Proof.
  intros Hr.
  apply (reached_preserves cfg
           (fun s => length (remaining_time s) = length (processes cfg)
                     /\ work_conserved cfg s)) in Hr; [tauto | ..].
  - intros s0 cpu. unfold work_conserved.
    destruct (release_cpu_fields s0 cpu) as (E1 & _ & _ & _ & _ & E6 & _).
    rewrite E1, E6. auto.
  - intros s0 jobs. unfold work_conserved.
    destruct (capture_queue_state_fields cfg (current_time s0) jobs s0)
      as (E1 & _ & _ & _ & _ & _ & _ & E8 & _). rewrite E1, E8. auto.
  - intros s0 s1 cpu job [Hlen H] _ _ Ha.
    destruct (assign_inv _ _ _ _ Ha) as (c & rest & _ & ->). simpl.
    rewrite length_insert. split; [exact Hlen |]. intros j Hj. simpl.
    rewrite dispatched_time_snoc. unfold record_job, record_duration; simpl.
    specialize (H j Hj). destruct (decide (j = job)) as [-> | Hne].
    + rewrite list_lookup_total_insert_eq by lia. rewrite Nat.eqb_refl. lra.
    + rewrite list_lookup_total_insert_ne by congruence.
      replace (Nat.eqb job j) with false; [lra |].
      symmetry. apply Nat.eqb_neq. congruence.
  - intros s0 H _. exact H.
  - intros s0 t H _. exact H.
  - intros chunks fuel _. simpl. unfold burst_time at 1. rewrite length_fmap.
    split; [reflexivity |]. intros j _. simpl. unfold dispatched_time. simpl. lra.
Qed.

(** ** Start and end times and the execution records *)

Lemma first_record_of_later (j : nat) (r new : Q * nat * nat * Q)
    (gantt : list (Q * nat * nat * Q)) :
  first_record_of j r gantt -> first_record_of j r (gantt ++ [new]).
Proof.
  intros (g1 & g2 & -> & Hj & Hall). exists g1, (g2 ++ [new]).
  split; [rewrite <- app_assoc; reflexivity | auto].
Qed.

Lemma started_at_first_record_reached (cfg : config) (fl : flow) (s : state) :
  reached cfg fl s -> started_at_first_record s.
Proof.
  apply (reached_preserves cfg started_at_first_record).
  - intros s0 cpu. unfold started_at_first_record.
    destruct (release_cpu_fields s0 cpu) as (_ & E2 & _ & _ & _ & E6 & _).
    rewrite E2, E6. auto.
  - intros s0 jobs. unfold started_at_first_record.
    destruct (capture_queue_state_fields cfg (current_time s0) jobs s0)
      as (_ & E2 & _ & _ & _ & _ & _ & E8 & _). rewrite E2, E8. auto.
  - intros s0 s1 cpu job H _ _ Ha.
    destruct (assign_inv _ _ _ _ Ha) as (c & rest & _ & ->).
    intros j. simpl. specialize (H j).
    destruct (decide (j = job)) as [-> | Hne].
    + destruct (start_time s0 !! job) as [st |] eqn:E.
      * rewrite E. destruct H as (r & Hf & Hst). exists r.
        split; [apply first_record_of_later; exact Hf | exact Hst].
      * rewrite lookup_insert_eq. exists (current_time s0, cpu, job, c).
        split; [| reflexivity]. exists (gantt_data s0), [].
        split; [reflexivity |]. split; [reflexivity | exact H].
    + assert (Hsame : match start_time s0 !! job with
                      | Some _ => start_time s0
                      | None => <[job := current_time s0]> (start_time s0)
                      end !! j = start_time s0 !! j).
      { destruct (start_time s0 !! job); [reflexivity |].
        apply lookup_insert_ne. congruence. }
      rewrite Hsame. destruct (start_time s0 !! j) as [st |].
      * destruct H as (r & Hf & Hst). exists r.
        split; [apply first_record_of_later; exact Hf | exact Hst].
      * apply Forall_app. split; [exact H |]. constructor; [| constructor].
        unfold record_job; simpl. congruence.
  - intros s0 H _. exact H.
  - intros s0 t H _. exact H.
  - intros chunks fuel _ j. simpl. rewrite lookup_empty. constructor.
Qed.

Lemma sumQ_nonneg (l : list Q) : Forall (fun c => 0 < c) l -> 0 <= sumQ l.
Proof. induction 1 as [| x l Hx _ IH]; simpl; lra. Qed.

Lemma ended_at_last_record_reached (cfg : config) (fl : flow) (s : state) :
  reached cfg fl s -> ended_at_last_record s.
Proof.
  intros Hr.
  apply (reached_preserves cfg
           (fun s => well_formed cfg s /\ in_lockstep cfg s /\ ended_at_last_record s))
    in Hr; [tauto | ..].
  - intros s0 cpu (Hwf & Hlock & H).
    destruct (release_cpu_fields s0 cpu) as (E1 & _ & E3 & E4 & _ & E6 & _).
    split; [| split].
    + revert Hwf. unfold release_cpu.
      destruct (Qle_bool _ _); [| auto]. destruct (current_jobs s0 !!! cpu); [| auto].
      intros (W1 & W2 & W3). unfold well_formed; simpl. rewrite length_insert. auto.
    + apply (in_lockstep_fields cfg s0); assumption.
    + unfold ended_at_last_record. rewrite E1, E3, E6. exact H.
  - intros s0 jobs (Hwf & Hlock & H).
    destruct (capture_queue_state_fields cfg (current_time s0) jobs s0)
      as (E1 & _ & E3 & E4 & _ & _ & _ & E8 & _).
    split; [apply well_formed_capture; exact Hwf |].
    split; [apply (in_lockstep_fields cfg s0); assumption |].
    unfold ended_at_last_record. rewrite E1, E3, E8. exact H.
  - intros s0 s1 cpu job (Hwf & Hlock & H) Hready _ Ha.
    split; [exact (well_formed_assign cfg s0 s1 cpu job Hwf Ha) |].
    split; [exact (in_lockstep_assign cfg s0 s1 cpu job Hlock Hready Ha) |].
    destruct Hready as (Hjob & Hrem & _ & _).
    destruct (assign_inv _ _ _ _ Ha) as (c & rest & Hc & ->).
    destruct Hwf as (_ & _ & Hpos). destruct Hlock as (Hl1 & _ & Hlock).
    destruct (Forall_tail_of_lookup _ _ _ _ _ Hpos Hc) as [Hc0 Hrest].
    apply sumQ_nonneg in Hrest.
    assert (Hnew : remaining_time s0 !!! job - c == sumQ rest).
    { destruct (Hlock job Hjob) as [E | [E _]]; [| congruence].
      rewrite Hc in E. simpl in E. lra. }
    assert (Hold : forall j e, j <> job -> end_time s0 !! j = Some e ->
              (exists r, last_record_of j r
                           (gantt_data s0 ++ [(current_time s0, cpu, job, c)])
                         /\ e = record_end r)
              /\ 0 <= <[job := remaining_time s0 !!! job - c]> (remaining_time s0) !!! j
              /\ <[job := remaining_time s0 !!! job - c]> (remaining_time s0) !!! j
                 < tolerance).
    { intros j e Hne He. destruct (H j e He) as ((r & H2 & H3) & H4).
      rewrite list_lookup_total_insert_ne by congruence. split; [| exact H4].
      exists r. split; [| exact H3]. apply last_record_of_later; [| exact H2].
      unfold record_job. simpl. congruence. }
    intros j e. cbn [end_time remaining_time gantt_data].
    destruct (Qlt_bool (Qabs (remaining_time s0 !!! job - c)) tolerance) eqn:Hcomp.
    + rewrite lookup_insert. destruct (decide (job = j)) as [<- | Hne];
        [| intros He; apply Hold; congruence].
      intros [= <-]. rewrite list_lookup_total_insert_eq by lia.
      apply Qlt_bool_iff in Hcomp.
      assert (H0 : 0 <= remaining_time s0 !!! job - c) by lra.
      rewrite (Qabs_pos _ H0) in Hcomp.
      split; [| split; assumption].
      exists (current_time s0, cpu, job, c). split; [| reflexivity].
      exists (gantt_data s0), []. split; [reflexivity |]. split; [reflexivity | constructor].
    + intros He. apply Hold; [| exact He]. intros ->.
      destruct (H job e He) as (_ & Hge & Hlt).
      apply Qlt_bool_false in Hcomp.
      assert (H0 : 0 <= remaining_time s0 !!! job - c) by lra.
      rewrite (Qabs_pos _ H0) in Hcomp. lra.
  - intros s0 H _. exact H.
  - intros s0 t H _. exact H.
  - intros chunks fuel Hc. split; [| split].
    + unfold well_formed; simpl. rewrite !length_fmap. unfold cpu_names.
      rewrite length_seq. repeat split. exact (chunks_positive cfg fuel chunks Hc).
    + exact (in_lockstep_setup cfg fuel chunks Hc).
    + intros j e H. simpl in H. rewrite lookup_empty in H. discriminate.
Qed.

(** The start time of a job is the start of its first execution record;
    its end time, once set, is always the end of its last execution record
    (a job run again after its completion gets its end time written
    again), and the job's remaining time is then less than the tolerance
    0.001. *)
Theorem start_and_end_of_a_job (cfg : config) (fl : flow) (s : state) (j : nat) :
  reached cfg fl s ->
  (forall st : Q,
     start_time s !! j = Some st ->
     exists r, first_record_of j r (gantt_data s) /\ st = record_start r)
  /\ (start_time s !! j = None ->
      Forall (fun r => record_job r <> j) (gantt_data s))
  /\ (forall e : Q,
        end_time s !! j = Some e ->
        (exists r, last_record_of j r (gantt_data s) /\ e = record_end r)
        /\ 0 <= remaining_time s !!! j /\ remaining_time s !!! j < tolerance).
Proof.
  intros Hr. pose proof (started_at_first_record_reached cfg fl s Hr j) as Hs.
  split; [| split].
  - intros st E. rewrite E in Hs. exact Hs.
  - intros E. rewrite E in Hs. exact Hs.
  - intros e. apply (ended_at_last_record_reached cfg fl s Hr).
Qed.

Lemma start_and_end_of_a_job_witness :
  exists s : state,
    start_time s !! 1%nat = Some 0 /\ end_time s !! 1%nat = Some 4
    /\ (exists r, first_record_of 1 r (gantt_data s) /\ 0 = record_start r)
    /\ (exists r, last_record_of 1 r (gantt_data s) /\ 4 = record_end r).
Proof.
  destruct (simulation_loop scenario_B 5
              (initial_state scenario_B [[1; 1]; [1; 1; 1; 1]]))
    as [[s e] | |] eqn:Hloop; [| vm_compute in Hloop; discriminate ..].
  assert (He : e = AllCompleted) by (vm_compute in Hloop; congruence). subst e.
  assert (Hc : traverse (break_into_chunks 5 (chunk_unit scenario_B))
                 (burst_time scenario_B) = Ok [[1; 1]; [1; 1; 1; 1]]) by reflexivity.
  pose proof (proj1 (simulation_loop_reached scenario_B 5 _ _ _
                       (reached_initial scenario_B 5 _ Hc) Hloop)) as Hr.
  exists s.
  assert (Hst : start_time s !! 1%nat = Some 0)
    by (vm_compute in Hloop; injection Hloop as <-; reflexivity).
  assert (Hen : end_time s !! 1%nat = Some 4)
    by (vm_compute in Hloop; injection Hloop as <-; reflexivity).
  destruct (start_and_end_of_a_job scenario_B Continue s 1 Hr) as (H1 & _ & H3).
  split; [exact Hst |]. split; [exact Hen |].
  split; [exact (H1 0 Hst) | exact (proj1 (H3 4 Hen))].
Defined.

(** ** What a successful run hands out *)

Lemma simulate_inv (cfg : config) (fuel : nat) (o : output) :
  simulate cfg fuel = Ok o ->
  exists (fl : flow) (s : state) (rs : list job_result) (avg : Q),
    reached cfg fl s /\ results cfg s = Ok (rs, avg)
    /\ o = {| o_results := rs; o_avg_turnaround := avg;
              o_gantt_data := gantt_data s;
              o_queue_snapshots := queue_snapshots s |}.
Proof.
  unfold simulate.
  destruct (traverse (break_into_chunks fuel _) _) as [chunks | |] eqn:Hc; simpl;
    try discriminate.
  destruct (simulation_loop cfg fuel _) as [[s e] | |] eqn:Hl; simpl; try discriminate.
  destruct (results cfg s) as [[rs avg] | |] eqn:Hres; simpl; try discriminate.
  intros [= <-].
  pose proof (simulation_loop_reached cfg fuel _ _ _
                (reached_initial cfg fuel chunks Hc) Hl) as H.
  destruct e.
  - exists Continue, s, rs, avg. tauto.
  - destruct H as (s0 & Hr & Hlt & Hb). exists Break, s, rs, avg.
    split; [exact (reached_iteration cfg s0 s Break Hr Hlt Hb) | auto].
Qed.

Lemma results_inv (cfg : config) (s : state) (rs : list job_result) (avg : Q) :
  results cfg s = Ok (rs, avg) ->
  rs <> []
  /\ avg = py_sum (r_turnaround_time <$> rs) / inject_Z (Z.of_nat (length rs))
  /\ Forall2 (fun j r => job_result_of cfg s j = Ok r) (job_ids cfg) rs.
Proof.
  unfold results.
  destruct (traverse (job_result_of cfg s) (job_ids cfg)) as [rows | |] eqn:Ht; simpl;
    try discriminate.
  apply traverse_Forall2 in Ht.
  destruct rows as [| r rows]; [discriminate |]. intros [= <- <-].
  split; [discriminate |]. split; [reflexivity | exact Ht].
Qed.

Lemma job_result_of_inv (cfg : config) (s : state) (j : nat) (r : job_result) :
  job_result_of cfg s j = Ok r ->
  exists st en : Q,
    start_time s !! j = Some st /\ end_time s !! j = Some en
    /\ r = {| r_id := j;
              r_arrival_time := arrival_time cfg !!! j;
              r_burst_time := burst_time cfg !!! j;
              r_start_time := st;
              r_end_time := en;
              r_turnaround_time := en - arrival_time cfg !!! j |}.
Proof.
  unfold job_result_of, lookup_or_raise.
  destruct (start_time s !! j) as [st |]; simpl; [| discriminate].
  destruct (end_time s !! j) as [en |]; simpl; [| discriminate].
  intros [= <-]. exists st, en. auto.
Qed.

(** A run that ends with a results table has at least one job, and one row
    per job, in the order of the jobs.  In the row of a job, the start time
    is the start of the job's first execution record and the end time the
    end of its last one, [arrival <= start <= end], and the turnaround time
    is [end - arrival]. *)
Theorem successful_run_rows (cfg : config) (fuel : nat) (o : output) :
  simulate cfg fuel = Ok o ->
  (0 < length (processes cfg))%nat
  /\ length (o_results o) = length (processes cfg)
  /\ forall (j : nat) (r : job_result),
       o_results o !! j = Some r ->
       r_id r = j
       /\ r_arrival_time r = arrival_time cfg !!! j
       /\ r_burst_time r = burst_time cfg !!! j
       /\ r_arrival_time r <= r_start_time r
       /\ r_start_time r <= r_end_time r
       /\ r_turnaround_time r = r_end_time r - r_arrival_time r
       /\ (exists rec, first_record_of j rec (o_gantt_data o)
                       /\ r_start_time r = record_start rec)
       /\ (exists rec, last_record_of j rec (o_gantt_data o)
                       /\ r_end_time r = record_end rec).
Proof.
  intros Hrun.
  destruct (simulate_inv cfg fuel o Hrun) as (fl & s & rs & avg & Hr & Hres & ->).
  destruct (results_inv cfg s rs avg Hres) as (Hne & _ & Hrows). simpl.
  pose proof (Forall2_length _ _ _ Hrows) as Hlen.
  unfold job_ids in Hlen, Hrows. rewrite length_seq in Hlen.
  split; [destruct rs; [congruence | simpl in Hlen; lia] |].
  split; [congruence |].
  intros j r Hj.
  destruct (Forall2_lookup_r _ _ _ _ _ Hrows Hj) as (j' & Hj' & Hrow).
  apply lookup_seq in Hj'. destruct Hj' as [-> Hlt]. simpl in Hrow.
  destruct (job_result_of_inv cfg s j r Hrow) as (st & en & Hst & Hen & ->). simpl.
  destruct (times_ordered_reached cfg fl s Hr) as [Hstart Hend].
  destruct (Hend j en Hen) as (st' & Hst' & Hle).
  assert (st' = st) as -> by congruence.
  destruct (Hstart j st Hst) as [Harr _].
  pose proof (started_at_first_record_reached cfg fl s Hr j) as Hfirst.
  rewrite Hst in Hfirst.
  destruct (ended_at_last_record_reached cfg fl s Hr j en Hen) as (Hlast & _).
  repeat split; assumption.
Qed.

Lemma successful_run_rows_witness :
  exists o : output,
    simulate scenario_B 5 = Ok o
    /\ r_end_time <$> o_results o = [2; 4]
    /\ length (o_results o) = length (processes scenario_B).
Proof.
  destruct (simulate scenario_B 5) as [o | |] eqn:Hrun;
    [| vm_compute in Hrun; discriminate ..].
  exists o. split; [reflexivity |].
  split; [vm_compute in Hrun; injection Hrun as <-; reflexivity |].
  exact (proj1 (proj2 (successful_run_rows scenario_B 5 o Hrun))).
Defined.

(** ** Termination *)

Lemma filter_length_le {A : Type} (p p' : A -> bool) (l : list A) :
  (forall x, p' x = true -> p x = true) ->
  (length (List.filter p' l) <= length (List.filter p l))%nat.
Proof.
  intros Himp. induction l as [| x l IH]; simpl; [lia |].
  destruct (p' x) eqn:E'; [rewrite (Himp x E'); simpl; lia |].
  destruct (p x); simpl; lia.
Qed.

Lemma filter_length_lt {A : Type} (p p' : A -> bool) (l : list A) (x : A) :
  (forall x, p' x = true -> p x = true) ->
  In x l -> p x = true -> p' x = false ->
  (length (List.filter p' l) < length (List.filter p l))%nat.
Proof.
  intros Himp. induction l as [| y l IH]; simpl; [tauto |].
  intros [-> | Hin] Hp Hp'.
  - rewrite Hp, Hp'. simpl. pose proof (filter_length_le p p' l Himp). lia.
  - specialize (IH Hin Hp Hp').
    destruct (p' y) eqn:E'; [rewrite (Himp y E'); simpl; lia |].
    destruct (p y); simpl; lia.
Qed.

Lemma Qlt_bool_irrefl (x : Q) : Qlt_bool x x = false.
Proof. apply Qlt_bool_false. lra. Qed.

Lemma Qlt_bool_mono (t t' x : Q) :
  t <= t' -> Qlt_bool t' x = true -> Qlt_bool t x = true.
Proof. rewrite !Qlt_bool_iff. lra. Qed.

(** Moving the clock to one of the pending events leaves fewer of them. *)
Lemma fewer_events_later (cfg : config) (s : state) (t : Q) :
  In t (next_time_events cfg s) ->
  (length (next_time_events cfg (set_current_time t s))
   < length (next_time_events cfg s))%nat.
Proof.
  intros Hin.
  assert (Hlt : current_time s < t).
  { pose proof (next_time_events_later cfg s) as H.
    rewrite List.Forall_forall in H. exact (H t Hin). }
  unfold next_time_events in *. simpl. rewrite !length_app, !length_fmap.
  set (b := fun j : nat => Qlt_bool (current_time s) (arrival_time cfg !!! j)
                           && Qlt_bool 0 (remaining_time s !!! j)).
  set (b' := fun j : nat => Qlt_bool t (arrival_time cfg !!! j)
                            && Qlt_bool 0 (remaining_time s !!! j)).
  set (n := if Qlt_bool (current_time s) (next_scheduling_time s)
            then [next_scheduling_time s] else []) in *.
  set (n' := if Qlt_bool t (next_scheduling_time s)
             then [next_scheduling_time s] else []).
  pose (a := fun x : Q => Qlt_bool (current_time s) x).
  pose (a' := fun x : Q => Qlt_bool t x).
  change (List.filter (fun t0 : Q => Qlt_bool (current_time s) t0) (busy_until s))
    with (List.filter a (busy_until s)) in *.
  change (List.filter (fun t0 : Q => Qlt_bool t t0) (busy_until s))
    with (List.filter a' (busy_until s)).
  assert (Ha : forall x, a' x = true -> a x = true).
  { intros x. apply Qlt_bool_mono. lra. }
  assert (Hb : forall j, b' j = true -> b j = true).
  { intros j. unfold b, b'. rewrite !andb_true_iff. intros [H1 H2].
    split; [| exact H2]. revert H1. apply Qlt_bool_mono. lra. }
  pose proof (filter_length_le a a' (busy_until s) Ha) as L1.
  pose proof (filter_length_le b b' (job_ids cfg) Hb) as L2.
  assert (L3 : (length n' <= length n)%nat).
  { unfold n, n'. destruct (Qlt_bool t (next_scheduling_time s)) eqn:E; [| simpl; lia].
    rewrite (Qlt_bool_mono (current_time s) t _ ltac:(lra) E). lia. }
  rewrite !in_app_iff in Hin. destruct Hin as [Hin | [Hin | Hin]].
  - apply List.filter_In in Hin. destruct Hin as [Hin Hp].
    pose proof (filter_length_lt a a' (busy_until s) t Ha Hin Hp (Qlt_bool_irrefl t)).
    lia.
  - apply list_elem_of_In, list_elem_of_fmap in Hin.
    destruct Hin as (j & -> & Hj). apply list_elem_of_In, List.filter_In in Hj.
    destruct Hj as [Hj Hp].
    assert (Hp' : b' j = false).
    { unfold b'. rewrite Qlt_bool_irrefl. reflexivity. }
    pose proof (filter_length_lt b b' (job_ids cfg) j Hb Hj Hp Hp'). lia.
  - unfold n, n' in *.
    destruct (Qlt_bool (current_time s) (next_scheduling_time s)) eqn:E;
      [| destruct Hin].
    destruct Hin as [<- | []]. rewrite Qlt_bool_irrefl. simpl. lia.
Qed.

Lemma next_time_events_bound (cfg : config) (s : state) :
  (length (next_time_events cfg s)
   <= length (busy_until s) + length (processes cfg) + 1)%nat.
Proof.
  unfold next_time_events. rewrite !length_app, length_fmap.
  pose proof (List.filter_length_le (fun t => Qlt_bool (current_time s) t) (busy_until s)).
  pose proof (List.filter_length_le
                (fun j => Qlt_bool (current_time s) (arrival_time cfg !!! j)
                          && Qlt_bool 0 (remaining_time s !!! j)) (job_ids cfg)) as H1.
  unfold job_ids in H1 at 2. rewrite length_seq in H1.
  destruct (Qlt_bool (current_time s) (next_scheduling_time s)); simpl; lia.
Qed.

Lemma concat_insert_tail {A : Type} (ll : list (list A))
    (j : nat) (c : A) (rest : list A) :
  ll !! j = Some (c :: rest) ->
  (length (concat (<[j := rest]> ll)) + 1 = length (concat ll))%nat.
Proof.
  revert j. induction ll as [| l ll IH]; intros j Hj; [discriminate |].
  destruct j as [| j]; simpl in *.
  - injection Hj as ->. rewrite !length_app. simpl. lia.
  - rewrite !length_app. rewrite <- (IH j Hj). lia.
Qed.

Lemma assign_chunks_left (cpu job : nat) (s s' : state) :
  assign cpu job s = Ok s' -> (chunks_left s' + 1 = chunks_left s)%nat.
Proof.
  intros Ha. destruct (assign_inv _ _ _ _ Ha) as (c & rest & Hc & ->).
  unfold chunks_left; simpl. apply (concat_insert_tail _ _ c).
  rewrite list_lookup_total_alt in Hc.
  destruct (job_chunks s !! job) as [l |]; simpl in Hc; [congruence | discriminate].
Qed.

Lemma assign_jobs_chunks_left (cpus jobs : list nat) (s s' : state) :
  assign_jobs cpus jobs s = Ok s' ->
  (chunks_left s' <= chunks_left s)%nat
  /\ (cpus <> [] -> jobs <> [] -> (chunks_left s' < chunks_left s)%nat).
Proof.
  revert jobs s. induction cpus as [| cpu cpus IH]; intros jobs s Hrun; simpl in Hrun.
  - injection Hrun as <-. split; [lia | congruence].
  - destruct jobs as [| job jobs]; [injection Hrun as <-; split; [lia | congruence] |].
    destruct (assign cpu job s) as [s1 | |] eqn:Ha; simpl in Hrun; try discriminate.
    apply assign_chunks_left in Ha. destruct (IH jobs s1 Hrun) as [H _].
    split; [lia | intros _ _; lia].
Qed.

(** A full iteration lowers the measure. *)
Lemma loop_measure_decreases (cfg : config) (s s' : state) :
  reached cfg Continue s ->
  (jobs_completed s < length (processes cfg))%nat ->
  loop_body cfg s = Ok (s', Continue) ->
  (loop_measure cfg s' < loop_measure cfg s)%nat.
Proof.
  intros Hr Hlt Hb.
  pose proof (well_formed_reached cfg _ _ (reached_iteration cfg s s' Continue Hr Hlt Hb))
    as (Hlen' & _ & _).
  destruct (loop_body_inv cfg s s' Continue Hb) as (s1 & Hd & Ha).
  destruct (release_completed_fields cfg s)
    as (E1 & _ & _ & E4 & E5 & _ & _ & E8 & _ & E10).
  set (r := release_completed cfg s) in *.
  assert (Hev : next_time_events cfg r = next_time_events cfg s).
  { unfold next_time_events. rewrite E1, E5, E8, E10. reflexivity. }
  assert (Hcl : chunks_left r = chunks_left s) by (unfold chunks_left; congruence).
  destruct (advance_cases cfg s1) as [(t & Hin & _ & Hadv) | [_ Hadv]];
    rewrite Hadv in Ha; [| discriminate]. injection Ha as <-.
  unfold loop_measure. change (chunks_left (set_current_time t s1)) with (chunks_left s1).
  destruct (dispatch_round cfg r) eqn:Hround.
  - destruct (dispatch_round_inv cfg r s1 Hround Hd) as (_ & Hc & Hj & s2 & Hrun & ->).
    apply assign_jobs_chunks_left in Hrun. destruct Hrun as [_ Hrun].
    assert (Hless : (chunks_left s2 < chunks_left s)%nat).
    { rewrite <- Hcl.
      assert (Hcap : chunks_left (capture_queue_state cfg (current_time r)
                                    (available_jobs cfg r) r) = chunks_left r).
      { unfold chunks_left.
        destruct (capture_queue_state_fields cfg (current_time r) (available_jobs cfg r) r)
          as (_ & _ & _ & G4 & _). rewrite G4. reflexivity. }
      rewrite <- Hcap. apply Hrun; [exact Hc |]. intros Hnil. apply Hj.
      apply Permutation_nil. rewrite <- Hnil. apply py_sorted_Permutation. }
    change (chunks_left (set_next_scheduling_time (current_time s2 + quantum_time cfg) s2))
      with (chunks_left s2).
    pose proof (next_time_events_bound cfg
                  (set_current_time t
                     (set_next_scheduling_time (current_time s2 + quantum_time cfg) s2)))
      as Hbound.
    simpl in Hbound. simpl in Hlen'. rewrite Hlen' in Hbound. nia.
  - unfold dispatch in Hd. rewrite Hround in Hd. injection Hd as <-.
    pose proof (fewer_events_later cfg r t Hin) as Hfew.
    rewrite Hev in Hfew. rewrite Hcl. lia.
Qed.

(** From every state of a run, the simulation loop ends when it is given
    more fuel than the measure of the state, and it ends without raising. *)
Lemma simulation_loop_ends (cfg : config) (fuel : nat) :
  forall s : state,
    reached cfg Continue s -> (loop_measure cfg s < fuel)%nat ->
    exists (s' : state) (e : loop_exit), simulation_loop cfg fuel s = Ok (s', e).
Proof.
  induction fuel as [| fuel IH]; intros s Hr Hm; [lia |]. simpl.
  destruct (jobs_completed s <? length (processes cfg))%nat eqn:Hlt; [| eauto].
  apply Nat.ltb_lt in Hlt.
  destruct (loop_body_returns cfg s Hr) as (s1 & fl & Hb).
  rewrite Hb. simpl. destruct fl; [| eauto].
  apply IH; [exact (reached_iteration cfg s s1 Continue Hr Hlt Hb) |].
  pose proof (loop_measure_decreases cfg s s1 Hr Hlt Hb). lia.
Qed.

Lemma traverse_not_out_of_fuel {A B : Type} (f : A -> outcome B) (l : list A) :
  (forall x, f x <> OutOfFuel) -> traverse f l <> OutOfFuel.
Proof.
  intros Hf. induction l as [| x l IH]; simpl; [discriminate |].
  specialize (Hf x). destruct (f x); simpl; [| discriminate | congruence].
  destruct (traverse f l); simpl; [discriminate | discriminate | congruence].
Qed.

Lemma results_not_out_of_fuel (cfg : config) (s : state) : results cfg s <> OutOfFuel.
Proof.
  unfold results.
  pose proof (traverse_not_out_of_fuel (job_result_of cfg s) (job_ids cfg)) as H.
  destruct (traverse (job_result_of cfg s) (job_ids cfg)) as [rs | e |]; simpl.
  - destruct rs; discriminate.
  - discriminate.
  - exfalso. apply H; [| reflexivity]. intros j. unfold job_result_of, lookup_or_raise.
    destruct (start_time s !! j); simpl; [| discriminate].
    destruct (end_time s !! j); simpl; discriminate.
Qed.

(** Once the chunking of lines 30-38 has returned, the program ends,
    whatever the jobs, the processors and the quantum are: the simulation
    loop is left, by its condition or by [break], after at most
    [loop_measure] iterations, since each of them dispatches a chunk or uses
    up a pending event, and with that much fuel the run is never out of
    fuel. *)
Theorem simulation_loop_terminates (cfg : config) (fuel0 : nat)
    (chunks : list (list Q)) :
  traverse (break_into_chunks fuel0 (chunk_unit cfg)) (burst_time cfg) = Ok chunks ->
  forall fuel : nat,
    (fuel0 <= fuel)%nat ->
    (loop_measure cfg (initial_state cfg chunks) < fuel)%nat ->
    (exists (s : state) (e : loop_exit),
       simulation_loop cfg fuel (initial_state cfg chunks) = Ok (s, e))
    /\ simulate cfg fuel <> OutOfFuel.
Proof.
  intros Hc fuel Hfuel Hm.
  destruct (simulation_loop_ends cfg fuel (initial_state cfg chunks)
              (reached_initial cfg fuel0 chunks Hc) Hm) as (s & e & Hl).
  split; [eauto |]. unfold simulate.
  assert (Hc' : traverse (break_into_chunks fuel (chunk_unit cfg)) (burst_time cfg)
                = Ok chunks).
  { apply (traverse_more_fuel (break_into_chunks fuel0 (chunk_unit cfg))); [| exact Hc].
    intros x y. apply break_into_chunks_more_fuel. exact Hfuel. }
  rewrite Hc'. simpl. rewrite Hl. simpl.
  pose proof (results_not_out_of_fuel cfg s) as Hres.
  destruct (results cfg s); simpl; [discriminate | discriminate | congruence].
Qed.

Lemma simulation_loop_terminates_witness :
  (exists (s : state) (e : loop_exit),
     simulation_loop scenario_B 50 (initial_state scenario_B [[1; 1]; [1; 1; 1; 1]])
     = Ok (s, e))
  /\ simulate scenario_B 50 <> OutOfFuel.
Proof.
  apply (simulation_loop_terminates scenario_B 4 [[1; 1]; [1; 1; 1; 1]]).
  - reflexivity.
  - lia.
  - vm_compute. lia.
Defined.

(** ** The dispatch policy *)

Lemma assign_jobs_records (cpus jobs : list nat) (s s' : state) :
  assign_jobs cpus jobs s = Ok s' ->
  exists new : list (Q * nat * nat * Q),
    gantt_data s' = gantt_data s ++ new
    /\ record_job <$> new = take (length cpus) jobs
    /\ record_cpu <$> new = take (length jobs) cpus
    /\ Forall (fun r => record_start r = current_time s) new.
Proof.
  revert jobs s. induction cpus as [| cpu cpus IH]; intros jobs s Hrun; simpl in Hrun.
  - injection Hrun as <-. exists []. rewrite app_nil_r, take_nil.
    repeat split; constructor.
  - destruct jobs as [| job jobs].
    { injection Hrun as <-. exists []. rewrite app_nil_r.
      repeat split; constructor. }
    destruct (assign cpu job s) as [s1 | |] eqn:Ha; simpl in Hrun; try discriminate.
    destruct (IH jobs s1 Hrun) as (new & E & Hj & Hc & Hall).
    destruct (assign_inv _ _ _ _ Ha) as (c & rest & _ & ->). simpl in *.
    exists ((current_time s, cpu, job, c) :: new). rewrite E, <- app_assoc.
    split; [reflexivity |].
    split; [rewrite fmap_cons, Hj; reflexivity |].
    split; [rewrite fmap_cons, Hc; reflexivity |].
    constructor; [reflexivity | exact Hall].
Qed.

Lemma filter_all {A : Type} (p : A -> bool) (l : list A) :
  Forall (fun x => p x = true) l -> List.filter p l = l.
Proof.
  induction 1 as [| x l Hx _ IH]; simpl; [reflexivity |]. rewrite Hx, IH. reflexivity.
Qed.

(** In a dispatch round the snapshot lists the ready jobs. *)
Lemma round_snapshot_jobs (cfg : config) (s : state) :
  fst <$> job_info cfg s (available_jobs cfg s)
  = py_sorted (strf_key cfg s) (available_jobs cfg s).
Proof.
  rewrite job_info_jobs. f_equal. apply filter_all.
  eapply Forall_impl; [apply available_jobs_ready |].
  intros j (_ & Hpos & _). simpl. apply Qlt_bool_iff. exact Hpos.
Qed.

Lemma StronglySorted_take_drop {A : Type} (R : A -> A -> Prop) (l : list A) (k : nat)
    (x y : A) :
  StronglySorted R l -> In x (take k l) -> In y (drop k l) -> R x y.
Proof.
  intros Hs Hx Hy. rewrite <- (take_drop k l) in Hs.
  apply List.in_split in Hx. destruct Hx as (l1 & l2 & Ex).
  apply List.in_split in Hy. destruct Hy as (l3 & l4 & Ey).
  rewrite Ex, Ey in Hs.
  replace ((l1 ++ x :: l2) ++ l3 ++ y :: l4)
    with (l1 ++ x :: (l2 ++ l3) ++ y :: l4) in Hs
    by (rewrite <- !app_assoc; reflexivity).
  exact (StronglySorted_pair R l1 (l2 ++ l3) l4 x y Hs).
Qed.

(** A dispatch round gives the free processors, in the order of their
    numbers, to the ready jobs in the order of the snapshot that the round
    records, one job per processor, until the processors or the jobs run
    out.  The jobs of the snapshot are the ready jobs, in ascending order of
    [(remaining_time, arrival_time)]: no job that is left waiting has a
    smaller key than a job that is dispatched. *)
Theorem dispatch_round_order (cfg : config) (s s' : state) (fl : flow) :
  loop_body cfg s = Ok (s', fl) ->
  dispatch_round cfg (release_completed cfg s) = true ->
  exists (order : list nat) (new : list (Q * nat * nat * Q)),
    order = fst <$> job_info cfg s (available_jobs cfg (release_completed cfg s))
    /\ order ≡ₚ available_jobs cfg (release_completed cfg s)
    /\ gantt_data s' = gantt_data s ++ new
    /\ record_job <$> new
       = take (length (available_cpus cfg (release_completed cfg s))) order
    /\ record_cpu <$> new
       = take (length order) (available_cpus cfg (release_completed cfg s))
    /\ Forall (fun r => record_start r = current_time s) new
    /\ forall j j' : nat,
         In j (record_job <$> new) ->
         In j' (drop (length (available_cpus cfg (release_completed cfg s))) order) ->
         key_le (strf_key cfg s j) (strf_key cfg s j').
Proof.
  intros Hb Hround. destruct (loop_body_inv cfg s s' fl Hb) as (s1 & Hd & Ha).
  destruct (advance_fields cfg s1 s' fl Ha)
    as (_ & _ & _ & _ & _ & _ & _ & -> & _).
  destruct (release_completed_fields cfg s)
    as (E1 & _ & _ & _ & _ & E6 & _ & E8 & _ & _).
  set (r := release_completed cfg s) in *.
  destruct (dispatch_round_inv cfg r s1 Hround Hd) as (_ & _ & _ & s2 & Hrun & ->).
  destruct (capture_queue_state_fields cfg (current_time r) (available_jobs cfg r) r)
    as (G1 & _ & _ & _ & _ & _ & _ & G8 & G9 & _ & _).
  assert (Hkey : strf_key cfg (capture_queue_state cfg (current_time r)
                                 (available_jobs cfg r) r) = strf_key cfg s).
  { unfold strf_key. rewrite G1, E1. reflexivity. }
  rewrite Hkey in Hrun.
  assert (Hkey' : strf_key cfg r = strf_key cfg s).
  { unfold strf_key. rewrite E1. reflexivity. }
  assert (Horder : fst <$> job_info cfg s (available_jobs cfg r)
                   = py_sorted (strf_key cfg s) (available_jobs cfg r)).
  { rewrite (job_info_ext cfg s r) by congruence.
    rewrite round_snapshot_jobs, Hkey'. reflexivity. }
  destruct (assign_jobs_records _ _ _ _ Hrun) as (new & E & Hj & Hc & Hall).
  exists (py_sorted (strf_key cfg s) (available_jobs cfg r)), new.
  split; [symmetry; exact Horder |].
  split; [apply py_sorted_Permutation |].
  split; [simpl; rewrite E, G8, E6; reflexivity |].
  split; [exact Hj |]. split; [exact Hc |].
  split; [rewrite G9, E8 in Hall; exact Hall |].
  intros j j' Hin Hin'. rewrite Hj in Hin.
  exact (StronglySorted_take_drop _ _ _ j j'
           (py_sorted_ascending (strf_key cfg s) (available_jobs cfg r)) Hin Hin').
Qed.

Lemma dispatch_round_order_witness :
  exists (order : list nat) (new : list (Q * nat * nat * Q)),
    order = [0%nat; 1%nat]
    /\ new = [(0, 0%nat, 0%nat, 1); (0, 1%nat, 1%nat, 1)]
    /\ record_job <$> new = take 2 order.
Proof.
  destruct (loop_body scenario_B (initial_state scenario_B [[1; 1]; [1; 1; 1; 1]]))
    as [[s' fl] | |] eqn:Hb; [| vm_compute in Hb; discriminate ..].
  destruct (dispatch_round_order scenario_B _ s' fl Hb eq_refl)
    as (order & new & Ho & _ & Hg & Hj & _).
  exists order, new.
  assert (E : order = [0%nat; 1%nat]) by (rewrite Ho; reflexivity).
  split; [exact E |]. split; [| exact Hj].
  vm_compute in Hb. injection Hb as <- _. simpl in Hg.
  exact (eq_sym Hg).
Defined.

(** ** Ties *)

Lemma StronglySorted_filter {A : Type} (R : A -> A -> Prop) (p : A -> bool) (l : list A) :
  StronglySorted R l -> StronglySorted R (List.filter p l).
Proof.
  induction 1 as [| x l Hs IH Hall]; simpl; [constructor |].
  destruct (p x); [| exact IH]. constructor; [exact IH |].
  apply List.Forall_forall. intros y Hy. apply List.filter_In in Hy.
  rewrite List.Forall_forall in Hall. apply Hall. tauto.
Qed.

Lemma seq_increasing (a n : nat) : StronglySorted lt (seq a n).
Proof.
  revert a. induction n as [| n IH]; intros a; simpl; constructor; [apply IH |].
  apply List.Forall_forall. intros y Hy. apply List.in_seq in Hy. lia.
Qed.

Lemma insert_by_key_before (key : nat -> Q * Q) (x : nat) (l : list nat) :
  Forall (fun y => (x < y)%nat) l ->
  StronglySorted (strf_before key) l ->
  StronglySorted (strf_before key) (insert_by_key key x l).
Proof.
  intros Hx. induction 1 as [| y l Hs IH Hall]; simpl.
  - constructor; constructor.
  - apply Forall_cons in Hx. destruct Hx as [Hxy Hx].
    destruct (key_lt (key y) (key x)) eqn:E.
    + constructor; [exact (IH Hx) |].
      rewrite insert_by_key_Permutation. constructor; [| exact Hall].
      apply key_lt_true in E. split.
      * unfold key_le. destruct E as [E | [E1 E2]]; [auto |].
        right. split; [exact E1 | lra].
      * unfold key_le. intros [H | [H1 H2]]; destruct E as [E | [E1 E2]]; lra.
    + apply key_lt_false in E.
      assert (Hbefore : strf_before key x y) by (split; [exact E | intros _; exact Hxy]).
      constructor; [constructor; assumption |]. constructor; [exact Hbefore |].
      rewrite List.Forall_forall in *. intros z Hz.
      destruct (Hall z Hz) as [Hyz _]. split.
      * exact (key_le_trans _ _ _ E Hyz).
      * intros _. exact (Hx z Hz).
Qed.

Lemma py_sorted_before (key : nat -> Q * Q) (l : list nat) :
  StronglySorted lt l -> StronglySorted (strf_before key) (py_sorted key l).
Proof.
  induction 1 as [| x l Hs IH Hall]; simpl; [constructor |].
  apply insert_by_key_before; [| exact IH].
  rewrite py_sorted_Permutation. exact Hall.
Qed.

(** Jobs that are tied on [(remaining_time, arrival_time)] are served in
    the order of their job numbers: in the order in which a dispatch round
    takes the ready jobs, and in the job sequence of the initial snapshot, a
    job comes before every job with a larger key and before the jobs with an
    equal key and a larger number. *)
Theorem ties_broken_by_job_number (cfg : config) (s : state) :
  StronglySorted (strf_before (strf_key cfg s))
    (py_sorted (strf_key cfg s) (available_jobs cfg s))
  /\ StronglySorted (strf_before (strf_key cfg s))
       (fst <$> job_info cfg s (initial_available_jobs cfg)).
Proof.
  split.
  - apply py_sorted_before. apply StronglySorted_filter, seq_increasing.
  - rewrite job_info_jobs. apply py_sorted_before.
    apply StronglySorted_filter. apply StronglySorted_filter, seq_increasing.
Qed.

(** * The chart *)

Lemma py_int_zero_iff (x : Q) : py_int x = 0%Z <-> -1 < x /\ x < 1.
Proof.
  unfold py_int. destruct x as [a b]. unfold Qlt. simpl.
  rewrite Z.quot_small_iff by discriminate. lia.
Qed.

Lemma py_range_None (start stop step : Z) :
  py_range start stop step = None <-> step = 0%Z.
Proof.
  unfold py_range. destruct (Z.eqb_spec step 0); split; congruence.
Qed.

(** For a positive step, [range(0, stop, step)] has the multiples of the
    step from 0 up to, and not including, [stop]. *)
Lemma py_range_multiples (stop step : Z) (l : list Z) (t : Z) :
  (0 < step)%Z -> py_range 0 stop step = Some l ->
  In t l <-> (0 <= t < stop)%Z /\ (t mod step = 0)%Z.
Proof.
  intros Hstep. unfold py_range, py_range_length. rewrite Z.sub_0_r.
  destruct (Z.eqb_spec step 0) as [| _]; [lia |].
  destruct (Z.ltb_spec 0 step) as [_ |]; [| lia].
  intros [= <-]. rewrite <- list_elem_of_In, list_elem_of_fmap. split.
  - intros (i & -> & Hi). apply list_elem_of_In, List.in_seq in Hi.
    rewrite Z.add_0_l, Z.mod_mul by lia. split; [| reflexivity].
    destruct (Z.ltb_spec 0 stop) as [Hpos | Hneg]; [| simpl in Hi; lia].
    assert (Hq : (Z.of_nat i <= (stop - 1) / step)%Z) by lia.
    pose proof (Z.mul_div_le (stop - 1) step Hstep). nia.
  - intros [[H0 Hlt] Hmod]. exists (Z.to_nat (t / step)).
    assert (Ht : (t = step * (t / step))%Z).
    { rewrite (Z.div_mod t step) at 1 by lia. lia. }
    assert (Hd : (0 <= t / step)%Z) by (apply Z.div_pos; lia).
    split; [rewrite Z2Nat.id by exact Hd; lia |].
    apply list_elem_of_In, List.in_seq.
    destruct (Z.ltb_spec 0 stop) as [_ |]; [| lia].
    assert (Hle : (t / step <= (stop - 1) / step)%Z)
      by (apply Z.div_le_mono; lia).
    lia.
Qed.

Lemma whole_times (stop t : Z) :
  In t ((fun i : nat => Z.of_nat i) <$> seq 0 (Z.to_nat stop)) <-> (0 <= t < stop)%Z.
Proof.
  rewrite <- list_elem_of_In, list_elem_of_fmap. split.
  - intros (i & -> & Hi). apply list_elem_of_In, List.in_seq in Hi. lia.
  - intros H. exists (Z.to_nat t). split; [lia |].
    apply list_elem_of_In, List.in_seq. lia.
Qed.

(** What a successful run gives to the chart. *)
Lemma chart_input (cfg : config) (fuel : nat) (o : output) (end_times : list Q) :
  simulate cfg fuel = Ok o ->
  end_times ≡ₚ r_end_time <$> o_results o ->
  end_times <> []
  /\ forallb (fun r => (record_cpu r <? num_cpus cfg)%nat
                       && (record_job r <? length (processes cfg))%nat)
       (o_gantt_data o) = true
  /\ num_cpus cfg <> 0%nat.
Proof.
  intros Hrun Hperm.
  destruct (simulate_inv cfg fuel o Hrun) as (fl & s & rs & avg & Hr & Hres & ->).
  simpl in *. destruct (results_inv cfg s rs avg Hres) as (Hne & _ & Hrows).
  destruct (timeline_reached cfg fl s Hr) as (_ & _ & _ & _ & Hok & _).
  split; [| split].
  - intros ->. apply Permutation_nil in Hperm. destruct rs; [congruence | discriminate].
  - apply List.forallb_forall. intros r Hin. rewrite List.Forall_forall in Hok.
    destruct (Hok r Hin) as (H1 & H2 & _).
    apply andb_true_iff. split; apply Nat.ltb_lt; assumption.
  - destruct rs as [| r0 rs]; [congruence |].
    unfold job_ids in Hrows. destruct (length (processes cfg)) as [| n];
      [inversion Hrows |].
    simpl in Hrows. apply Forall2_cons in Hrows. destruct Hrows as [Hrow _].
    destruct (job_result_of_inv cfg s 0 r0 Hrow) as (st & en & Hst & _).
    pose proof (started_at_first_record_reached cfg fl s Hr 0%nat) as Hfirst.
    rewrite Hst in Hfirst. destruct Hfirst as (r & (g1 & g2 & Hg & _) & _).
    rewrite List.Forall_forall in Hok.
    destruct (Hok r) as (_ & Hcpu & _); [rewrite Hg; apply in_elt |]. lia.
Qed.

(** After a successful run, the chart is drawn if the whole part of the
    quantum is not zero, and drawing raises [ValueError] (from [range] with
    a step of 0, line 169) if it is zero, that is for every quantum strictly
    between -1 and 1. *)
Theorem chart_needs_whole_quantum (cfg : config) (fuel : nat) (o : output)
    (end_times : list Q) :
  simulate cfg fuel = Ok o ->
  end_times ≡ₚ r_end_time <$> o_results o ->
  (draw_gantt_with_queue cfg end_times (o_gantt_data o) (o_queue_snapshots o)
   = ChartValueError
   <-> -1 < quantum_time cfg /\ quantum_time cfg < 1)
  /\ (~ (-1 < quantum_time cfg /\ quantum_time cfg < 1) ->
      exists c : chart,
        draw_gantt_with_queue cfg end_times (o_gantt_data o) (o_queue_snapshots o)
        = Chart c).
Proof.
  intros Hrun Hperm.
  destruct (chart_input cfg fuel o end_times Hrun Hperm) as (Hne & Hok & Hcpus).
  rewrite <- py_int_zero_iff. unfold draw_gantt_with_queue.
  destruct end_times as [| e es]; [congruence |]. rewrite Hok.
  destruct (py_range 0 (py_int (py_max e es) + 1) (py_int (quantum_time cfg)))
    as [l |] eqn:Hrange.
  - assert (Hstep : py_int (quantum_time cfg) <> 0%Z).
    { intros H0.
      apply (py_range_None 0 (py_int (py_max e es) + 1)) in H0. congruence. }
    destruct (o_queue_snapshots o), (num_cpus cfg); try congruence;
      (split; [split; [discriminate | contradiction] | eauto]).
  - apply py_range_None in Hrange. split; [tauto | contradiction].
Qed.

Lemma chart_needs_whole_quantum_witness :
  exists o : output,
    simulate half_quantum 2 = Ok o
    /\ draw_gantt_with_queue half_quantum [1] (o_gantt_data o) (o_queue_snapshots o)
       = ChartValueError.
Proof.
  destruct (simulate half_quantum 2) as [o | |] eqn:Hrun;
    [| vm_compute in Hrun; discriminate ..].
  exists o. split; [reflexivity |].
  apply (chart_needs_whole_quantum half_quantum 2 o [1] Hrun).
  - vm_compute in Hrun. injection Hrun as <-. reflexivity.
  - split; reflexivity.
Defined.

(** With a quantum of 1 or more, every whole time from 0 to the whole part
    of the largest end time gets exactly one vertical line: a quantum mark
    if it is a multiple of the whole part of the quantum, a plain time mark
    if it is not.  No other line is drawn. *)
Theorem chart_lines (cfg : config) (fuel : nat) (o : output) (e : Q) (es : list Q) :
  simulate cfg fuel = Ok o ->
  e :: es ≡ₚ r_end_time <$> o_results o ->
  (0 < py_int (quantum_time cfg))%Z ->
  exists c : chart,
    draw_gantt_with_queue cfg (e :: es) (o_gantt_data o) (o_queue_snapshots o) = Chart c
    /\ forall t : Z,
         (In t (c_quantum_lines c)
          <-> (0 <= t <= py_int (py_max e es))%Z
              /\ (t mod py_int (quantum_time cfg) = 0)%Z)
         /\ (In t (c_time_lines c)
             <-> (0 <= t <= py_int (py_max e es))%Z
                 /\ (t mod py_int (quantum_time cfg) <> 0)%Z).
Proof.
  intros Hrun Hperm Hstep.
  destruct (chart_input cfg fuel o (e :: es) Hrun Hperm) as (_ & Hok & Hcpus).
  unfold draw_gantt_with_queue. rewrite Hok.
  destruct (py_range 0 (py_int (py_max e es) + 1) (py_int (quantum_time cfg)))
    as [l |] eqn:Hrange; [| apply py_range_None in Hrange; lia].
  assert (Hlines : forall t : Z,
            (In t l <-> (0 <= t <= py_int (py_max e es))%Z
                        /\ (t mod py_int (quantum_time cfg) = 0)%Z)
            /\ (In t (List.filter
                        (fun t => negb (t mod py_int (quantum_time cfg) =? 0)%Z)
                        ((fun i : nat => Z.of_nat i)
                           <$> seq 0 (Z.to_nat (py_int (py_max e es) + 1))))
                <-> (0 <= t <= py_int (py_max e es))%Z
                    /\ (t mod py_int (quantum_time cfg) <> 0)%Z)).
  { intros t. split.
    - rewrite (py_range_multiples _ _ l t Hstep Hrange). lia.
    - rewrite List.filter_In, whole_times, negb_true_iff, Z.eqb_neq. lia. }
  destruct (o_queue_snapshots o); [eexists; split; [reflexivity | exact Hlines] |].
  destruct (num_cpus cfg); [congruence |].
  eexists; split; [reflexivity | exact Hlines].
Qed.

Lemma chart_lines_witness :
  exists c : chart,
    c_quantum_lines c = [0%Z; 1%Z; 2%Z; 3%Z; 4%Z] /\ c_time_lines c = []
    /\ forall t : Z,
         In t (c_quantum_lines c)
         <-> (0 <= t <= py_int (py_max 2 [4])%Q)%Z
             /\ (t mod py_int (quantum_time scenario_B) = 0)%Z.
Proof.
  destruct (simulate scenario_B 5) as [o | |] eqn:Hrun;
    [| vm_compute in Hrun; discriminate ..].
  destruct (chart_lines scenario_B 5 o 2 [4] Hrun) as (c & Hc & Hlines).
  - vm_compute in Hrun. injection Hrun as <-. reflexivity.
  - reflexivity.
  - exists c. vm_compute in Hrun. injection Hrun as <-.
    vm_compute in Hc. injection Hc as <-.
    split; [reflexivity |]. split; [reflexivity |]. intros t. apply Hlines.
Defined.

Lemma py_max_ge (x : Q) (xs : list Q) : Forall (fun y => y <= py_max x xs) (x :: xs).
Proof.
  unfold py_max. revert x. induction xs as [| y xs IH]; intros x; simpl.
  - constructor; [lra | constructor].
  - specialize (IH (if Qlt_bool x y then y else x)).
    inversion IH as [| ? ? H1 H2]; subst.
    destruct (Qlt_bool x y) eqn:E.
    + apply Qlt_bool_iff in E. constructor; [lra |]. constructor; assumption.
    + assert (y <= x).
      { destruct (Qlt_le_dec x y) as [H | H]; [| exact H].
        apply Qlt_bool_iff in H. congruence. }
      constructor; [exact H1 |]. constructor; [lra | exact H2].
Qed.

(** The clock never goes below 0, and no execution record starts before
    time 0. *)
Lemma clock_nonneg_reached (cfg : config) (fl : flow) (s : state) :
  reached cfg fl s ->
  0 <= current_time s /\ Forall (fun r => 0 <= record_start r) (gantt_data s).
Proof.
  apply (reached_preserves cfg
           (fun s => 0 <= current_time s
                     /\ Forall (fun r => 0 <= record_start r) (gantt_data s))).
  - intros s0 cpu.
    destruct (release_cpu_fields s0 cpu) as (_ & _ & _ & _ & _ & E6 & _ & E8 & _).
    rewrite E6, E8. auto.
  - intros s0 jobs.
    destruct (capture_queue_state_fields cfg (current_time s0) jobs s0)
      as (_ & _ & _ & _ & _ & _ & _ & E8 & E9 & _). rewrite E8, E9. auto.
  - intros s0 s1 cpu job [H1 H2] _ _ Ha.
    destruct (assign_inv _ _ _ _ Ha) as (c & rest & _ & ->). simpl.
    split; [exact H1 |]. apply Forall_app. split; [exact H2 |].
    constructor; [exact H1 | constructor].
  - intros s0 H _. exact H.
  - intros s0 t [H1 H2] Hlt. simpl. split; [lra | exact H2].
  - intros chunks fuel _. simpl. split; [lra | constructor].
Qed.

(** Every queue snapshot is the initial one, taken at time 0, or belongs to
    a dispatch round, in which an execution record starts at the time of
    the snapshot. *)
Lemma snapshot_times_reached (cfg : config) (fl : flow) (s : state) :
  reached cfg fl s ->
  Forall (fun q => fst q = 0
                   \/ exists r, In r (gantt_data s) /\ record_start r = fst q)
         (queue_snapshots s).
Proof.
  induction 1 as [fuel chunks Hc | s s' fl Hr IH Hlt Hb].
  - unfold initial_state, capture_queue_state.
    destruct (job_info cfg (setup cfg chunks) _); simpl; [constructor |].
    constructor; [left; reflexivity | constructor].
  - destruct (loop_body_inv cfg s s' fl Hb) as (s1 & Hd & Ha).
    destruct (advance_fields cfg s1 s' fl Ha)
      as (_ & _ & _ & _ & _ & _ & _ & -> & -> & _).
    destruct (release_completed_fields cfg s)
      as (_ & _ & _ & _ & _ & E6 & E7 & E8 & _ & _).
    set (r := release_completed cfg s) in *.
    destruct (dispatch_round cfg r) eqn:Hround.
    + destruct (dispatch_round_inv cfg r s1 Hround Hd)
        as (_ & Hcpus & Hjobs & s2 & Hrun & ->). simpl.
      destruct (assign_jobs_records _ _ _ _ Hrun) as (new & E & Hj & _ & Hall).
      destruct (assign_jobs_fields _ _ _ _ Hrun) as (_ & _ & Hq).
      rewrite Hq, E.
      assert (Hold : Forall
                (fun q => fst q = 0
                          \/ exists r0, In r0 (gantt_data s ++ new)
                                        /\ record_start r0 = fst q)
                (queue_snapshots s)).
      { eapply Forall_impl; [exact IH |]. intros q [H0 | (r0 & Hin & Hst)]; [auto |].
        right. exists r0. split; [apply List.in_or_app; auto | exact Hst]. }
      unfold capture_queue_state in *.
      destruct (job_info cfg r (available_jobs cfg r)) as [| i info]; simpl in *;
        rewrite E6, E7; [exact Hold |].
      apply Forall_app. split; [exact Hold |]. constructor; [| constructor].
      right. destruct new as [| r0 new].
      * exfalso. simpl in Hj. symmetry in Hj.
        destruct (available_cpus cfg r) as [| c cs]; [congruence |].
        pose proof (py_sorted_Permutation (strf_key cfg r) (available_jobs cfg r)) as Hp.
        destruct (py_sorted _ (available_jobs cfg r)) as [| j js] eqn:Es.
        -- apply Permutation_nil in Hp. congruence.
        -- simpl in Hj. discriminate.
      * exists r0. split; [apply List.in_or_app; right; left; reflexivity |].
        apply Forall_cons in Hall. simpl. tauto.
    + unfold dispatch in Hd. rewrite Hround in Hd. injection Hd as <-.
      rewrite E6, E7. exact IH.
Qed.

Lemma record_ends_before_last (gantt : list (Q * nat * nat * Q)) (j : nat)
    (r rl : Q * nat * nat * Q) :
  one_at_a_time_per_job gantt -> last_record_of j rl gantt ->
  In r gantt -> record_job r = j -> 0 < record_duration rl ->
  record_end r <= record_end rl.
Proof.
  intros Hs (g1 & g2 & -> & Hj & Hnone) Hin Hr Hpos.
  apply List.in_app_or in Hin. destruct Hin as [Hin | [<- | Hin]].
  - apply List.in_split in Hin. destruct Hin as (l1 & l2 & ->).
    rewrite <- app_assoc in Hs. simpl in Hs.
    pose proof (StronglySorted_pair _ l1 l2 g2 r rl Hs) as H.
    unfold record_end in *. specialize (H (eq_trans Hr (eq_sym Hj))). lra.
  - lra.
  - rewrite List.Forall_forall in Hnone. destruct (Hnone r Hin Hr).
Qed.

(** What a successful run gives to the chart: a largest end time, at which
    every execution record is over, and before which every queue snapshot
    was taken. *)
Lemma chart_run (cfg : config) (fuel : nat) (o : output) (end_times : list Q) :
  simulate cfg fuel = Ok o ->
  end_times ≡ₚ r_end_time <$> o_results o ->
  exists (e : Q) (es : list Q),
    end_times = e :: es
    /\ Forall (fun r => (record_cpu r < num_cpus cfg)%nat
                        /\ 0 <= record_start r
                        /\ 0 < record_duration r
                        /\ record_end r <= py_max e es) (o_gantt_data o)
    /\ Forall (fun q => 0 <= fst q /\ fst q < py_max e es) (o_queue_snapshots o).
Proof.
  intros Hrun Hperm.
  destruct (chart_input cfg fuel o end_times Hrun Hperm) as (Hne & _ & _).
  destruct end_times as [| e es]; [congruence |]. exists e, es.
  split; [reflexivity |].
  destruct (simulate_inv cfg fuel o Hrun) as (fl & s & rs & avg & Hr & Hres & ->).
  simpl in *. destruct (results_inv cfg s rs avg Hres) as (Hrs & _ & Hrows).
  destruct (timeline_reached cfg fl s Hr) as (_ & _ & _ & _ & Hok & _ & _ & _ & Hjob).
  destruct (clock_nonneg_reached cfg fl s Hr) as [_ Hstart].
  pose proof (ended_at_last_record_reached cfg fl s Hr) as Hend.
  pose proof (snapshot_times_reached cfg fl s Hr) as Hsnap.
  rewrite List.Forall_forall in Hok, Hstart.
  assert (Hbars : Forall (fun r => (record_cpu r < num_cpus cfg)%nat
                                   /\ 0 <= record_start r
                                   /\ 0 < record_duration r
                                   /\ record_end r <= py_max e es) (gantt_data s)).
  { apply List.Forall_forall. intros r Hin.
    destruct (Hok r Hin) as (Hlt & Hcpu & _ & _ & Hpos & _).
    split; [exact Hcpu |]. split; [exact (Hstart r Hin) |]. split; [exact Hpos |].
    assert (Hj : job_ids cfg !! record_job r = Some (record_job r)).
    { unfold job_ids. rewrite lookup_seq_lt by exact Hlt. reflexivity. }
    destruct (Forall2_lookup_l _ _ _ _ _ Hrows Hj) as (row & Hrow & Hres').
    destruct (job_result_of_inv cfg s _ row Hres') as (st & en & _ & Hen & ->).
    destruct (Hend _ en Hen) as ((rl & Hlast & ->) & _).
    assert (Hin' : In (record_end rl) (e :: es)).
    { apply list_elem_of_In. rewrite Hperm. apply list_elem_of_fmap.
      eexists. split; [| eapply list_elem_of_lookup_2; exact Hrow]. reflexivity. }
    pose proof (py_max_ge e es) as Hmax. rewrite List.Forall_forall in Hmax.
    specialize (Hmax _ Hin').
    assert (Hpos' : 0 < record_duration rl).
    { destruct Hlast as (g1 & g2 & Hg & _).
      destruct (Hok rl) as (_ & _ & _ & _ & H & _); [| exact H].
      rewrite Hg. apply in_elt. }
    pose proof (record_ends_before_last _ _ r rl Hjob Hlast Hin eq_refl Hpos').
    lra. }
  split; [exact Hbars |].
  rewrite List.Forall_forall in Hbars.
  assert (Hlate : forall r, In r (gantt_data s) -> record_start r < py_max e es).
  { intros r Hin. destruct (Hbars r Hin) as (_ & _ & H1 & H2).
    unfold record_end in H2. lra. }
  eapply Forall_impl; [exact Hsnap |]. intros q [H0 | (r & Hin & Hst)].
  - rewrite H0. split; [lra |].
    destruct rs as [| r0 rs']; [congruence |].
    unfold job_ids in Hrows. destruct (length (processes cfg)) as [| n];
      [inversion Hrows |].
    simpl in Hrows. apply Forall2_cons in Hrows. destruct Hrows as [Hrow _].
    destruct (job_result_of_inv cfg s 0 r0 Hrow) as (st & en & Hst & _).
    pose proof (started_at_first_record_reached cfg fl s Hr 0%nat) as Hfirst.
    rewrite Hst in Hfirst. destruct Hfirst as (r & (g1 & g2 & Hg & _) & _).
    assert (Hin : In r (gantt_data s)) by (rewrite Hg; apply in_elt).
    pose proof (Hstart r Hin). pose proof (Hlate r Hin). lra.
  - rewrite <- Hst. split; [exact (Hstart r Hin) | exact (Hlate r Hin)].
Qed.

(** After a successful run, the chart has one bar per execution record, on
    the row of the record's processor, which is one of the rows 1 to
    [num_cpus]; every bar has a positive width and lies within the limits
    of the time axis, which are 0 and the largest end time plus 0.5. *)
Theorem chart_bars_fit (cfg : config) (fuel : nat) (o : output)
    (end_times : list Q) (c : chart) :
  simulate cfg fuel = Ok o ->
  end_times ≡ₚ r_end_time <$> o_results o ->
  draw_gantt_with_queue cfg end_times (o_gantt_data o) (o_queue_snapshots o) = Chart c ->
  length (c_bars c) = length (o_gantt_data o)
  /\ Forall (fun bar =>
               (1 <= fst (fst bar) <= Z.of_nat (num_cpus cfg))%Z
               /\ fst (c_xlim c) <= snd (fst bar)
               /\ 0 < snd bar
               /\ snd (fst bar) + snd bar < snd (c_xlim c))
            (c_bars c).
Proof.
  intros Hrun Hperm Hdraw.
  destruct (chart_run cfg fuel o end_times Hrun Hperm) as (e & es & -> & Hbars & _).
  assert (Hc : c_bars c
               = (fun r => (cpu_ypos cfg (record_cpu r), record_start r,
                            record_duration r)) <$> o_gantt_data o
               /\ c_xlim c = (0, py_max e es + (1 # 2))).
  { unfold draw_gantt_with_queue in Hdraw.
    destruct (forallb _ _); [| discriminate].
    destruct (py_range _ _ _); [| discriminate].
    destruct (o_queue_snapshots o); [injection Hdraw as <-; auto |].
    destruct (num_cpus cfg); [discriminate |]. injection Hdraw as <-. auto. }
  destruct Hc as [-> ->]. rewrite length_fmap. split; [reflexivity |].
  apply Forall_fmap. eapply Forall_impl; [exact Hbars |].
  intros r (Hcpu & Hstart & Hpos & Hend). unfold cpu_ypos, record_end in *. simpl.
  split; [lia |]. split; [exact Hstart |]. split; [exact Hpos | lra].
Qed.

Lemma chart_bars_fit_witness :
  exists c : chart,
    c_bars c = [(2%Z, 0, 1); (1%Z, 0, 1); (2%Z, 1, 1); (1%Z, 1, 1);
                (2%Z, 2, 1); (2%Z, 3, 1)]
    /\ c_xlim c = (0, 9 # 2)
    /\ Forall (fun bar => snd (fst bar) + snd bar < snd (c_xlim c)) (c_bars c).
Proof.
  destruct (simulate scenario_B 5) as [o | |] eqn:Hrun;
    [| vm_compute in Hrun; discriminate ..].
  destruct (draw_gantt_with_queue scenario_B [2; 4] (o_gantt_data o)
              (o_queue_snapshots o)) as [c | |] eqn:Hdraw;
    [| vm_compute in Hrun; injection Hrun as <-; vm_compute in Hdraw; discriminate ..].
  destruct (chart_bars_fit scenario_B 5 o [2; 4] c Hrun) as (_ & Hfit).
  - vm_compute in Hrun. injection Hrun as <-. reflexivity.
  - exact Hdraw.
  - exists c. vm_compute in Hrun. injection Hrun as <-.
    vm_compute in Hdraw. injection Hdraw as <-.
    split; [reflexivity |]. split; [reflexivity |].
    eapply Forall_impl; [exact Hfit |]. intros bar H.
    exact (proj2 (proj2 (proj2 H))).
Defined.

Lemma max_length_ge {A : Type} (l : list (Q * list A)) (q : Q * list A) :
  In q l ->
  (length (snd q) <= foldr Nat.max 0 ((fun q => length (snd q)) <$> l))%nat.
Proof.
  induction l as [| x l IH]; [intros [] |].
  rewrite fmap_cons. cbn [foldr]. intros [-> | H]; [apply Nat.le_max_l |].
  specialize (IH H). etransitivity; [exact IH | apply Nat.le_max_r].
Qed.

(** After a successful run, every entry of every queue snapshot has a box
    in the chart.  The boxes lie below the rows of the processors (their
    upper edge is at -0.75 or lower) and above the lower limit of the
    vertical axis, and they end before the right limit of the time axis;
    they start at -0.25 or later, so that the boxes of a snapshot taken at
    time 0 begin to the left of the time axis, which starts at 0. *)
Theorem chart_boxes_fit (cfg : config) (fuel : nat) (o : output)
    (end_times : list Q) (c : chart) :
  simulate cfg fuel = Ok o ->
  end_times ≡ₚ r_end_time <$> o_results o ->
  draw_gantt_with_queue cfg end_times (o_gantt_data o) (o_queue_snapshots o) = Chart c ->
  length (c_boxes c) = length (o_queue_snapshots o ≫= snd)
  /\ Forall (fun box =>
               - (1 # 4) <= fst box
               /\ fst box + (1 # 2) < snd (c_xlim c)
               /\ snd box + (1 # 2) <= - (3 # 4)
               /\ exists lo : Q,
                    c_ylim c = Some (lo, inject_Z (Z.of_nat (num_cpus cfg)) + 1)
                    /\ lo < snd box)
            (c_boxes c).
Proof.
  intros Hrun Hperm Hdraw.
  destruct (chart_run cfg fuel o end_times Hrun Hperm) as (e & es & -> & _ & Hsnaps).
  assert (Hc : c_boxes c = o_queue_snapshots o ≫= snapshot_boxes
               /\ c_xlim c = (0, py_max e es + (1 # 2))
               /\ (o_queue_snapshots o <> [] ->
                   c_ylim c = Some (chart_min_y (o_queue_snapshots o),
                                    inject_Z (Z.of_nat (num_cpus cfg)) + 1))).
  { unfold draw_gantt_with_queue in Hdraw.
    destruct (forallb _ _); [| discriminate].
    destruct (py_range _ _ _); [| discriminate].
    destruct (o_queue_snapshots o) as [| q qs];
      [injection Hdraw as <-; simpl; split; [| split]; congruence |].
    destruct (num_cpus cfg); [discriminate |]. injection Hdraw as <-. simpl. auto. }
  destruct Hc as (-> & -> & Hylim). split.
  - generalize (o_queue_snapshots o). intros l.
    induction l as [| q l IH]; [reflexivity |].
    rewrite !bind_cons, !length_app, IH. unfold snapshot_boxes. rewrite length_imap. reflexivity.
  - apply List.Forall_forall. intros box Hin.
    apply list_elem_of_In, list_elem_of_bind in Hin. destruct Hin as (q & Hbox & Hq).
    apply elem_of_lookup_imap in Hbox. destruct Hbox as (i & x & -> & Hi).
    apply list_elem_of_In in Hq. rewrite List.Forall_forall in Hsnaps.
    destruct (Hsnaps q Hq) as [H0 Hlt].
    pose proof (max_length_ge _ q Hq) as Hmax.
    apply lookup_lt_Some in Hi.
    assert (Hi0 : 0 <= inject_Z (Z.of_nat i)).
    { change 0 with (inject_Z 0). rewrite <- Zle_Qle. lia. }
    simpl. split; [lra |]. split; [lra |]. split; [lra |].
    exists (chart_min_y (o_queue_snapshots o)).
    split; [apply Hylim; intros E; rewrite E in Hq; destruct Hq |].
    unfold chart_min_y.
    assert (Hle : inject_Z (Z.of_nat i)
                  <= inject_Z (Z.of_nat (foldr Nat.max 0%nat
                                ((fun q => length (snd q)) <$> o_queue_snapshots o)))).
    { rewrite <- Zle_Qle. lia. }
    lra.
Qed.

Lemma chart_boxes_fit_witness :
  exists c : chart,
    c_boxes c = [(-1 # 4, -50 # 40); (-1 # 4, -74 # 40);
                 (-1 # 4, -50 # 40); (-1 # 4, -74 # 40);
                 (3 # 4, -50 # 40); (3 # 4, -74 # 40);
                 (7 # 4, -50 # 40); (11 # 4, -50 # 40)]
    /\ c_ylim c = Some (-54 # 20, 3)
    /\ Forall (fun box => snd box + (1 # 2) <= - (3 # 4)) (c_boxes c).
Proof.
  destruct (simulate scenario_B 5) as [o | |] eqn:Hrun;
    [| vm_compute in Hrun; discriminate ..].
  destruct (draw_gantt_with_queue scenario_B [2; 4] (o_gantt_data o)
              (o_queue_snapshots o)) as [c | |] eqn:Hdraw;
    [| vm_compute in Hrun; injection Hrun as <-; vm_compute in Hdraw; discriminate ..].
  destruct (chart_boxes_fit scenario_B 5 o [2; 4] c Hrun) as (_ & Hfit).
  - vm_compute in Hrun. injection Hrun as <-. reflexivity.
  - exact Hdraw.
  - exists c. vm_compute in Hrun. injection Hrun as <-.
    vm_compute in Hdraw. injection Hdraw as <-.
    split; [reflexivity |]. split; [reflexivity |].
    eapply Forall_impl; [exact Hfit |]. intros box H.
    exact (proj1 (proj2 (proj2 H))).
Defined.

(** * The input that a successful run needs *)

Lemma dispatched_time_cons (j : nat) (r : Q * nat * nat * Q)
    (gantt : list (Q * nat * nat * Q)) :
  dispatched_time j (r :: gantt)
  = (if Nat.eqb (record_job r) j then record_duration r + dispatched_time j gantt
     else dispatched_time j gantt).
Proof. unfold dispatched_time. simpl. destruct (Nat.eqb (record_job r) j); reflexivity. Qed.

(** The execution records of a job, which do not overlap, add up to no
    more than the length of any time span that contains them all. *)
Lemma dispatched_span (j : nat) (gantt : list (Q * nat * nat * Q)) :
  one_at_a_time_per_job gantt ->
  forall lo hi : Q,
    lo <= hi ->
    (forall r, In r gantt -> record_job r = j ->
               lo <= record_start r /\ record_end r <= hi) ->
    dispatched_time j gantt <= hi - lo.
Proof.
  induction 1 as [| r g Hs IH Hall]; intros lo hi Hle Hin.
  - unfold dispatched_time. simpl. lra.
  - rewrite dispatched_time_cons. destruct (Nat.eqb_spec (record_job r) j) as [Hj | Hj].
    + destruct (Hin r (or_introl eq_refl) Hj) as [H1 H2].
      assert (IH' : dispatched_time j g <= hi - record_end r).
      { apply IH; [exact H2 |]. intros r' Hr' Hj'.
        rewrite List.Forall_forall in Hall.
        split; [apply (Hall r' Hr'); congruence |].
        apply Hin; [right; exact Hr' | exact Hj']. }
      unfold record_end in *. lra.
    + apply IH; [exact Hle |]. intros r' Hr'. apply Hin. right. exact Hr'.
Qed.

Lemma dispatched_time_pos (j : nat) (gantt : list (Q * nat * nat * Q))
    (r : Q * nat * nat * Q) :
  Forall (fun r' => 0 < record_duration r') gantt ->
  In r gantt -> record_job r = j -> 0 < dispatched_time j gantt.
Proof.
  intros Hpos Hin Hj.
  assert (Hnn : forall g, Forall (fun r' => 0 < record_duration r') g ->
                          0 <= dispatched_time j g).
  { induction 1 as [| x g Hx _ IH]; [unfold dispatched_time; simpl; lra |].
    rewrite dispatched_time_cons. destruct (Nat.eqb (record_job x) j); lra. }
  induction Hpos as [| x g Hx Hg IH]; [destruct Hin |].
  rewrite dispatched_time_cons. specialize (Hnn g Hg). destruct Hin as [-> | Hin].
  - rewrite Hj, Nat.eqb_refl. lra.
  - specialize (IH Hin). destruct (Nat.eqb (record_job x) j); lra.
Qed.

Lemma record_starts_after_first (gantt : list (Q * nat * nat * Q)) (j : nat)
    (r rf : Q * nat * nat * Q) :
  chronological gantt -> first_record_of j rf gantt ->
  In r gantt -> record_job r = j -> record_start rf <= record_start r.
Proof.
  intros Hs (g1 & g2 & -> & Hj & Hnone) Hin Hr.
  apply List.in_app_or in Hin. destruct Hin as [Hin | [<- | Hin]].
  - rewrite List.Forall_forall in Hnone. destruct (Hnone r Hin Hr).
  - lra.
  - apply List.in_split in Hin. destruct Hin as (l1 & l2 & ->).
    exact (StronglySorted_pair _ g1 l1 l2 rf r Hs).
Qed.

(** What the states of a successful run show of a job: its start and end
    time, the execution records between them, and its row in the results
    table. *)
Lemma successful_run_job (cfg : config) (fuel : nat) (o : output) :
  simulate cfg fuel = Ok o ->
  o_results o <> []
  /\ length (o_results o) = length (processes cfg)
  /\ o_avg_turnaround o
     = py_sum (r_turnaround_time <$> o_results o)
       / inject_Z (Z.of_nat (length (o_results o)))
  /\ Forall (fun r => (record_cpu r < num_cpus cfg)%nat
                      /\ 0 < record_duration r
                      /\ record_duration r <= chunk_unit cfg) (o_gantt_data o)
  /\ forall j : nat,
       (j < length (processes cfg))%nat ->
       exists (st en : Q) (rf : Q * nat * nat * Q),
         o_results o !! j
         = Some {| r_id := j;
                   r_arrival_time := arrival_time cfg !!! j;
                   r_burst_time := burst_time cfg !!! j;
                   r_start_time := st;
                   r_end_time := en;
                   r_turnaround_time := en - arrival_time cfg !!! j |}
         /\ arrival_time cfg !!! j <= st
         /\ In rf (o_gantt_data o) /\ record_job rf = j
         /\ dispatched_time j (o_gantt_data o) <= en - st
         /\ 0 <= burst_time cfg !!! j - dispatched_time j (o_gantt_data o)
         /\ burst_time cfg !!! j - dispatched_time j (o_gantt_data o) < tolerance.
Proof.
  intros Hrun.
  destruct (simulate_inv cfg fuel o Hrun) as (fl & s & rs & avg & Hr & Hres & ->).
  destruct (results_inv cfg s rs avg Hres) as (Hne & Havg & Hrows). simpl.
  pose proof (Forall2_length _ _ _ Hrows) as Hlen.
  unfold job_ids in Hlen. rewrite length_seq in Hlen.
  destruct (timeline_reached cfg fl s Hr)
    as (_ & _ & _ & _ & Hok & _ & Hchron & _ & Hjob).
  destruct (times_ordered_reached cfg fl s Hr) as [Hstart Hend].
  split; [exact Hne |]. split; [congruence |]. split; [exact Havg |]. split.
  { eapply Forall_impl; [exact Hok |]. intros r (_ & H1 & _ & _ & H2 & H3). auto. }
  intros j Hlt.
  assert (Hj : job_ids cfg !! j = Some j).
  { unfold job_ids. rewrite lookup_seq_lt by exact Hlt. reflexivity. }
  destruct (Forall2_lookup_l _ _ _ _ _ Hrows Hj) as (row & Hrow & Hres').
  destruct (job_result_of_inv cfg s j row Hres') as (st & en & Hst & Hen & ->).
  pose proof (started_at_first_record_reached cfg fl s Hr j) as Hfirst.
  rewrite Hst in Hfirst. destruct Hfirst as (rf & Hfirst & ->).
  destruct (ended_at_last_record_reached cfg fl s Hr j en Hen)
    as ((rl & Hlast & ->) & H0 & H1).
  pose proof (work_conserved_reached cfg fl s Hr j Hlt) as Hwork.
  rewrite List.Forall_forall in Hok.
  assert (Hinf : In rf (gantt_data s) /\ record_job rf = j).
  { destruct Hfirst as (g1 & g2 & Hg & Hjf & _).
    split; [rewrite Hg; apply in_elt | exact Hjf]. }
  assert (Hinl : In rl (gantt_data s) /\ record_job rl = j).
  { destruct Hlast as (g1 & g2 & Hg & Hjl & _).
    split; [rewrite Hg; apply in_elt | exact Hjl]. }
  destruct Hinl as [Hinl Hjl].
  assert (Hposl : 0 < record_duration rl) by (apply (Hok rl Hinl)).
  pose proof (record_starts_after_first _ j rl rf Hchron Hfirst Hinl Hjl) as Hfl.
  exists (record_start rf), (record_end rl), rf.
  split; [exact Hrow |]. split; [apply (Hstart j _ Hst) |].
  split; [tauto |]. split; [tauto |]. split; [| lra].
  apply dispatched_span; [exact Hjob | unfold record_end; lra |].
  intros r Hin Hjr. split.
  - exact (record_starts_after_first _ j r rf Hchron Hfirst Hin Hjr).
  - exact (record_ends_before_last _ j r rl Hjob Hlast Hin Hjr Hposl).
Qed.

(** A run ends with a results table only on input that keeps the input
    contract: at least one job and one processor, a positive chunk unit,
    and a positive burst time for every job.  On any other input the run
    raises an error or does not end. *)
Theorem successful_run_needs_valid_input (cfg : config) (fuel : nat) (o : output) :
  simulate cfg fuel = Ok o ->
  processes cfg <> []
  /\ (0 < num_cpus cfg)%nat
  /\ 0 < chunk_unit cfg
  /\ Forall (fun p => 0 < p_burst_time p) (processes cfg).
Proof.
  intros Hrun.
  destruct (successful_run_job cfg fuel o Hrun) as (Hne & Hlen & _ & Hok & Hjobs).
  assert (Hpos : (0 < length (processes cfg))%nat).
  { rewrite <- Hlen. destruct (o_results o); [congruence | simpl; lia]. }
  rewrite List.Forall_forall in Hok.
  destruct (Hjobs 0%nat Hpos) as (_ & _ & rf & _ & _ & Hin & _).
  destruct (Hok rf Hin) as (Hcpu & Hdur & Hunit).
  split; [intros E; rewrite E in Hpos; simpl in Hpos; lia |].
  split; [lia |]. split; [lra |].
  apply Forall_lookup. intros j p Hp.
  pose proof (lookup_lt_Some _ _ _ Hp) as Hlt.
  destruct (Hjobs j Hlt) as (_ & _ & r & _ & _ & Hr & Hj & _ & Hwork & _).
  assert (Hb : burst_time cfg !!! j = p_burst_time p).
  { apply list_lookup_total_correct. unfold burst_time.
    rewrite list_lookup_fmap, Hp. reflexivity. }
  rewrite Hb in Hwork.
  assert (Hall : Forall (fun r' => 0 < record_duration r') (o_gantt_data o)).
  { apply List.Forall_forall. intros r' Hr'. apply (Hok r' Hr'). }
  pose proof (dispatched_time_pos j _ r Hall Hr Hj). lra.
Qed.

Lemma successful_run_needs_valid_input_witness :
  exists o : output,
    simulate scenario_B 5 = Ok o
    /\ Forall (fun p => 0 < p_burst_time p) (processes scenario_B).
Proof.
  destruct (simulate scenario_B 5) as [o | |] eqn:Hrun;
    [| vm_compute in Hrun; discriminate ..].
  exists o. split; [reflexivity |].
  exact (proj2 (proj2 (proj2 (successful_run_needs_valid_input scenario_B 5 o Hrun)))).
Defined.

(** * Binary64 *)

(** ** Rounding *)

Lemma round_half_even_cases (x : Q) :
  (round_half_even x = Qfloor x /\ x - inject_Z (Qfloor x) <= 1 # 2)
  \/ (round_half_even x = (Qfloor x + 1)%Z /\ 1 # 2 <= x - inject_Z (Qfloor x)).
Proof.
  unfold round_half_even.
  destruct (Qcompare (x - inject_Z (Qfloor x)) (1 # 2)) eqn:E.
  - apply Qeq_alt in E. destruct (Z.even (Qfloor x)); [left | right]; split;
      try reflexivity; lra.
  - apply Qlt_alt in E. left. split; [reflexivity | lra].
  - apply Qgt_alt in E. right. split; [reflexivity | lra].
Qed.

Lemma round_half_even_le_Z (x : Q) (n : Z) :
  x <= inject_Z n -> (round_half_even x <= n)%Z.
Proof.
  intros H. pose proof (Qfloor_le x) as Hf.
  destruct (round_half_even_cases x) as [[-> _] | [-> Hh]].
  - rewrite Zle_Qle. lra.
  - assert (Hlt : (Qfloor x < n)%Z) by (rewrite Zlt_Qlt; lra). lia.
Qed.

Lemma round_half_even_ge_Z (x : Q) (n : Z) :
  inject_Z n <= x -> (n <= round_half_even x)%Z.
Proof.
  intros H. assert (Hf : (n <= Qfloor x)%Z).
  { rewrite <- (Qfloor_Z n). apply Qfloor_resp_le. exact H. }
  destruct (round_half_even_cases x) as [[-> _] | [-> _]]; lia.
Qed.


Lemma round_half_even_comp (x y : Q) : x == y -> round_half_even x = round_half_even y.
Proof.
  intros H. unfold round_half_even. rewrite (Qfloor_comp x y H).
  rewrite (Qcompare_comp (x - inject_Z (Qfloor y)) (y - inject_Z (Qfloor y))
             ltac:(lra) (1 # 2) (1 # 2) ltac:(lra)).
  reflexivity.
Qed.

Lemma round_half_even_mono (x y : Q) :
  x <= y -> (round_half_even x <= round_half_even y)%Z.
Proof.
  intros H. pose proof (Qfloor_resp_le x y H) as Hf.
  pose proof (Qfloor_le y) as Hy.
  destruct (round_half_even_cases x) as [[Ex _] | [Ex Hx]].
  - rewrite Ex. apply round_half_even_ge_Z.
    pose proof (Qfloor_le x). lra.
  - destruct (round_half_even_cases y) as [[Ey Hy'] | [Ey _]].
    + destruct (Z.eq_dec (Qfloor x) (Qfloor y)) as [E | E]; [| lia].
      rewrite (round_half_even_comp x y); [lia |].
      rewrite E in Hx. lra.
    + lia.
Qed.

Lemma pow2_pos (e : Z) : 0 < 2 ^ e.
Proof. apply Qpower_0_lt. reflexivity. Qed.

Lemma pow2_add (a b : Z) : 2 ^ (a + b) == 2 ^ a * 2 ^ b.
Proof. apply Qpower_plus. discriminate. Qed.

Lemma pow2_le (a b : Z) : (a <= b)%Z -> 2 ^ a <= 2 ^ b.
Proof. intros H. apply Qpower_le_compat_l; [exact H | discriminate]. Qed.

Lemma pow2_lt_inv (a b : Z) : 2 ^ a < 2 ^ b -> (a < b)%Z.
Proof. intros H. apply (Qpower_lt_compat_l_inv 2); [exact H | reflexivity]. Qed.

(** A natural power of two is a whole number. *)
Lemma pow2_Z (a : Z) : (0 <= a)%Z -> 2 ^ a == inject_Z (2 ^ a).
Proof. intros H. rewrite Zpower_Qpower by exact H. reflexivity. Qed.

Lemma Zlog2_bounds (n : Z) :
  (0 < n)%Z -> 2 ^ Z.log2 n <= inject_Z n /\ inject_Z n < 2 ^ (Z.log2 n + 1).
Proof.
  intros H. destruct (Z.log2_spec n H) as [H1 H2].
  pose proof (Z.log2_nonneg n) as H0.
  rewrite !pow2_Z by lia. rewrite <- Zle_Qle, <- Zlt_Qlt.
  split; [exact H1 |]. replace (Z.log2 n + 1)%Z with (Z.succ (Z.log2 n)) by lia.
  exact H2.
Qed.

Lemma Qlog2_spec (x : Q) :
  0 < x -> 2 ^ Binary64.Qlog2 x <= x /\ x < 2 ^ (Binary64.Qlog2 x + 1).
Proof.
  intros Hx. destruct x as [p q].
  assert (Hp : (0 < p)%Z) by (unfold Qlt in Hx; simpl in Hx; lia).
  destruct (Zlog2_bounds p Hp) as [Pa Pb].
  destruct (Zlog2_bounds (Zpos q) eq_refl) as [Qa Qb].
  assert (E : (p # q) * inject_Z (Zpos q) == inject_Z p).
  { rewrite (Qmake_Qdiv p q). field. discriminate. }
  assert (Hq : 0 < inject_Z (Zpos q)) by reflexivity.
  set (a := Z.log2 p) in *. set (b := Z.log2 (Zpos q)) in *.
  pose proof (pow2_pos b) as Hb. pose proof (pow2_pos (b + 1)) as Hb1.
  assert (Hhi : p # q < 2 ^ (a - b + 1)).
  { pose proof (pow2_add (a - b + 1) b) as Ek.
    replace (a - b + 1 + b)%Z with (a + 1)%Z in Ek by lia.
    pose proof (pow2_pos (a - b + 1)) as Hk.
    apply (Qmult_lt_r _ _ (inject_Z (Zpos q)) Hq). rewrite E.
    apply (Qlt_le_trans _ (2 ^ (a - b + 1) * 2 ^ b)); [lra |].
    apply Qmult_le_l; [exact Hk | exact Qa]. }
  assert (Hlo : 2 ^ (a - b - 1) <= p # q).
  { pose proof (pow2_add (a - b - 1) (b + 1)) as Ek.
    replace (a - b - 1 + (b + 1))%Z with a in Ek by lia.
    pose proof (pow2_pos (a - b - 1)) as Hk.
    apply (Qmult_le_r _ _ (2 ^ (b + 1)) Hb1). rewrite <- Ek.
    apply (Qle_trans _ (inject_Z p)); [exact Pa |]. rewrite <- E.
    apply Qmult_le_l; [exact Hx | lra]. }
  unfold Binary64.Qlog2. cbn [Qnum Qden]. fold a b.
  destruct (Qle_bool (2 ^ (a - b)) (p # q)) eqn:Eb.
  - apply Qle_bool_iff in Eb. split; [exact Eb | exact Hhi].
  - replace (a - b - 1 + 1)%Z with (a - b)%Z by lia. split; [exact Hlo |].
    destruct (Qlt_le_dec (p # q) (2 ^ (a - b))) as [H | H]; [exact H |].
    apply Qle_bool_iff in H. congruence.
Qed.

Lemma Qlog2_unique (x : Q) (k : Z) :
  2 ^ k <= x -> x < 2 ^ (k + 1) -> Binary64.Qlog2 x = k.
Proof.
  intros H1 H2. pose proof (pow2_pos k) as Hk.
  destruct (Qlog2_spec x ltac:(lra)) as [L1 L2].
  assert ((Binary64.Qlog2 x < k + 1)%Z) by (apply pow2_lt_inv; lra).
  assert ((k < Binary64.Qlog2 x + 1)%Z) by (apply pow2_lt_inv; lra).
  lia.
Qed.

Lemma Qlog2_mono (x y : Q) : 0 < x -> x <= y -> (Binary64.Qlog2 x <= Binary64.Qlog2 y)%Z.
Proof.
  intros Hx Hxy. destruct (Qlog2_spec x Hx) as [L1 _].
  destruct (Qlog2_spec y ltac:(lra)) as [_ L2].
  assert ((Binary64.Qlog2 x < Binary64.Qlog2 y + 1)%Z) by (apply pow2_lt_inv; lra).
  lia.
Qed.

Lemma Qabs_nonneg_eq (x : Q) : 0 <= x -> Qabs x = x.
Proof.
  destruct x as [p q]. unfold Qle, Qabs. simpl. intros H.
  rewrite Z.abs_eq by lia. reflexivity.
Qed.

Lemma exponent_nonneg (x : Q) :
  0 <= x -> Binary64.exponent x = Z.max (Binary64.Qlog2 x - 52) (-1074).
Proof. intros H. unfold Binary64.exponent. rewrite (Qabs_nonneg_eq x H). reflexivity. Qed.

Lemma rnd_zero (x : Q) : x == 0 -> Binary64.rnd x = 0.
Proof.
  intros H. unfold Binary64.rnd. apply Qeq_bool_iff in H. rewrite H. reflexivity.
Qed.

Lemma rnd_pos (x : Q) :
  0 < x ->
  Binary64.rnd x
  == inject_Z (round_half_even (x / 2 ^ Binary64.exponent x)) * 2 ^ Binary64.exponent x.
Proof.
  intros H. unfold Binary64.rnd. destruct (Qeq_bool x 0) eqn:E; [| apply Qred_correct].
  apply Qeq_bool_iff in E. lra.
Qed.

Lemma rnd_nonneg (x : Q) : 0 <= x -> 0 <= Binary64.rnd x.
Proof.
  intros H. unfold Binary64.rnd. destruct (Qeq_bool x 0); [lra |].
  rewrite Qred_correct. pose proof (pow2_pos (Binary64.exponent x)) as He.
  apply Qmult_le_0_compat; [| lra].
  change 0 with (inject_Z 0). rewrite <- Zle_Qle. apply round_half_even_ge_Z.
  change (inject_Z 0) with 0. apply Qle_shift_div_l; [exact He | lra].
Qed.

(** The numbers [n * 2 ^ Binary64.exponent x] are binary64 numbers between which
    rounding does not carry [x] across. *)
Lemma rnd_le_grid (x : Q) (n : Z) :
  0 < x -> x <= inject_Z n * 2 ^ Binary64.exponent x -> Binary64.rnd x <= inject_Z n * 2 ^ Binary64.exponent x.
Proof.
  intros Hx H. rewrite (rnd_pos x Hx). pose proof (pow2_pos (Binary64.exponent x)) as He.
  apply Qmult_le_r; [exact He |]. rewrite <- Zle_Qle.
  apply round_half_even_le_Z. apply Qle_shift_div_r; [exact He | exact H].
Qed.

Lemma rnd_ge_grid (x : Q) (n : Z) :
  0 < x -> inject_Z n * 2 ^ Binary64.exponent x <= x -> inject_Z n * 2 ^ Binary64.exponent x <= Binary64.rnd x.
Proof.
  intros Hx H. rewrite (rnd_pos x Hx). pose proof (pow2_pos (Binary64.exponent x)) as He.
  apply Qmult_le_r; [exact He |]. rewrite <- Zle_Qle.
  apply round_half_even_ge_Z. apply Qle_shift_div_l; [exact He | exact H].
Qed.

Lemma pow2_grid (k e : Z) : (e <= k)%Z -> 2 ^ k == inject_Z (2 ^ (k - e)) * 2 ^ e.
Proof.
  intros H. rewrite <- pow2_Z by lia. rewrite <- pow2_add.
  replace (k - e + e)%Z with k by lia. reflexivity.
Qed.

Lemma rnd_le_pow2 (x : Q) (k : Z) :
  0 < x -> x <= 2 ^ k -> (Binary64.exponent x <= k)%Z -> Binary64.rnd x <= 2 ^ k.
Proof.
  intros Hx H He. rewrite (pow2_grid k (Binary64.exponent x) He) in *.
  apply rnd_le_grid; assumption.
Qed.

Lemma rnd_ge_pow2 (x : Q) (k : Z) :
  0 < x -> 2 ^ k <= x -> (Binary64.exponent x <= k)%Z -> 2 ^ k <= Binary64.rnd x.
Proof.
  intros Hx H He. rewrite (pow2_grid k (Binary64.exponent x) He) in *.
  apply rnd_ge_grid; assumption.
Qed.

(** Rounding is monotone. *)
Lemma rnd_mono (x y : Q) : 0 <= x -> x <= y -> Binary64.rnd x <= Binary64.rnd y.
Proof.
  intros H0 Hxy. destruct (Qlt_le_dec 0 x) as [Hx | Hx].
  2: { rewrite (rnd_zero x) by lra. apply rnd_nonneg. lra. }
  assert (Hy : 0 < y) by lra.
  pose proof (Qlog2_mono x y Hx Hxy) as HL.
  pose proof (exponent_nonneg x ltac:(lra)) as Ex.
  pose proof (exponent_nonneg y ltac:(lra)) as Ey.
  destruct (Qlog2_spec x Hx) as [_ X2]. destruct (Qlog2_spec y Hy) as [Y1 _].
  destruct (Z.eq_dec (Binary64.exponent x) (Binary64.exponent y)) as [E | E].
  - rewrite (rnd_pos x Hx), (rnd_pos y Hy), <- E.
    pose proof (pow2_pos (Binary64.exponent x)) as He.
    apply Qmult_le_r; [exact He |]. rewrite <- Zle_Qle.
    apply round_half_even_mono. apply Qmult_le_r; [apply Qinv_lt_0_compat; exact He |].
    exact Hxy.
  - apply (Qle_trans _ (2 ^ Z.max (Binary64.Qlog2 x + 1) (Binary64.exponent x))).
    + apply rnd_le_pow2; [exact Hx | | lia].
      apply (Qle_trans _ (2 ^ (Binary64.Qlog2 x + 1))); [lra | apply pow2_le; lia].
    + apply (Qle_trans _ (2 ^ Binary64.Qlog2 y)); [apply pow2_le; lia |].
      apply rnd_ge_pow2; [exact Hy | exact Y1 | lia].
Qed.






(** A binary64 number is not below the numbers under it. *)
Lemma rnd_above (x y : Q) :
  0 <= x -> Binary64.binary64 x -> x <= y -> x <= Binary64.rnd y.
Proof.
  intros H0 Hx Hxy. unfold Binary64.binary64 in Hx. rewrite <- Hx.
  apply rnd_mono; assumption.
Qed.





(** ** Chunking in binary64 *)






Lemma left_after_cons (r c : Q) (l : list Q) :
  Binary64.left_after r (c :: l) = Binary64.left_after (Binary64.rnd (r - c)) l.
Proof. reflexivity. Qed.




